(** * Reevit Go SDK: idempotency keys and webhook signatures

    A shallow embedding of the keying and signing code of the SDK
    ([idempotency.go], [webhooks/helpers.go] and the [VerifySignature]
    function of the README) together with the Go library functions they
    call, and the properties of that code.

    Conventions
    - a Go [byte] is an [ascii] (eight bits), a Go [[]byte] is a
      [list ascii] and a Go [string] is a [string]; the conversion
      [[]byte(s)] is [list_ascii_of_string];
    - machine words are [Z] with the wrap-around written out;
    - a Go [map[string]T] is a [gmap string T];
    - a run-time panic is the [None] of an [option]. *)

From Stdlib Require Import ZArith Ascii String List Lia.
From Stdlib Require Import DecimalString DecimalZ OrdersEx.
From stdpp Require Import base list strings gmap fin_maps sorting.

Local Open Scope string_scope.
Local Open Scope list_scope.
Local Open Scope Z_scope.

(** ** Bytes *)

Definition Z_of_byte (b : ascii) : Z := Z.of_N (N_of_ascii b).
Definition byte_of_Z (z : Z) : ascii := ascii_of_N (Z.to_N (z mod 256)).

(** [[]byte(s)] and [string(b)]. *)
Definition bytes_of_string (s : string) : list ascii := list_ascii_of_string s.
Definition string_of_bytes (b : list ascii) : string := string_of_list_ascii b.

(** ** encoding/hex *)

Module hex.

Definition hextable : string := "0123456789abcdef".

Definition digit (n : Z) : ascii :=
  match String.get (Z.to_nat n) hextable with
  | Some c => c
  | None => "0"%char
  end.

(** [hex.EncodeToString]: two lowercase digits per byte, high nibble
    first. *)
Fixpoint EncodeToString (src : list ascii) : string :=
  match src with
  | [] => ""
  | b :: rest =>
      String (digit (Z.shiftr (Z_of_byte b) 4))
        (String (digit (Z.land (Z_of_byte b) 15)) (EncodeToString rest))
  end.

End hex.

(** ** The SHA-2 family (FIPS 180-4), as used by crypto/sha256 and
    crypto/sha512 *)

Module sha2.

(** The two instances differ in the word size, the number of rounds,
    the rotation amounts, the round constants and the initial value. *)
Record params := {
  wbits : Z;
  nrounds : nat;
  Sig0 : Z * Z * Z;
  Sig1 : Z * Z * Z;
  sig0 : Z * Z * Z;
  sig1 : Z * Z * Z;
  K : list Z;
  H0 : Z * Z * Z * Z * Z * Z * Z * Z
}.

Section Generic.
Variable p : params.

Definition wmod : Z := 2 ^ wbits p.
Definition wbytes : nat := Z.to_nat (wbits p / 8).
Definition block_bytes : nat := (16 * wbytes)%nat.

Definition add (x y : Z) : Z := (x + y) mod wmod.
Definition rotr (n x : Z) : Z :=
  Z.lor (Z.shiftr x n) (Z.shiftl x (wbits p - n) mod wmod).
Definition shr (n x : Z) : Z := Z.shiftr x n.
Definition lnot (x : Z) : Z := wmod - 1 - x.

Definition Ch (x y z : Z) : Z := Z.lxor (Z.land x y) (Z.land (lnot x) z).
Definition Maj (x y z : Z) : Z :=
  Z.lxor (Z.lxor (Z.land x y) (Z.land x z)) (Z.land y z).

Definition big_sigma (c : Z * Z * Z) (x : Z) : Z :=
  let '(r1, r2, r3) := c in
  Z.lxor (Z.lxor (rotr r1 x) (rotr r2 x)) (rotr r3 x).
Definition small_sigma (c : Z * Z * Z) (x : Z) : Z :=
  let '(r1, r2, s) := c in
  Z.lxor (Z.lxor (rotr r1 x) (rotr r2 x)) (shr s x).

Definition state : Type := Z * Z * Z * Z * Z * Z * Z * Z.

(** One round; [wt] is the schedule word and [kt] the round constant. *)
Definition round (s : state) (kt wt : Z) : state :=
  let '(a, b, c, d, e, f, g, h) := s in
  let t1 := add (add (add (add h (big_sigma (Sig1 p) e)) (Ch e f g)) kt) wt in
  let t2 := add (big_sigma (Sig0 p) a) (Maj a b c) in
  (add t1 t2, a, b, c, add d t1, e, f, g).

(** The schedule is kept as a window of sixteen words
    [W_t .. W_(t+15)]; the next word is
    [sig1 W_(t+14) + W_(t+9) + sig0 W_(t+1) + W_t]. *)
Definition next_word (win : list Z) : Z :=
  add (add (add (small_sigma (sig1 p) (nth 14 win 0)) (nth 9 win 0))
           (small_sigma (sig0 p) (nth 1 win 0)))
      (nth 0 win 0).

Fixpoint rounds (ks : list Z) (win : list Z) (s : state) : state :=
  match ks with
  | [] => s
  | kt :: ks' =>
      rounds ks' (tl win ++ [next_word win]) (round s kt (nth 0 win 0))
  end.

Definition compress (h : state) (block : list Z) : state :=
  let '(a, b, c, d, e, f, g, h') := rounds (firstn (nrounds p) (K p)) block h in
  let '(a0, b0, c0, d0, e0, f0, g0, h0) := h in
  (add a0 a, add b0 b, add c0 c, add d0 d,
   add e0 e, add f0 f, add g0 g, add h0 h').

(** Big-endian words. *)
Fixpoint be_word (n : nat) (acc : Z) (bs : list ascii) : Z * list ascii :=
  match n with
  | O => (acc, bs)
  | S n' =>
      match bs with
      | [] => be_word n' (acc * 256) []
      | b :: bs' => be_word n' (acc * 256 + Z_of_byte b) bs'
      end
  end.

Fixpoint words (n : nat) (bs : list ascii) : list Z :=
  match n with
  | O => []
  | S n' => let '(x, rest) := be_word wbytes 0 bs in x :: words n' rest
  end.

Fixpoint be_bytes (n : nat) (x : Z) : list ascii :=
  match n with
  | O => []
  | S n' => byte_of_Z (Z.shiftr x (8 * Z.of_nat n')) :: be_bytes n' x
  end.

(** Padding: a one bit, zero bits up to the length field, then the
    bit length as a big-endian integer of two words. *)
Definition pad (msg : list ascii) : list ascii :=
  let len := Z.of_nat (length msg) in
  let blk := Z.of_nat block_bytes in
  let lenfield := Z.of_nat (2 * wbytes) in
  let zeros := Z.to_nat ((blk - (len + 1 + lenfield) mod blk) mod blk) in
  msg ++ [byte_of_Z 128] ++ repeat (byte_of_Z 0) zeros
      ++ be_bytes (2 * wbytes) (8 * len).

Fixpoint blocks (n : nat) (ws : list Z) (h : state) : state :=
  match n with
  | O => h
  | S n' => blocks n' (skipn 16 ws) (compress h (firstn 16 ws))
  end.

Definition digest_words (msg : list ascii) : state :=
  let padded := pad msg in
  let nblocks := (length padded / block_bytes)%nat in
  blocks nblocks (words (16 * nblocks) padded) (H0 p).

Definition state_bytes (s : state) : list ascii :=
  let '(a, b, c, d, e, f, g, h) := s in
  be_bytes wbytes a ++ be_bytes wbytes b ++ be_bytes wbytes c
    ++ be_bytes wbytes d ++ be_bytes wbytes e ++ be_bytes wbytes f
    ++ be_bytes wbytes g ++ be_bytes wbytes h.

Definition Sum (msg : list ascii) : list ascii :=
  state_bytes (digest_words msg).

End Generic.

(** The constants are the leading fractional bits of roots of the first
    primes: cube roots for the round constants, square roots for the
    initial value. *)
Definition is_prime (n : Z) : bool :=
  forallb (fun d => negb (n mod d =? 0))
    (map Z.of_nat (seq 2 (Z.to_nat n - 2))).

Definition primes (count : nat) : list Z :=
  firstn count (filter is_prime (map Z.of_nat (seq 2 420))).

(** The integer cube root of [n], one bit at a time from the top. *)
Fixpoint cbrt_bits (bits : nat) (n x : Z) : Z :=
  match bits with
  | O => x
  | S b =>
      let y := x + 2 ^ Z.of_nat b in
      cbrt_bits b n (if y * y * y <=? n then y else x)
  end.

Definition frac_cbrt (w p : Z) : Z :=
  cbrt_bits (Z.to_nat (w + 4)) (p * 2 ^ (3 * w)) 0 mod 2 ^ w.

Definition frac_sqrt (w p : Z) : Z := Z.sqrt (p * 2 ^ (2 * w)) mod 2 ^ w.

Definition state_of_list (l : list Z) : Z * Z * Z * Z * Z * Z * Z * Z :=
  (nth 0 l 0, nth 1 l 0, nth 2 l 0, nth 3 l 0,
   nth 4 l 0, nth 5 l 0, nth 6 l 0, nth 7 l 0).

Definition K256 : list Z := Eval vm_compute in map (frac_cbrt 32) (primes 64).
Definition H256 : Z * Z * Z * Z * Z * Z * Z * Z :=
  Eval vm_compute in state_of_list (map (frac_sqrt 32) (primes 8)).
Definition K512 : list Z := Eval vm_compute in map (frac_cbrt 64) (primes 80).
Definition H512 : Z * Z * Z * Z * Z * Z * Z * Z :=
  Eval vm_compute in state_of_list (map (frac_sqrt 64) (primes 8)).

Definition sha256_params : params := {|
  wbits := 32;
  nrounds := 64;
  Sig0 := (2, 13, 22);
  Sig1 := (6, 11, 25);
  sig0 := (7, 18, 3);
  sig1 := (17, 19, 10);
  K := K256;
  H0 := H256
|}.

Definition sha512_params : params := {|
  wbits := 64;
  nrounds := 80;
  Sig0 := (28, 34, 39);
  Sig1 := (14, 18, 41);
  sig0 := (1, 8, 7);
  sig1 := (19, 61, 6);
  K := K512;
  H0 := H512
|}.

End sha2.

(** The [hash.Hash] factories passed to [hmac.New]: what the code needs
    of a hash is its block size and its one-shot digest. *)
Record Hash := {
  BlockSize : nat;
  Sum : list ascii -> list ascii
}.

Module sha256.
Definition Sum256 (data : list ascii) : list ascii :=
  sha2.Sum sha2.sha256_params data.
Definition New : Hash :=
  {| BlockSize := sha2.block_bytes sha2.sha256_params; Sum := Sum256 |}.
End sha256.

Module sha512.
Definition Sum512 (data : list ascii) : list ascii :=
  sha2.Sum sha2.sha512_params data.
Definition New : Hash :=
  {| BlockSize := sha2.block_bytes sha2.sha512_params; Sum := Sum512 |}.
End sha512.

(** ** crypto/hmac (RFC 2104) and crypto/subtle *)

Module subtle.

(** [ConstantTimeCompare]: 0 at once when the lengths differ, otherwise
    the OR of the XORs of all byte pairs is compared with 0. *)
Fixpoint xor_fold (x y : list ascii) (v : Z) : Z :=
  match x, y with
  | a :: x', b :: y' =>
      xor_fold x' y' (Z.lor v (Z.lxor (Z_of_byte a) (Z_of_byte b)))
  | _, _ => v
  end.

Definition ConstantTimeCompare (x y : list ascii) : Z :=
  if negb (length x =? length y)%nat then 0
  else if xor_fold x y 0 =? 0 then 1 else 0.

End subtle.

Module hmac.

Definition xor_pad (c : Z) (key : list ascii) : list ascii :=
  map (fun b => byte_of_Z (Z.lxor (Z_of_byte b) c)) key.

(** [hmac.New(h, key)] followed by [Write(msg)] and [Sum(nil)]. *)
Definition MAC (h : Hash) (key msg : list ascii) : list ascii :=
  let key := if (BlockSize h <? length key)%nat then Sum h key else key in
  let key := key ++ repeat (byte_of_Z 0) (BlockSize h - length key) in
  let inner := Sum h (xor_pad 0x36 key ++ msg) in
  Sum h (xor_pad 0x5c key ++ inner).

Definition Equal (mac1 mac2 : list ascii) : bool :=
  subtle.ConstantTimeCompare mac1 mac2 =? 1.

End hmac.

(** ** unicode/utf8 and unicode *)

Module utf8.

Definition RuneError : Z := 0xFFFD.
Definition RuneSelf : Z := 0x80.

(** The table [first] together with [acceptRanges]: what a leading
    byte announces (the size of the sequence and the range accepted for
    the second byte). *)
Inductive lead : Type :=
| LeadASCII
| LeadInvalid
| Lead (size : nat) (lo hi : Z).

Definition first (b : Z) : lead :=
  if b <? 0x80 then LeadASCII
  else if b <? 0xC2 then LeadInvalid
  else if b <? 0xE0 then Lead 2 0x80 0xBF
  else if b =? 0xE0 then Lead 3 0xA0 0xBF
  else if b <? 0xED then Lead 3 0x80 0xBF
  else if b =? 0xED then Lead 3 0x80 0x9F
  else if b <? 0xF0 then Lead 3 0x80 0xBF
  else if b =? 0xF0 then Lead 4 0x90 0xBF
  else if b <? 0xF4 then Lead 4 0x80 0xBF
  else if b =? 0xF4 then Lead 4 0x80 0x8F
  else LeadInvalid.

Definition at_ (s : list ascii) (i : nat) : Z :=
  Z_of_byte (nth i s Ascii.zero).

(** [utf8.DecodeRuneInString]: the first rune of [s] and its width;
    [(RuneError, 0)] for the empty string and [(RuneError, 1)] for an
    invalid encoding. *)
Definition DecodeRuneInString (s : list ascii) : Z * nat :=
  match s with
  | [] => (RuneError, 0%nat)
  | _ :: _ =>
      let s0 := at_ s 0 in
      match first s0 with
      | LeadASCII => (s0, 1%nat)
      | LeadInvalid => (RuneError, 1%nat)
      | Lead sz lo hi =>
          if (length s <? sz)%nat then (RuneError, 1%nat) else
          let s1 := at_ s 1 in
          if (s1 <? lo) || (hi <? s1) then (RuneError, 1%nat) else
          if (sz <=? 2)%nat then
            (Z.lor (Z.shiftl (Z.land s0 0x1F) 6) (Z.land s1 0x3F), 2%nat)
          else
          let s2 := at_ s 2 in
          if (s2 <? 0x80) || (0xBF <? s2) then (RuneError, 1%nat) else
          if (sz <=? 3)%nat then
            (Z.lor (Z.lor (Z.shiftl (Z.land s0 0x0F) 12)
                          (Z.shiftl (Z.land s1 0x3F) 6))
                   (Z.land s2 0x3F), 3%nat)
          else
          let s3 := at_ s 3 in
          if (s3 <? 0x80) || (0xBF <? s3) then (RuneError, 1%nat) else
          (Z.lor (Z.lor (Z.lor (Z.shiftl (Z.land s0 0x07) 18)
                               (Z.shiftl (Z.land s1 0x3F) 12))
                        (Z.shiftl (Z.land s2 0x3F) 6))
                 (Z.land s3 0x3F), 4%nat)
      end
  end.

Definition RuneStart (b : Z) : bool := negb (Z.land b 0xC0 =? 0x80).

(** The backwards scan of [DecodeLastRuneInString]:
    [for start--; start >= lim; start-- { if RuneStart(s[start]) { break } }],
    entered after the first decrement; it runs at most three times. *)
Fixpoint scan_back (n : nat) (s : list ascii) (start lim : Z) : Z :=
  match n with
  | O => start
  | S n' =>
      if start <? lim then start
      else if RuneStart (at_ s (Z.to_nat start)) then start
      else scan_back n' s (start - 1) lim
  end.

Definition DecodeLastRuneInString (s : list ascii) : Z * nat :=
  let end_ := Z.of_nat (length s) in
  if end_ =? 0 then (RuneError, 0%nat) else
  let r := at_ s (Z.to_nat (end_ - 1)) in
  if r <? RuneSelf then (r, 1%nat) else
  let lim := Z.max (end_ - 4) 0 in
  let start := Z.max (scan_back 4 s (end_ - 2) lim) 0 in
  let '(r, size) := DecodeRuneInString (skipn (Z.to_nat start) s) in
  if negb (start + Z.of_nat size =? end_) then (RuneError, 1%nat)
  else (r, size).

(** [utf8.ValidString]: every rune of [s] decodes without error; [n]
    bounds the number of runes by the length of [s]. *)
Fixpoint valid_runes (n : nat) (s : list ascii) : bool :=
  match s with
  | [] => true
  | _ :: _ =>
      match n with
      | O => false
      | S n' =>
          let '(c, size) := DecodeRuneInString (firstn 4 s) in
          negb ((c =? RuneError) && (size =? 1)%nat)
          && valid_runes n' (skipn size s)
      end
  end.

Definition ValidString (s : string) : bool :=
  valid_runes (String.length s) (bytes_of_string s).

End utf8.

Module unicode.

(** [unicode.IsSpace]: the Latin-1 white space and the White_Space
    range table above Latin-1. *)
Definition IsSpace (r : Z) : bool :=
  if (0 <=? r) && (r <=? 0xFF) then
    (r =? 9) || (r =? 10) || (r =? 11) || (r =? 12) || (r =? 13)
    || (r =? 32) || (r =? 0x85) || (r =? 0xA0)
  else
    (r =? 0x1680) || ((0x2000 <=? r) && (r <=? 0x200a))
    || ((0x2028 <=? r) && (r <=? 0x2029)) || (r =? 0x202f)
    || (r =? 0x205f) || (r =? 0x3000).

End unicode.

(** ** strings *)

Module strings.

(** [strings.HasPrefix]:
    [len(s) >= len(prefix) && s[:len(prefix)] == prefix]. *)
Definition HasPrefix (s prefix : string) : bool :=
  (String.length prefix <=? String.length s)%nat
  && String.eqb (substring 0 (String.length prefix) s) prefix.

Definition asciiSpace (c : Z) : bool :=
  (c =? 9) || (c =? 10) || (c =? 11) || (c =? 12) || (c =? 13) || (c =? 32).

(** [indexFunc(s, f, truth)]: the index of the first rune [r] with
    [f(r) == truth], ranging over the runes of [s] from position [i]. *)
Fixpoint indexFunc (n : nat) (s : list ascii) (i : nat)
    (f : Z -> bool) (truth : bool) : option nat :=
  match n with
  | O => None
  | S n' =>
      if (length s <=? i)%nat then None else
      let '(r, size) := utf8.DecodeRuneInString (skipn i s) in
      if Bool.eqb (f r) truth then Some i
      else indexFunc n' s (i + size) f truth
  end.

(** [lastIndexFunc(s, f, truth)]:
    [for i := len(s); i > 0; { r, size := DecodeLastRuneInString(s[0:i]);
     i -= size; if f(r) == truth { return i } }; return -1]. *)
Fixpoint lastIndexFunc (n : nat) (s : list ascii) (i : nat)
    (f : Z -> bool) (truth : bool) : option nat :=
  match n with
  | O => None
  | S n' =>
      if (i =? 0)%nat then None else
      let '(r, size) := utf8.DecodeLastRuneInString (firstn i s) in
      let i := (i - size)%nat in
      if Bool.eqb (f r) truth then Some i
      else lastIndexFunc n' s i f truth
  end.

Definition TrimLeftFunc (s : list ascii) (f : Z -> bool) : list ascii :=
  match indexFunc (length s) s 0 f false with
  | None => []
  | Some i => skipn i s
  end.

Definition TrimRightFunc (s : list ascii) (f : Z -> bool) : list ascii :=
  match lastIndexFunc (length s) s (length s) f false with
  | Some i =>
      if utf8.RuneSelf <=? utf8.at_ s i then
        let '(_, wid) := utf8.DecodeRuneInString (skipn i s) in
        firstn (i + wid) s
      else firstn (i + 1) s
  | None => []
  end.

Definition TrimFunc (s : list ascii) (f : Z -> bool) : list ascii :=
  TrimRightFunc (TrimLeftFunc s f) f.

(** The second loop of [TrimSpace], on [t = s[start:]], counting [stop]
    down from [len(t)]. *)
Fixpoint trim_stop (t : list ascii) (stop : nat) : list ascii :=
  match stop with
  | O => []
  | S stop' =>
      let c := utf8.at_ t stop' in
      if utf8.RuneSelf <=? c then TrimRightFunc (firstn stop t) unicode.IsSpace
      else if asciiSpace c then trim_stop t stop'
      else firstn stop t
  end.

(** The first loop of [TrimSpace], on [t = s[start:]]: ASCII white
    space is skipped; a byte outside ASCII hands over to the
    Unicode-aware [TrimFunc]. *)
Fixpoint trim_start (t : list ascii) : list ascii :=
  match t with
  | [] => []
  | b :: rest =>
      let c := Z_of_byte b in
      if utf8.RuneSelf <=? c then TrimFunc t unicode.IsSpace
      else if asciiSpace c then trim_start rest
      else trim_stop t (length t)
  end.

Definition TrimSpace (s : string) : string :=
  string_of_bytes (trim_start (bytes_of_string s)).

(** [strings.TrimPrefix]. *)
Definition TrimPrefix (s prefix : string) : string :=
  if HasPrefix s prefix
  then substring (String.length prefix) (String.length s - String.length prefix) s
  else s.

(** [trimRightByte]:
    [for len(s) > 0 && s[len(s)-1] == c { s = s[:len(s)-1] }], with [n]
    the current length. *)
Fixpoint trimRightByte (s : list ascii) (n : nat) (c : ascii) : list ascii :=
  match n with
  | O => []
  | S n' =>
      if Ascii.eqb (nth n' s Ascii.zero) c then trimRightByte s n' c
      else firstn n s
  end.

(** [strings.TrimRight(s, cutset)] for a cutset of one ASCII byte, the
    only way the code calls it: empty strings come back as they are and
    the rest goes to [trimRightByte]. *)
Definition TrimRight (s : string) (cutset : ascii) : string :=
  if String.eqb s "" then s
  else string_of_bytes
         (trimRightByte (bytes_of_string s) (String.length s) cutset).

End strings.

(** ** webhooks/helpers.go *)

Module webhooks.

Definition MetadataOrgID : string := "org_id".
Definition MetadataConnectionID : string := "connection_id".
Definition MetadataPaymentID : string := "payment_id".

(** [BuildMetadata]: each identifier is stored under its key unless it
    is blank after trimming. *)
Definition BuildMetadata (orgID connectionID paymentID : string)
  : gmap string string :=
  let meta : gmap string string := ∅ in
  let meta :=
    let trimmed := strings.TrimSpace orgID in
    if negb (String.eqb trimmed "") then <[MetadataOrgID := trimmed]> meta
    else meta in
  let meta :=
    let trimmed := strings.TrimSpace connectionID in
    if negb (String.eqb trimmed "")
    then <[MetadataConnectionID := trimmed]> meta else meta in
  let meta :=
    let trimmed := strings.TrimSpace paymentID in
    if negb (String.eqb trimmed "")
    then <[MetadataPaymentID := trimmed]> meta else meta in
  meta.

Definition signHex (body : list ascii) (secret : string) (factory : Hash)
  : string :=
  let secret := strings.TrimSpace secret in
  if (length body =? 0)%nat || String.eqb secret "" then ""
  else hex.EncodeToString (hmac.MAC factory (bytes_of_string secret) body).

Definition SignPaystack (body : list ascii) (secretKey : string) : string :=
  signHex body secretKey sha512.New.

Definition SignHubtel (body : list ascii) (clientSecret : string) : string :=
  signHex body clientSecret sha256.New.

Definition SignPolar (body : list ascii) (clientSecret : string) : string :=
  signHex body clientSecret sha256.New.

Definition FlutterwaveHash (secretHash : string) : string :=
  strings.TrimSpace secretHash.

(** The slice expression [s[i:]] panics when [i > len(s)]. *)
Definition slice_from (s : string) (i : nat) : option string :=
  if (i <=? String.length s)%nat
  then Some (substring i (String.length s - i) s)
  else None.

(** [VerifySignature] (README, the handler of the platform's own
    webhooks).  [None] stands for a run-time panic. *)
Definition VerifySignature (payload : list ascii) (signature secret : string)
  : option bool :=
  if negb (strings.HasPrefix signature "sha256=") then Some false
  else
    let expected :=
      hex.EncodeToString (hmac.MAC sha256.New (bytes_of_string secret) payload) in
    match slice_from signature 7 with
    | None => None
    | Some received =>
        Some (hmac.Equal (bytes_of_string received) (bytes_of_string expected))
    end.

End webhooks.

(** ** strconv, sort and fmt *)

Module strconv.

(** [strconv.FormatInt(i, 10)]: an optional minus sign and the decimal
    digits without leading zeros. *)
Definition FormatInt (i : Z) : string := NilZero.string_of_int (Z.to_int i).

End strconv.

(** Go compares strings byte by byte. *)
Definition string_le (a b : string) : Prop := String.leb a b = true.

#[global] Instance string_le_dec : RelDecision string_le :=
  fun a b => decide (String.leb a b = true).

Module sort.

(** [sort.Strings]: the keys in increasing order. *)
Definition Strings (keys : list string) : list string :=
  merge_sort string_le keys.

End sort.

Module fmt.

(** The verbs used by [GenerateIdempotencyKey]: [%d] on an [int64] and
    [%x] on a byte array. *)
Definition verb_d (i : Z) : string := strconv.FormatInt i.
Definition verb_x (b : list ascii) : string := hex.EncodeToString b.

End fmt.

(** ** encoding/json *)

Module json.

(** The values of a parameter set: what Go's [any] holds for JSON data.
    [ANil] is the nil interface, [AInt] an integer ([int], [int64]),
    [ASlice] a non-nil [[]any] and [AMap] a non-nil [map[string]any].
    Floating-point numbers are left out. *)
#[warnings="-register-all"]
Inductive any : Type :=
| ANil
| ABool (b : bool)
| AInt (n : Z)
| AString (s : string)
| ASlice (l : list any)
| AMap (m : gmap string any).

(** [htmlSafeSet]: the ASCII bytes copied as they are. *)
Definition htmlSafe (c : Z) : bool :=
  (0x20 <=? c) && (c <? 0x80)
  && negb ((c =? 0x22) || (c =? 0x26) || (c =? 0x3C) || (c =? 0x3E)
           || (c =? 0x5C)).

Definition backslash : ascii := "\"%char.

(** The [switch] of [appendString] on an ASCII byte that is not safe. *)
Definition escape_byte (b : ascii) : list ascii :=
  let c := Z_of_byte b in
  if (c =? 0x5C) || (c =? 0x22) then [backslash; b]
  else if c =? 8 then [backslash; "b"%char]
  else if c =? 12 then [backslash; "f"%char]
  else if c =? 10 then [backslash; "n"%char]
  else if c =? 13 then [backslash; "r"%char]
  else if c =? 9 then [backslash; "t"%char]
  else [backslash; "u"%char; "0"%char; "0"%char;
        hex.digit (Z.shiftr c 4); hex.digit (Z.land c 15)].

(** The loop of [appendString] (with [escapeHTML] set, as [Marshal]
    does), one rune per step; [n] bounds the number of steps by the
    length of [src].  A byte that is not valid UTF-8 is written as the
    six bytes of the escape, as the package does in its first version;
    toolchains whose [Marshal] goes through the second version of the
    package write the three bytes of U+FFFD instead.  Both write the
    same for every offending byte, and strings that are valid UTF-8 are
    not concerned. *)
Fixpoint escape (n : nat) (src : list ascii) : list ascii :=
  match n with
  | O => []
  | S n' =>
      match src with
      | [] => []
      | b :: rest =>
          if Z_of_byte b <? utf8.RuneSelf then
            (if htmlSafe (Z_of_byte b) then [b] else escape_byte b)
              ++ escape n' rest
          else
            let '(c, size) := utf8.DecodeRuneInString (firstn 4 src) in
            if (c =? utf8.RuneError) && (size =? 1)%nat then
              bytes_of_string "\ufffd" ++ escape n' (skipn size src)
            else if (c =? 0x2028) || (c =? 0x2029) then
              bytes_of_string "\u202" ++ [hex.digit (Z.land c 15)]
                ++ escape n' (skipn size src)
            else firstn size src ++ escape n' (skipn size src)
      end
  end.

Definition quote : ascii := "034"%char.

Definition appendString (src : string) : list ascii :=
  let src := bytes_of_string src in
  [quote] ++ escape (length src) src ++ [quote].

(** Elements separated by [sep]. *)
Fixpoint join (sep : list ascii) (parts : list (list ascii)) : list ascii :=
  match parts with
  | [] => []
  | [x] => x
  | x :: rest => x ++ sep ++ join sep rest
  end.

Definition key_le {A} (x y : string * A) : Prop := string_le x.1 y.1.

#[global] Instance key_le_dec {A} : RelDecision (@key_le A) :=
  fun x y => decide (String.leb x.1 y.1 = true).

Definition member (kv : string * list ascii) : list ascii :=
  appendString kv.1 ++ bytes_of_string ":" ++ kv.2.

(** The encoders of [Marshal]: [null], [true]/[false], decimal
    integers, quoted strings, arrays, and objects with their keys in
    increasing order. *)
Fixpoint encode (v : any) : list ascii :=
  match v with
  | ANil => bytes_of_string "null"
  | ABool b => bytes_of_string (if b then "true" else "false")
  | AInt n => bytes_of_string (strconv.FormatInt n)
  | AString s => appendString s
  | ASlice l =>
      bytes_of_string "[" ++ join (bytes_of_string ",") (map encode l)
        ++ bytes_of_string "]"
  | AMap m =>
      bytes_of_string "{"
        ++ join (bytes_of_string ",")
             (map member (merge_sort key_le (map_to_list (encode <$> m))))
        ++ bytes_of_string "}"
  end.

Definition error : Type := option string.

(** [json.Marshal]: none of the values of [any] makes it fail. *)
Definition Marshal (v : any) : list ascii * error := (encode v, None).

End json.

(** ** idempotency.go *)

Module reevit.

Import json.

(** [for key := range params { keys = append(keys, key) }].  Go leaves
    the order of a [range] over a map unspecified: [order] is the order
    in which the run time hands out the keys of [params]. *)
Definition collect_keys (order : list string) : list string :=
  fold_left (fun keys key => keys ++ [key]) order [].

(** [order] is a possible iteration order of [params]: every key once. *)
Definition range_order (params : gmap string any) (order : list string)
  : Prop :=
  order ≡ₚ (map_to_list params).*1.

(** [params[key]]: the zero value of [any] when the key is absent. *)
Definition index (params : gmap string any) (key : string) : any :=
  default ANil (params !! key).

(** The loop over the sorted keys; [i] is the loop index and [builder]
    the contents of the [strings.Builder]. *)
Fixpoint write_entries (params : gmap string any) (i : nat)
    (keys : list string) (builder : list ascii) : list ascii :=
  match keys with
  | [] => builder
  | key :: rest =>
      let builder :=
        if (0 <? i)%nat then builder ++ bytes_of_string "|" else builder in
      let '(valueBytes, _) := Marshal (index params key) in
      let builder := builder ++ bytes_of_string key in
      let builder := builder ++ bytes_of_string ":" in
      let builder := builder ++ valueBytes in
      write_entries params (S i) rest builder
  end.

(** The value of [builder.String()] after the loop. *)
Definition canonical_encoding (order : list string)
    (params : gmap string any) : string :=
  let keys := sort.Strings (collect_keys order) in
  string_of_bytes (write_entries params 0 keys []).

(** [GenerateIdempotencyKey]; [now] is the value of
    [time.Now().Unix()], and [/] on [int64] truncates. *)
Definition GenerateIdempotencyKey (now : Z) (order : list string)
    (params : gmap string any) : string :=
  let sum := sha256.Sum256 (bytes_of_string (canonical_encoding order params)) in
  let timeBucket := Z.quot now (5 * 60) in
  "reevit_" +:+ fmt.verb_d timeBucket +:+ "_" +:+ fmt.verb_x sum.

End reevit.

(** ** net/textproto and net/http *)

Module textproto.

(** [validHeaderFieldByte]: the token bytes of RFC 7230. *)
Definition validHeaderFieldByte (c : ascii) : bool :=
  existsb (Ascii.eqb c)
    (bytes_of_string
       "!#$%&'*+-.^_`|~0123456789ABCDEFGHIJKLMNOPQRSTUVWXYZabcdefghijklmnopqrstuvwxyz").

Definition is_lower (c : ascii) : bool :=
  (Z_of_byte "a" <=? Z_of_byte c) && (Z_of_byte c <=? Z_of_byte "z").
Definition is_upper (c : ascii) : bool :=
  (Z_of_byte "A" <=? Z_of_byte c) && (Z_of_byte c <=? Z_of_byte "Z").

(** The first loop of [canonicalMIMEHeaderKey]: [None] when a byte is
    neither valid nor a space, otherwise whether a space was seen. *)
Fixpoint looks_like_key (a : list ascii) (noCanon : bool) : option bool :=
  match a with
  | [] => Some noCanon
  | c :: rest =>
      if validHeaderFieldByte c then looks_like_key rest noCanon
      else if Ascii.eqb c " " then looks_like_key rest true
      else None
  end.

(** The second loop: upper case at the start and after each dash, lower
    case elsewhere. *)
Fixpoint canonicalize (a : list ascii) (upper : bool) : list ascii :=
  match a with
  | [] => []
  | c :: rest =>
      let c :=
        if upper && is_lower c then byte_of_Z (Z_of_byte c - 32)
        else if negb upper && is_upper c then byte_of_Z (Z_of_byte c + 32)
        else c in
      c :: canonicalize rest (Ascii.eqb c "-")
  end.

Definition canonicalMIMEHeaderKey (a : list ascii) : list ascii :=
  match looks_like_key a false with
  | None => a
  | Some true => a
  | Some false => canonicalize a true
  end.

(** The quick check of [CanonicalMIMEHeaderKey] over the bytes [rest] of
    the key [s]. *)
Fixpoint canonical_scan (s rest : list ascii) (upper : bool) : list ascii :=
  match rest with
  | [] => s
  | c :: rest' =>
      if negb (validHeaderFieldByte c) then s
      else if upper && is_lower c then canonicalMIMEHeaderKey s
      else if negb upper && is_upper c then canonicalMIMEHeaderKey s
      else canonical_scan s rest' (Ascii.eqb c "-")
  end.

Definition CanonicalMIMEHeaderKey (s : string) : string :=
  string_of_bytes (canonical_scan (bytes_of_string s) (bytes_of_string s) true).

End textproto.

Module http.

Definition MethodGet : string := "GET".
Definition MethodPost : string := "POST".
Definition StatusOK : Z := 200.
Definition StatusBadRequest : Z := 400.
Definition StatusUnauthorized : Z := 401.

(** [http.Header] is a [map[string][]string]. *)
Definition Header_Set (h : gmap string (list string)) (key value : string)
  : gmap string (list string) :=
  <[ textproto.CanonicalMIMEHeaderKey key := [value] ]> h.

(** [Header.Get]: the first value under the canonical key, or the empty
    string. *)
Definition Header_Get (h : gmap string (list string)) (key : string) : string :=
  match h !! textproto.CanonicalMIMEHeaderKey key with
  | Some (v :: _) => v
  | _ => ""
  end.

Record Request := {
  Method : string;
  URL : string;
  Header : gmap string (list string);
  Body : option (list ascii)
}.

Record Response := {
  StatusCode : Z;
  RespBody : list ascii
}.

(** [validMethod]: not empty and made of token bytes. *)
Definition validMethod (method : string) : bool :=
  negb (String.eqb method "")
  && forallb textproto.validHeaderFieldByte (bytes_of_string method).

End http.

(** ** client.go *)

(** What the client takes from its platform: the contexts other than
    the nil interface, the errors of the libraries, URL parsing and the
    HTTP client of a given timeout (in nanoseconds), whose [Do] answers
    a request with a response or an error. *)
Class Platform := {
  Context : Type;
  LibError : Type;
  url_Parse : string -> option LibError;
  invalid_method : string -> LibError;
  http_Client : Z -> Context -> http.Request -> http.Response + LibError
}.

(** [json.NewEncoder(buf).Encode(v)] and [json.NewDecoder(r).Decode(&v)]
    for the request and response structs, which are plain data. *)
Class JSONEncode `{Platform} (T : Type) := {
  Encode : T -> list ascii + LibError
}.

Class JSONDecode `{Platform} (V : Type) := {
  zero : V;
  Decode : list ascii -> V -> V * option LibError
}.

(** A nil pointer is encoded as [null]. *)
#[global] Instance pointer_Encode `{Platform} {T} `{!JSONEncode T}
  : JSONEncode (option T) := {
  Encode p :=
    match p with
    | None => inl (bytes_of_string "null" ++ [byte_of_Z 10])
    | Some x => Encode x
    end
}.

Module client.

Definition defaultBaseURLProduction : string := "https://api.reevit.io".
Definition defaultBaseURLSandbox : string := "https://sandbox-api.reevit.io".
Definition userAgent : string := "@reevit/go".

Record APIError := {
  StatusCode : Z;
  Message : string
}.

(** The method [Error] of [APIError]. *)
Definition APIError_Error (e : APIError) : string :=
  "reevit: request failed with status " +:+ fmt.verb_d (StatusCode e)
    +:+ ": " +:+ Message e.

Section WithPlatform.
Context `{Platform}.

(** The values of Go's [error] that the client returns: its own
    [APIError], or an error of a library. *)
Inductive error : Type :=
| ErrAPI (e : APIError)
| ErrLib (e : LibError).

(** A value passed as [interface{}]: nil, or a value with its JSON
    encoding. *)
Inductive iface : Type :=
| Nil
| Value {T : Type} `{!JSONEncode T} (v : T).

(** [httpClient] is a pointer: [None] is the nil pointer. *)
Record Client := {
  baseURL : string;
  apiKey : string;
  orgID : string;
  httpClient : option (Context -> http.Request -> http.Response + LibError)
}.

(** An option updates the client it is given. *)
Definition Option : Type := Client -> Client.

Definition WithBaseURL (url : string) : Option :=
  fun c =>
    {| baseURL := strings.TrimRight url "/";
       apiKey := apiKey c; orgID := orgID c; httpClient := httpClient c |}.

Definition WithHTTPClient
    (httpClient_ : option (Context -> http.Request -> http.Response + LibError))
  : Option :=
  fun c =>
    {| baseURL := baseURL c; apiKey := apiKey c; orgID := orgID c;
       httpClient := httpClient_ |}.

Definition NewClient (apiKey_ orgID_ : string) (opts : list Option) : Client :=
  let c := {| baseURL := ""; apiKey := apiKey_; orgID := orgID_;
              httpClient := Some (http_Client (10 * 1000000000)) |} in
  let c :=
    if strings.HasPrefix (apiKey c) "pk_test_"
       || strings.HasPrefix (apiKey c) "pk_sandbox_"
    then {| baseURL := defaultBaseURLSandbox; apiKey := apiKey c;
            orgID := orgID c; httpClient := httpClient c |}
    else {| baseURL := defaultBaseURLProduction; apiKey := apiKey c;
            orgID := orgID c; httpClient := httpClient c |} in
  fold_left (fun c opt => opt c) opts c.

(** A request option updates the request it is given. *)
Definition RequestOption : Type := http.Request -> http.Request.

(** [req.Header.Set(key, value)]. *)
Definition set_header (req : http.Request) (key value : string) : http.Request :=
  {| http.Method := http.Method req; http.URL := http.URL req;
     http.Header := http.Header_Set (http.Header req) key value;
     http.Body := http.Body req |}.

Definition WithIdempotencyKey (key : string) : RequestOption :=
  fun req => set_header req "Idempotency-Key" key.

(** [http.NewRequest]: an empty method means GET; the method must be
    valid and the URL must parse.  The request keeps the URL as the
    string it was given. *)
Definition http_NewRequest (method url : string) (body : option (list ascii))
  : http.Request + error :=
  let method := if String.eqb method "" then "GET" else method in
  if negb (http.validMethod method) then inr (ErrLib (invalid_method method))
  else
    match url_Parse url with
    | Some err => inr (ErrLib err)
    | None =>
        inl {| http.Method := method; http.URL := url;
               http.Header := ∅; http.Body := body |}
    end.

(** The buffer [newRequest] fills: none for a nil body. *)
Definition encode_body (body : iface) : option (list ascii) + error :=
  match body with
  | Nil => inl None
  | Value v =>
      match Encode v with
      | inl buf => inl (Some buf)
      | inr err => inr (ErrLib err)
      end
  end.

Definition is_nil (body : iface) : bool :=
  match body with
  | Nil => true
  | Value _ => false
  end.

Definition newRequest (c : Client) (method path : string) (body : iface)
  : http.Request + error :=
  let u := baseURL c +:+ "/" +:+ strings.TrimPrefix path "/" in
  match encode_body body with
  | inr err => inr err
  | inl buf =>
      match http_NewRequest method u buf with
      | inr err => inr err
      | inl req =>
          let req :=
            if negb (is_nil body)
            then set_header req "Content-Type" "application/json"
            else req in
          let req := set_header req "User-Agent" userAgent in
          let req := set_header req "Authorization" ("Bearer " +:+ apiKey c) in
          let req := set_header req "X-Reevit-Client" "@reevit/go" in
          inl req
      end
  end.

(** [do]: [ctx] is the context, [None] for the nil interface, and [v]
    the pointer the response is decoded into, if any.  The result is
    [None] when the call panics: [req.WithContext(ctx)] panics on a nil
    context, and [Do] on the nil HTTP client.  Otherwise it is what [v]
    points to afterwards and the error returned. *)
Definition do {V} `{!JSONDecode V} (c : Client) (ctx : option Context)
    (req : http.Request) (v : option V) : option (option V * option error) :=
  match ctx with
  | None => None
  | Some ctx =>
      match httpClient c with
      | None => None
      | Some client =>
          match client ctx req with
          | inr err => Some (v, Some (ErrLib err))
          | inl resp =>
              if 400 <=? http.StatusCode resp then
                let bodyBytes := http.RespBody resp in
                Some (v, Some (ErrAPI {| StatusCode := http.StatusCode resp;
                                         Message := string_of_bytes bodyBytes |}))
              else
                match v with
                | Some x =>
                    let '(x', err) := Decode (http.RespBody resp) x in
                    Some (Some x', option_map ErrLib err)
                | None => Some (None, None)
                end
          end
      end
  end.

End WithPlatform.

End client.

(** ** payments.go *)

Module PaymentsService.

Import client.

Section WithPlatform.
Context `{Platform}.
Context {PaymentIntentRequest Payment PaymentSummary : Type}.
Context `{!JSONEncode PaymentIntentRequest}.
Context `{!JSONDecode Payment} `{!JSONDecode (list PaymentSummary)}.

(** The context is [None] for the nil interface.  The results are
    [None] when the call panics, the value returned when [err] is nil,
    and the error otherwise. *)
Definition CreateIntent (c : Client) (ctx : option Context)
    (req : option PaymentIntentRequest) (opts : list RequestOption)
  : option (Payment + error) :=
  let path := "/v1/payments/intents" in
  match newRequest c http.MethodPost path (Value req) with
  | inr err => Some (inr err)
  | inl httpRequest =>
      let httpRequest := fold_left (fun r opt => opt r) opts httpRequest in
      let payment : Payment := zero in
      match do c ctx httpRequest (Some payment) with
      | None => None
      | Some (_, Some err) => Some (inr err)
      | Some (v, None) => Some (inl (default payment v))
      end
  end.

(** The path: [fmt.Sprintf("/v1/payments?limit=%d&offset=%d", limit, offset)]. *)
Definition List_path (limit offset : Z) : string :=
  "/v1/payments?limit=" +:+ fmt.verb_d limit +:+ "&offset="
    +:+ fmt.verb_d offset.

Definition List (c : Client) (ctx : option Context) (limit offset : Z)
  : option (list PaymentSummary + error) :=
  let path := List_path limit offset in
  match newRequest c http.MethodGet path Nil with
  | inr err => Some (inr err)
  | inl httpRequest =>
      let payments : list PaymentSummary := zero in
      match do c ctx httpRequest (Some payments) with
      | None => None
      | Some (_, Some err) => Some (inr err)
      | Some (v, None) => Some (inl (default payments v))
      end
  end.

(** The path: [fmt.Sprintf("/v1/payments/%s", paymentID)]. *)
Definition Get_path (paymentID : string) : string :=
  "/v1/payments/" +:+ paymentID.

Definition Get (c : Client) (ctx : option Context) (paymentID : string)
  : option (Payment + error) :=
  let path := Get_path paymentID in
  match newRequest c http.MethodGet path Nil with
  | inr err => Some (inr err)
  | inl httpRequest =>
      let payment : Payment := zero in
      match do c ctx httpRequest (Some payment) with
      | None => None
      | Some (_, Some err) => Some (inr err)
      | Some (v, None) => Some (inl (default payment v))
      end
  end.

(** The path: [fmt.Sprintf("/v1/payments/%s/confirm", paymentID)]. *)
Definition Confirm_path (paymentID : string) : string :=
  "/v1/payments/" +:+ paymentID +:+ "/confirm".

Definition Confirm (c : Client) (ctx : option Context) (paymentID : string)
  : option (Payment + error) :=
  let path := Confirm_path paymentID in
  match newRequest c http.MethodPost path Nil with
  | inr err => Some (inr err)
  | inl httpRequest =>
      let payment : Payment := zero in
      match do c ctx httpRequest (Some payment) with
      | None => None
      | Some (_, Some err) => Some (inr err)
      | Some (v, None) => Some (inl (default payment v))
      end
  end.

(** The path: [fmt.Sprintf("/v1/payments/%s/cancel", paymentID)]. *)
Definition Cancel_path (paymentID : string) : string :=
  "/v1/payments/" +:+ paymentID +:+ "/cancel".

Definition Cancel (c : Client) (ctx : option Context) (paymentID : string)
  : option (Payment + error) :=
  let path := Cancel_path paymentID in
  match newRequest c http.MethodPost path Nil with
  | inr err => Some (inr err)
  | inl httpRequest =>
      let payment : Payment := zero in
      match do c ctx httpRequest (Some payment) with
      | None => None
      | Some (_, Some err) => Some (inr err)
      | Some (v, None) => Some (inl (default payment v))
      end
  end.

End WithPlatform.

End PaymentsService.

(** ** subscriptions.go *)

Module SubscriptionsService.

Import client.

Section WithPlatform.
Context `{Platform}.
Context {SubscriptionRequest Subscription : Type}.
Context `{!JSONEncode SubscriptionRequest}.
Context `{!JSONDecode Subscription} `{!JSONDecode (list Subscription)}.

Definition Create (c : Client) (ctx : option Context)
    (req : option SubscriptionRequest) : option (Subscription + error) :=
  let path := "v1/subscriptions" in
  match newRequest c http.MethodPost path (Value req) with
  | inr err => Some (inr err)
  | inl httpRequest =>
      let subscription : Subscription := zero in
      match do c ctx httpRequest (Some subscription) with
      | None => None
      | Some (_, Some err) => Some (inr err)
      | Some (v, None) => Some (inl (default subscription v))
      end
  end.

Definition List (c : Client) (ctx : option Context)
  : option (list Subscription + error) :=
  let path := "v1/subscriptions" in
  match newRequest c http.MethodGet path Nil with
  | inr err => Some (inr err)
  | inl httpRequest =>
      let subscriptions : list Subscription := zero in
      match do c ctx httpRequest (Some subscriptions) with
      | None => None
      | Some (_, Some err) => Some (inr err)
      | Some (v, None) => Some (inl (default subscriptions v))
      end
  end.

End WithPlatform.

End SubscriptionsService.

(** ** The connections service *)

Module ConnectionsService.

Import client.

(** The anonymous struct [Test] decodes into. *)
Record TestResult := {
  Success : bool
}.

Section WithPlatform.
Context `{Platform}.
Context {ConnectionRequest Connection : Type}.
Context `{!JSONEncode ConnectionRequest}.
Context `{!JSONDecode Connection} `{!JSONDecode (list Connection)}.
Context `{!JSONDecode TestResult}.

Definition Create (c : Client) (ctx : option Context)
    (req : option ConnectionRequest) : option (Connection + error) :=
  let path := "v1/connections" in
  match newRequest c http.MethodPost path (Value req) with
  | inr err => Some (inr err)
  | inl httpRequest =>
      let connection : Connection := zero in
      match do c ctx httpRequest (Some connection) with
      | None => None
      | Some (_, Some err) => Some (inr err)
      | Some (v, None) => Some (inl (default connection v))
      end
  end.

Definition List (c : Client) (ctx : option Context)
  : option (list Connection + error) :=
  let path := "v1/connections" in
  match newRequest c http.MethodGet path Nil with
  | inr err => Some (inr err)
  | inl httpRequest =>
      let connections : list Connection := zero in
      match do c ctx httpRequest (Some connections) with
      | None => None
      | Some (_, Some err) => Some (inr err)
      | Some (v, None) => Some (inl (default connections v))
      end
  end.

(** [Test] returns [(false, err)] or [(result.Success, nil)]. *)
Definition Test (c : Client) (ctx : option Context)
    (req : option ConnectionRequest) : option (bool * option error) :=
  let path := "v1/connections/test" in
  match newRequest c http.MethodPost path (Value req) with
  | inr err => Some (false, Some err)
  | inl httpRequest =>
      let result : TestResult := zero in
      match do c ctx httpRequest (Some result) with
      | None => None
      | Some (_, Some err) => Some (false, Some err)
      | Some (v, None) => Some (Success (default result v), None)
      end
  end.

End WithPlatform.

End ConnectionsService.

(** ** The fraud policy service *)

Module FraudService.

Import client.

Section WithPlatform.
Context `{Platform}.
Context {FraudPolicy : Type}.
Context `{!JSONEncode FraudPolicy} `{!JSONDecode FraudPolicy}.

Definition Get (c : Client) (ctx : option Context) : option (FraudPolicy + error) :=
  let path := "v1/policies/fraud" in
  match newRequest c http.MethodGet path Nil with
  | inr err => Some (inr err)
  | inl httpRequest =>
      let policy : FraudPolicy := zero in
      match do c ctx httpRequest (Some policy) with
      | None => None
      | Some (_, Some err) => Some (inr err)
      | Some (v, None) => Some (inl (default policy v))
      end
  end.

Definition Update (c : Client) (ctx : option Context) (policy : option FraudPolicy)
  : option (FraudPolicy + error) :=
  let path := "v1/policies/fraud" in
  match newRequest c http.MethodPost path (Value policy) with
  | inr err => Some (inr err)
  | inl httpRequest =>
      let updatedPolicy : FraudPolicy := zero in
      match do c ctx httpRequest (Some updatedPolicy) with
      | None => None
      | Some (_, Some err) => Some (inr err)
      | Some (v, None) => Some (inl (default updatedPolicy v))
      end
  end.

End WithPlatform.

End FraudService.

(** ** The webhook handler of README.md *)

(** [json.Unmarshal(data, &v)]: the value [v] holds afterwards and the
    error. *)
Class JSONUnmarshal `{Platform} (V : Type) := {
  Unmarshal : list ascii -> V -> V * option LibError
}.

Module handler.

Record PaymentData := {
  pd_ID : string;
  pd_Status : string;
  pd_Amount : Z;
  pd_Currency : string;
  pd_Provider : string;
  pd_CustomerID : string;
  pd_Metadata : gmap string string
}.

Record SubscriptionData := {
  sd_ID : string;
  sd_CustomerID : string;
  sd_PlanID : string;
  sd_Status : string;
  sd_Amount : Z;
  sd_Currency : string;
  sd_Interval : string;
  sd_NextRenewalAt : string
}.

(** [Data] is a [json.RawMessage]. *)
Record WebhookPayload := {
  ID : string;
  Type_ : string;
  OrgID : string;
  CreatedAt : string;
  Data : list ascii;
  Message : string
}.

Definition zero_PaymentData : PaymentData :=
  {| pd_ID := ""; pd_Status := ""; pd_Amount := 0; pd_Currency := "";
     pd_Provider := ""; pd_CustomerID := ""; pd_Metadata := ∅ |}.

Definition zero_SubscriptionData : SubscriptionData :=
  {| sd_ID := ""; sd_CustomerID := ""; sd_PlanID := ""; sd_Status := "";
     sd_Amount := 0; sd_Currency := ""; sd_Interval := "";
     sd_NextRenewalAt := "" |}.

Definition zero_WebhookPayload : WebhookPayload :=
  {| ID := ""; Type_ := ""; OrgID := ""; CreatedAt := ""; Data := [];
     Message := "" |}.

(** What a handler has done to its [http.ResponseWriter], and the lines
    it has logged. *)
Record ResponseWriter := {
  w_Header : gmap string (list string);
  w_status : Z;
  w_body : list ascii;
  w_log : list string
}.

Definition log_Print (w : ResponseWriter) (line : string) : ResponseWriter :=
  {| w_Header := w_Header w; w_status := w_status w; w_body := w_body w;
     w_log := w_log w ++ [line] |}.

(** [http.Error]. *)
Definition http_Error (w : ResponseWriter) (error : string) (code : Z)
  : ResponseWriter :=
  let h := delete (textproto.CanonicalMIMEHeaderKey "Content-Length") (w_Header w) in
  let h := http.Header_Set h "Content-Type" "text/plain; charset=utf-8" in
  let h := http.Header_Set h "X-Content-Type-Options" "nosniff" in
  {| w_Header := h; w_status := code;
     w_body := w_body w ++ bytes_of_string error ++ [byte_of_Z 10];
     w_log := w_log w |}.

(** [data.Metadata[key]]. *)
Definition index (m : gmap string string) (key : string) : string :=
  default "" (m !! key).

Definition handlePaymentSucceeded (w : ResponseWriter) (data : PaymentData)
  : ResponseWriter :=
  let orderID := index (pd_Metadata data) "order_id" in
  log_Print w ("[Webhook] Payment succeeded: " +:+ pd_ID data
                 +:+ " for order " +:+ orderID).

Definition handlePaymentFailed (w : ResponseWriter) (data : PaymentData)
  : ResponseWriter :=
  log_Print w ("[Webhook] Payment failed: " +:+ pd_ID data).

Definition handlePaymentRefunded (w : ResponseWriter) (data : PaymentData)
  : ResponseWriter :=
  let orderID := index (pd_Metadata data) "order_id" in
  log_Print w ("[Webhook] Payment refunded: " +:+ pd_ID data
                 +:+ " for order " +:+ orderID).

Definition handleSubscriptionCreated (w : ResponseWriter)
    (data : SubscriptionData) : ResponseWriter :=
  log_Print w ("[Webhook] Subscription created: " +:+ sd_ID data
                 +:+ " for customer " +:+ sd_CustomerID data).

Definition handleSubscriptionRenewed (w : ResponseWriter)
    (data : SubscriptionData) : ResponseWriter :=
  log_Print w ("[Webhook] Subscription renewed: " +:+ sd_ID data).

Definition handleSubscriptionCanceled (w : ResponseWriter)
    (data : SubscriptionData) : ResponseWriter :=
  log_Print w ("[Webhook] Subscription canceled: " +:+ sd_ID data).

Section WithPlatform.
Context `{Platform}.
Context `{!JSONUnmarshal WebhookPayload} `{!JSONUnmarshal PaymentData}.
Context `{!JSONUnmarshal SubscriptionData}.

(** [if err := json.Unmarshal(event.Data, &data); err == nil { f(data) }]. *)
Definition with_data {D} `{!JSONUnmarshal D} (w : ResponseWriter)
    (event : WebhookPayload) (zero_D : D)
    (f : ResponseWriter -> D -> ResponseWriter) : ResponseWriter :=
  match Unmarshal (Data event) zero_D with
  | (data, None) => f w data
  | (_, Some _) => w
  end.

(** The [switch] on the type of the event. *)
Definition dispatch (w : ResponseWriter) (event : WebhookPayload)
  : ResponseWriter :=
  if String.eqb (Type_ event) "reevit.webhook.test" then
    log_Print w ("[Webhook] Test received: " +:+ Message event)
  else if String.eqb (Type_ event) "payment.succeeded" then
    with_data w event zero_PaymentData handlePaymentSucceeded
  else if String.eqb (Type_ event) "payment.failed" then
    with_data w event zero_PaymentData handlePaymentFailed
  else if String.eqb (Type_ event) "payment.refunded" then
    with_data w event zero_PaymentData handlePaymentRefunded
  else if String.eqb (Type_ event) "payment.pending" then
    with_data w event zero_PaymentData
      (fun w data => log_Print w ("[Webhook] Payment pending: " +:+ pd_ID data))
  else if String.eqb (Type_ event) "subscription.created" then
    with_data w event zero_SubscriptionData handleSubscriptionCreated
  else if String.eqb (Type_ event) "subscription.renewed" then
    with_data w event zero_SubscriptionData handleSubscriptionRenewed
  else if String.eqb (Type_ event) "subscription.canceled" then
    with_data w event zero_SubscriptionData handleSubscriptionCanceled
  else log_Print w ("[Webhook] Unhandled event: " +:+ Type_ event).

(** [webhookHandler(w, r)]: [r_Body] is what [io.ReadAll(r.Body)]
    returns, [r_Header] the header of the request and [secret] the value
    of the environment variable; [w] starts empty.  The result is [None]
    when the handler panics. *)
Definition webhookHandler (secret : string) (r_Body : list ascii + LibError)
    (r_Header : gmap string (list string)) : option ResponseWriter :=
  let w := {| w_Header := ∅; w_status := 0; w_body := []; w_log := [] |} in
  match r_Body with
  | inr _ => Some (http_Error w "Failed to read body" http.StatusBadRequest)
  | inl body =>
      let signature := http.Header_Get r_Header "X-Reevit-Signature" in
      let rejected :=
        if negb (String.eqb secret "")
        then option_map negb (webhooks.VerifySignature body signature secret)
        else Some false in
      match rejected with
      | None => None
      | Some true =>
          let w := log_Print w "[Webhook] Invalid signature" in
          Some (http_Error w "Invalid signature" http.StatusUnauthorized)
      | Some false =>
          match Unmarshal body zero_WebhookPayload with
          | (_, Some _) =>
              Some (http_Error w "Invalid JSON" http.StatusBadRequest)
          | (event, None) =>
              let w := log_Print w ("[Webhook] Received: " +:+ Type_ event
                                      +:+ " (" +:+ ID event +:+ ")") in
              let w := dispatch w event in
              let w :=
                {| w_Header :=
                     http.Header_Set (w_Header w) "Content-Type" "application/json";
                   w_status := w_status w; w_body := w_body w;
                   w_log := w_log w |} in
              let w :=
                {| w_Header := w_Header w; w_status := http.StatusOK;
                   w_body := w_body w; w_log := w_log w |} in
              let w :=
                {| w_Header := w_Header w; w_status := w_status w;
                   w_body :=
                     w_body w
                       ++ json.encode
                            (json.AMap {[ "received" := json.ABool true ]})
                       ++ [byte_of_Z 10];
                   w_log := w_log w |} in
              Some w
          end
      end
  end.

End WithPlatform.

End handler.


(** ** The canonical encoding as the specification words it *)

Module Spec.

(** Strictly ascending byte order. *)
Definition string_lt (a b : string) : Prop := String.ltb a b = true.

(** One entry: the key, a colon, the JSON serialization of the value. *)
Definition entry (kv : string * json.any) : list ascii :=
  bytes_of_string kv.1 ++ bytes_of_string ":" ++ (json.Marshal kv.2).1.

(** [enc] is the canonical encoding of [params]: the entries of the
    parameter set, all of them and nothing else, with their keys in
    ascending order, joined by a vertical bar. *)
Definition is_canonical_encoding (params : gmap string json.any)
    (enc : string) : Prop :=
  exists entries : list (string * json.any),
    (forall k v, (k, v) ∈ entries <-> params !! k = Some v)
    /\ Sorted string_lt entries.*1
    /\ enc = string_of_bytes
               (json.join (bytes_of_string "|") (map entry entries)).

(** A value all of whose strings, the keys of nested objects included,
    are valid UTF-8. *)
Fixpoint well_formed (v : json.any) : bool :=
  match v with
  | json.AString s => utf8.ValidString s
  | json.ASlice l => forallb well_formed l
  | json.AMap m =>
      forallb (fun kv : string * bool => utf8.ValidString kv.1 && kv.2)
        (map_to_list (well_formed <$> m))
  | _ => true
  end.

Definition no_colon (k : string) : bool :=
  forallb (fun c => negb (Ascii.eqb c ":")) (bytes_of_string k).

(** The parameter sets on which the encoding can be read back: no key
    holds a colon and every value is well formed. *)
Definition readable (params : gmap string json.any) : bool :=
  forallb (fun kv : string * bool => no_colon kv.1 && kv.2)
    (map_to_list (well_formed <$> params)).

End Spec.

(** * Auxiliary definitions

    Instances, examples and the notions used in the proofs. *)

Import json.

(** The signature [VerifySignature] expects after the prefix. *)
Definition expected_signature (payload : list ascii) (secret : string) : string :=
  hex.EncodeToString (hmac.MAC sha256.New (bytes_of_string secret) payload).

(** [s] between two quotation marks. *)
Definition quoted (s : string) : string :=
  String "034" "" +:+ s +:+ String "034" "".

(** The body of the known vectors: an object with the one member
    [foo] set to [bar], as written on the wire. *)
Definition body_foo_bar : list ascii :=
  bytes_of_string ("{" +:+ quoted "foo" +:+ ":" +:+ quoted "bar" +:+ "}").

(** The entry written for [key] by the loop of [GenerateIdempotencyKey]. *)
Definition entry_of (params : gmap string json.any) (key : string) : list ascii :=
  Spec.entry (key, reevit.index params key).

(** A parameter set with nested values, and an iteration order of it. *)
Definition params_payment : gmap string json.any :=
  {[ "amount" := json.AInt 5000;
     "currency" := json.AString "GHS";
     "meta" := json.AMap {[ "retry" := json.ABool false;
                            "tags" := json.ASlice [json.ANil; json.AInt (-3)] ]} ]}.

Definition order_payment : list string :=
  Eval vm_compute in (map_to_list params_payment).*1.

(** Two parameter sets that differ and are written alike: the key of the
    second holds the separators of the first. *)
Definition params_ab : gmap string json.any :=
  {[ "a" := json.AInt 1; "b" := json.AInt 2 ]}.

Definition order_ab : list string :=
  Eval vm_compute in (map_to_list params_ab).*1.

Definition params_colon : gmap string json.any :=
  {[ "a:1|b" := json.AInt 2 ]}.

Definition order_colon : list string :=
  Eval vm_compute in (map_to_list params_colon).*1.

(** The payment of [params_payment] with another amount. *)
Definition params_other : gmap string json.any :=
  <[ "amount" := json.AInt 5001 ]> params_payment.

Definition order_other : list string :=
  Eval vm_compute in (map_to_list params_other).*1.

(** The digits [0-9a-f]. *)
Definition is_lower_hex (c : ascii) : bool :=
  existsb (Ascii.eqb c) (bytes_of_string hex.hextable).

(** The digest part of the key. *)
Definition key_digest (order : list string) (params : gmap string json.any)
  : string :=
  hex.EncodeToString
    (sha256.Sum256 (bytes_of_string (reevit.canonical_encoding order params))).

(** The code points of two, three and four byte sequences, as sums. *)
Definition rune2 (s0 s1 : Z) : Z := (s0 mod 32) * 64 + s1 mod 64.
Definition rune3 (s0 s1 s2 : Z) : Z :=
  (s0 mod 16) * 4096 + (s1 mod 64) * 64 + s2 mod 64.
Definition rune4 (s0 s1 s2 s3 : Z) : Z :=
  (s0 mod 8) * 262144 + (s1 mod 64) * 4096 + (s2 mod 64) * 64 + s3 mod 64.

(** The outcomes of [DecodeRuneInString] on a string that begins outside
    ASCII: an error, or a sequence of two to four bytes in range. *)
Inductive decoded (s : list ascii) : Z -> nat -> Prop :=
| dec_err : decoded s utf8.RuneError 1
| dec_2 b0 b1 r :
    s = b0 :: b1 :: r ->
    0xC2 <= Z_of_byte b0 < 0xE0 -> 0x80 <= Z_of_byte b1 <= 0xBF ->
    decoded s (rune2 (Z_of_byte b0) (Z_of_byte b1)) 2
| dec_3 b0 b1 b2 r :
    s = b0 :: b1 :: b2 :: r ->
    0xE0 <= Z_of_byte b0 < 0xF0 -> 0x80 <= Z_of_byte b1 <= 0xBF ->
    0x80 <= Z_of_byte b2 <= 0xBF ->
    decoded s (rune3 (Z_of_byte b0) (Z_of_byte b1) (Z_of_byte b2)) 3
| dec_4 b0 b1 b2 b3 r :
    s = b0 :: b1 :: b2 :: b3 :: r ->
    0xF0 <= Z_of_byte b0 <= 0xF4 -> 0x80 <= Z_of_byte b1 <= 0xBF ->
    (Z_of_byte b0 = 0xF0 -> 0x90 <= Z_of_byte b1) ->
    0x80 <= Z_of_byte b2 <= 0xBF -> 0x80 <= Z_of_byte b3 <= 0xBF ->
    decoded s (rune4 (Z_of_byte b0) (Z_of_byte b1) (Z_of_byte b2) (Z_of_byte b3)) 4.

(** The 256 bytes, for checks by enumeration. *)
Definition all_bytes : list ascii := map ascii_of_nat (seq 0 256).

(** One of the two lists is a prefix of the other. *)
Fixpoint comparable (l l' : list ascii) : bool :=
  match l, l' with
  | a :: l, b :: l' => Ascii.eqb a b && comparable l l'
  | _, _ => true
  end.

(** A byte below [utf8.RuneSelf]. *)
Definition is_ascii (b : ascii) : bool := Z_of_byte b <? utf8.RuneSelf.

(** What [escape] writes for an ASCII byte. *)
Definition code (b : ascii) : list ascii :=
  if json.htmlSafe (Z_of_byte b) then [b] else json.escape_byte b.

(** What [escape] writes for U+2028 and U+2029, and their encodings. *)
Definition sep_code (c : Z) : list ascii :=
  bytes_of_string "\u202" ++ [hex.digit (Z.land c 15)].

(** The list begins with an ASCII byte other than the quotation mark. *)
Definition head_ok (l : list ascii) : bool :=
  match l with
  | c :: _ => is_ascii c && negb (Ascii.eqb c json.quote)
  | [] => false
  end.

(** The length of a valid sequence, read off its first byte. *)
Definition lead_size (z : Z) : nat :=
  if z <? 0xE0 then 2 else if z <? 0xF0 then 3 else 4.

Definition sep_bytes (c : Z) : list ascii :=
  ["226"%char; "128"%char; if c =? 0x2028 then "168"%char else "169"%char].

(** One step of the loop of [escape] on valid input: the bytes consumed
    and the bytes written. *)
Inductive step : list ascii -> list ascii -> Prop :=
| step_ascii b : is_ascii b = true -> step [b] (code b)
| step_raw b0 pre :
    is_ascii b0 = false -> length (b0 :: pre) = lead_size (Z_of_byte b0) ->
    step (b0 :: pre) (b0 :: pre)
| step_sep c : c = 0x2028 \/ c = 0x2029 -> step (sep_bytes c) (sep_code c).

(** The digits [0-9]. *)
Definition is_digit (c : ascii) : bool :=
  (Z_of_byte "0" <=? Z_of_byte c) && (Z_of_byte c <=? Z_of_byte "9").

(** What may follow an encoded value: nothing, or a byte that is not a
    digit. *)
Definition tail_ok (r : list ascii) : Prop :=
  match r with
  | [] => True
  | c :: _ => is_digit c = false
  end.

(** The bytes an encoded value can begin with. *)
Definition is_open (c : ascii) : bool :=
  is_digit c
  || existsb (Ascii.eqb c) (bytes_of_string "ntf-[{")
  || Ascii.eqb c json.quote.

(** A measure for induction on nested values. *)
Fixpoint any_size (v : any) : nat :=
  match v with
  | ASlice l => S (list_sum (map any_size l))
  | AMap m => S (list_sum (map snd (map_to_list (any_size <$> m))))
  | _ => 1
  end.

(** The entries of a map in the order of their keys. *)
Definition sorted_entries {A} (m : gmap string A) : list (string * A) :=
  merge_sort key_le (map_to_list m).

(** The first byte of an encoded value tells its kind. *)
Definition kind_head (v : any) (h : ascii) : Prop :=
  match v with
  | ANil => h = "n"%char
  | ABool b => h = if b then "t"%char else "f"%char
  | AInt _ => is_digit h = true \/ h = "-"%char
  | AString _ => h = quote
  | ASlice _ => h = "["%char
  | AMap _ => h = "{"%char
  end.

(** [v] is self-delimiting: its encoding, followed by [T], cannot be
    read as another value followed by [T']. *)
Definition value_sd (v : any) : Prop :=
  forall v' T T', Spec.well_formed v' = true -> tail_ok T -> tail_ok T' ->
    encode v ++ T = encode v' ++ T' -> v = v' /\ T = T'.

(** A member of an encoded object, and the members that are well formed. *)
Definition member_of (kv : string * any) : list ascii :=
  appendString kv.1 ++ bytes_of_string ":" ++ encode kv.2.

Definition member_wf (kv : string * any) : Prop :=
  utf8.ValidString kv.1 = true /\ Spec.well_formed kv.2 = true.

(** The entries of a readable parameter set. *)
Definition entry_wf (kv : string * any) : Prop :=
  Spec.no_colon kv.1 = true /\ Spec.well_formed kv.2 = true.

(** The entries of [params] under the keys [keys]. *)
Definition entries_of (params : gmap string any) (keys : list string)
  : list (string * any) :=
  map (fun k => (k, reevit.index params k)) keys.

(** ** The client, the services and the handler *)

(** A run of [n] slashes. *)
Definition slashes (n : nat) : string := string_of_bytes (repeat "/"%char n).

(** The options a caller can build, as data. *)
Inductive option_spec `{Platform} : Type :=
| SetBaseURL (url : string)
| SetHTTPClient
    (httpClient : option (Context -> http.Request -> http.Response + LibError)).

Definition option_of `{Platform} (o : option_spec) : client.Option :=
  match o with
  | SetBaseURL url => client.WithBaseURL url
  | SetHTTPClient h => client.WithHTTPClient h
  end.

(** The last base URL and the last HTTP client among the options. *)
Definition last_base `{Platform} (specs : list option_spec) : option string :=
  last (omap (fun o => match o with SetBaseURL u => Some u | _ => None end) specs).

Definition last_client `{Platform} (specs : list option_spec)
  : option (option (Context -> http.Request -> http.Response + LibError)) :=
  last (omap (fun o => match o with SetHTTPClient h => Some h | _ => None end) specs).

(** A platform for the examples: every URL parses and the server
    answers every request with status 500 and the body [oops]. *)
Definition example_platform : Platform := {|
  Context := unit;
  LibError := string;
  url_Parse := fun _ => None;
  invalid_method := fun m => "net/http: invalid method " +:+ m;
  http_Client := fun _ _ _ =>
    inl {| http.StatusCode := 500; http.RespBody := bytes_of_string "oops" |}
|}.

(** A client and a request for the examples. *)
Definition example_client : @client.Client example_platform :=
  client.NewClient "pk_test_1" "org_1" [].

Definition example_request : http.Request :=
  {| http.Method := "GET";
     http.URL := "https://sandbox-api.reevit.io/v1/payments/pay_1";
     http.Header :=
       {[ "Authorization" := ["Bearer pk_test_1"];
          "User-Agent" := ["@reevit/go"];
          "X-Reevit-Client" := ["@reevit/go"] ]};
     http.Body := None |}.

(** ASCII white space, and the bytes at which [TrimSpace] stops without
    decoding: ASCII and not white space. *)
Definition is_space (c : ascii) : bool := strings.asciiSpace (Z_of_byte c).

Definition solid (c : ascii) : bool :=
  (Z_of_byte c <? utf8.RuneSelf) && negb (strings.asciiSpace (Z_of_byte c)).

(** A string of ASCII white space only. *)
Definition blank (ws : string) : bool := forallb is_space (bytes_of_string ws).

(** A string that is not empty and begins and ends with a solid byte. *)
Definition solid_ends (s : string) : bool :=
  match bytes_of_string s, last (bytes_of_string s) with
  | b :: _, Some e => solid b && solid e
  | _, _ => false
  end.

(** JSON parsing for the examples: every input is taken and leaves the
    target as it was. *)
Definition example_unmarshal {V : Type} : @JSONUnmarshal example_platform V :=
  {| Unmarshal := fun _ v => (v, None) |}.

(** A platform whose parser refuses every URL. *)
Definition strict_platform : Platform := {|
  Context := unit;
  LibError := string;
  url_Parse := fun _ => Some "parse error";
  invalid_method := fun m => "net/http: invalid method " +:+ m;
  http_Client := fun _ _ _ =>
    inl {| http.StatusCode := 200; http.RespBody := [] |}
|}.

Definition strict_client : @client.Client strict_platform :=
  client.NewClient "pk_test_1" "org_1" [].

Definition parse_error : @client.error strict_platform :=
  @client.ErrLib strict_platform "parse error".

(** The request [CreateIntent] sends for the body [buf] under the
    idempotency key [key]. *)
Definition intent_request `{Platform} (c : client.Client) (buf : list ascii)
    (key : string) : http.Request :=
  {| http.Method := "POST";
     http.URL := client.baseURL c +:+ "/v1/payments/intents";
     http.Header :=
       {[ "Authorization" := ["Bearer " +:+ client.apiKey c];
          "Content-Type" := ["application/json"];
          "Idempotency-Key" := [key];
          "User-Agent" := ["@reevit/go"];
          "X-Reevit-Client" := ["@reevit/go"] ]};
     http.Body := Some buf |}.

(** Codecs for the examples: a string is sent as a JSON string, and
    decoding leaves the target as it was. *)
Definition example_encode : @JSONEncode example_platform string :=
  {| Encode := fun s => inl (json.appendString s ++ [byte_of_Z 10]) |}.

Definition example_decode {V : Type} (z : V) : @JSONDecode example_platform V :=
  {| zero := z; Decode := fun _ v => (v, None) |}.

(** The bytes of an idempotency key: lower-case letters, digits, the
    underscore and the minus sign. *)
Definition key_byte (c : ascii) : bool :=
  textproto.is_lower c || is_digit c || Ascii.eqb c "_" || Ascii.eqb c "-".

(** Header names up to the case of their ASCII letters. *)
Definition fold_case (c : ascii) : ascii :=
  if textproto.is_upper c then byte_of_Z (Z_of_byte c + 32) else c.

Definition to_lower (s : string) : string :=
  string_of_bytes (map fold_case (bytes_of_string s)).

Definition same_name (a b : string) : bool :=
  String.eqb (to_lower a) (to_lower b).

(** The byte the second loop of [canonicalMIMEHeaderKey] writes for [c]. *)
Definition canonical_byte (upper : bool) (c : ascii) : ascii :=
  if upper && textproto.is_lower c then byte_of_Z (Z_of_byte c - 32)
  else if negb upper && textproto.is_upper c then byte_of_Z (Z_of_byte c + 32)
  else c.

(** Two parameter sets that differ in a key of a nested object that is
    not valid UTF-8. *)
Definition params_nested_ff : gmap string json.any :=
  {[ "m" := json.AMap {[ String "255" "" := json.AInt 1 ]} ]}.

Definition params_nested_fe : gmap string json.any :=
  {[ "m" := json.AMap {[ String "254" "" := json.AInt 1 ]} ]}.

(** * Properties *)

#[global] Arguments sha2.Sum : simpl never.
#[global] Arguments hmac.MAC : simpl never.
#[global] Arguments hex.EncodeToString : simpl never.
#[global] Arguments strings.TrimSpace : simpl never.

(** ** The library models agree with the published test vectors *)

Example sha2_constants :
  nth 0 (sha2.K sha2.sha256_params) 0 = 0x428a2f98
  /\ nth 63 (sha2.K sha2.sha256_params) 0 = 0xc67178f2
  /\ nth 79 (sha2.K sha2.sha512_params) 0 = 0x6c44198c4a475817
  /\ fst (sha2.H0 sha2.sha256_params)
     = (0x6a09e667, 0xbb67ae85, 0x3c6ef372, 0xa54ff53a,
        0x510e527f, 0x9b05688c, 0x1f83d9ab).
Proof. vm_compute. repeat split. Qed.

Example sha256_abc :
  hex.EncodeToString (sha256.Sum256 (bytes_of_string "abc"))
  = "ba7816bf8f01cfea414140de5dae2223b00361a396177a9cb410ff61f20015ad".
Proof. vm_compute. reflexivity. Qed.

Example sha256_empty :
  hex.EncodeToString (sha256.Sum256 [])
  = "e3b0c44298fc1c149afbf4c8996fb92427ae41e4649b934ca495991b7852b855".
Proof. vm_compute. reflexivity. Qed.

Example sha512_abc :
  hex.EncodeToString (sha512.Sum512 (bytes_of_string "abc"))
  = "ddaf35a193617abacc417349ae20413112e6fa4e89a97ea20a9eeee64b55d39a2192992a274fc1a836ba3c23a3feebbd454d4423643ce80e2a9ac94fa54ca49f".
Proof. vm_compute. reflexivity. Qed.

(** RFC 4231, test case 6: a key longer than the block is hashed first. *)
Example hmac_sha256_long_key :
  hex.EncodeToString
    (hmac.MAC sha256.New (repeat (byte_of_Z 0xaa) 131)
       (bytes_of_string "Test Using Larger Than Block-Size Key - Hash Key First"))
  = "60e431591ee0b67f0d8a26aacbf5b77f8e0bc6213728c5140546040f0ee37f54".
Proof. vm_compute. reflexivity. Qed.

Example TrimSpace_examples :
  strings.TrimSpace " secret-hash " = "secret-hash"
  /\ strings.TrimSpace "" = ""
  /\ strings.TrimSpace (String "009" (String "010" " a b  ")) = "a b"
  /\ strings.TrimSpace (String "194" (String "160" "x")) = "x"
  /\ strings.TrimSpace (String "x" (String "226" (String "128" (String "168" "")))) = "x"
  /\ strings.TrimSpace (String "x" (String "194" " ")) = String "x" (String "194" "").
Proof. vm_compute. repeat split. Qed.

(** ** Bytes and strings *)

Lemma Z_of_byte_inj (a b : ascii) : Z_of_byte a = Z_of_byte b -> a = b.
Proof.
  unfold Z_of_byte. intros H. apply N2Z.inj in H.
  rewrite <- (ascii_N_embedding a), <- (ascii_N_embedding b). by rewrite H.
Qed.

Lemma bytes_of_string_inj (s t : string) :
  bytes_of_string s = bytes_of_string t -> s = t.
Proof.
  unfold bytes_of_string. intros H.
  rewrite <- (string_of_list_ascii_of_string s),
          <- (string_of_list_ascii_of_string t). by rewrite H.
Qed.

Lemma bytes_of_string_of_bytes (b : list ascii) :
  bytes_of_string (string_of_bytes b) = b.
Proof. apply list_ascii_of_string_of_list_ascii. Qed.

Lemma string_of_bytes_of_string (s : string) :
  string_of_bytes (bytes_of_string s) = s.
Proof. apply string_of_list_ascii_of_string. Qed.

Lemma string_app_cons (c : ascii) (s t : string) :
  String c s +:+ t = String c (s +:+ t).
Proof. reflexivity. Qed.

Lemma bytes_of_string_app (s t : string) :
  bytes_of_string (s +:+ t) = bytes_of_string s ++ bytes_of_string t.
Proof. induction s as [|c s IH]; simpl; [done | by rewrite IH]. Qed.

Lemma string_app_length (s t : string) :
  String.length (s +:+ t) = (String.length s + String.length t)%nat.
Proof. induction s as [|c s IH]; simpl; [done | by rewrite IH]. Qed.

Lemma string_app_inv_head (p s t : string) : p +:+ s = p +:+ t -> s = t.
Proof. induction p as [|c p IH]; simpl; [done |]. intros [=]. auto. Qed.

Lemma string_app_inv_tail (s t u : string) : s +:+ u = t +:+ u -> s = t.
Proof.
  intros H. apply bytes_of_string_inj.
  apply (f_equal bytes_of_string) in H. rewrite !bytes_of_string_app in H.
  by apply app_inv_tail in H.
Qed.

Lemma substring_all (s : string) : substring 0 (String.length s) s = s.
Proof. induction s as [|c s IH]; simpl; [done | by rewrite IH]. Qed.

Lemma substring_prefix (p r : string) :
  substring 0 (String.length p) (p +:+ r) = p.
Proof.
  induction p as [|c p IH]; simpl; [by destruct r | by rewrite IH].
Qed.

Lemma substring_suffix (p r : string) :
  substring (String.length p) (String.length (p +:+ r) - String.length p)
    (p +:+ r) = r.
Proof.
  induction p as [|c p IH]; simpl.
  - rewrite Nat.sub_0_r. apply substring_all.
  - apply IH.
Qed.

Lemma substring_split (n : nat) (s : string) :
  (n <= String.length s)%nat ->
  s = substring 0 n s +:+ substring n (String.length s - n) s.
Proof.
  revert s. induction n as [|n IH]; intros s Hn.
  - simpl. rewrite Nat.sub_0_r, substring_all. by destruct s.
  - destruct s as [|c s]; simpl in Hn; [lia |].
    simpl. rewrite string_app_cons. f_equal. apply IH. lia.
Qed.

(** [HasPrefix] holds exactly of the strings that begin with the prefix. *)
Lemma HasPrefix_iff (s p : string) :
  strings.HasPrefix s p = true <-> exists r, s = p +:+ r.
Proof.
  unfold strings.HasPrefix. rewrite andb_true_iff, Nat.leb_le, String.eqb_eq.
  split.
  - intros [Hlen Hsub]. eexists.
    rewrite <- Hsub at 1. by apply substring_split.
  - intros [r ->]. split.
    + rewrite string_app_length. lia.
    + apply substring_prefix.
Qed.

Lemma slice_from_app (p r : string) :
  webhooks.slice_from (p +:+ r) (String.length p) = Some r.
Proof.
  unfold webhooks.slice_from.
  rewrite (proj2 (Nat.leb_le _ _)) by (rewrite string_app_length; lia).
  by rewrite substring_suffix.
Qed.

(** ** Constant-time comparison decides equality *)

Lemma xor_fold_zero (x y : list ascii) (v : Z) :
  length x = length y ->
  subtle.xor_fold x y v = 0 <-> v = 0 /\ x = y.
Proof.
  revert y v. induction x as [|a x IH]; intros [|b y] v Hlen;
    simpl in *; try discriminate.
  - intuition.
  - rewrite IH by lia. rewrite Z.lor_eq_0_iff, Z.lxor_eq_0_iff. split.
    + intros [[-> Hab] ->]. by rewrite (Z_of_byte_inj _ _ Hab).
    + intros [-> [= -> ->]]. auto.
Qed.

Lemma hmac_Equal_iff (x y : list ascii) : hmac.Equal x y = true <-> x = y.
Proof.
  unfold hmac.Equal, subtle.ConstantTimeCompare.
  destruct (Nat.eqb_spec (length x) (length y)) as [Hlen|Hlen]; simpl.
  - destruct (Z.eqb_spec (subtle.xor_fold x y 0) 0) as [H0|H0]; simpl.
    + apply xor_fold_zero in H0 as [_ ->]; done.
    + split; [done |]. intros ->. destruct H0. by apply xor_fold_zero.
  - split; [done |]. intros ->. done.
Qed.

(** ** Lengths of digests and signatures *)

Lemma hex_EncodeToString_length (b : list ascii) :
  String.length (hex.EncodeToString b) = (2 * length b)%nat.
Proof. induction b as [|a b IH]; simpl; [done | rewrite IH; lia]. Qed.

Lemma be_bytes_length (n : nat) (x : Z) : length (sha2.be_bytes n x) = n.
Proof. induction n as [|n IH]; simpl; [done | by rewrite IH]. Qed.

Lemma sha2_Sum_length (p : sha2.params) (msg : list ascii) :
  length (sha2.Sum p msg) = (8 * sha2.wbytes p)%nat.
Proof.
  unfold sha2.Sum, sha2.state_bytes.
  destruct (sha2.digest_words p msg) as [[[[[[[a b] c] d] e] f] g] h].
  rewrite !length_app, !be_bytes_length. lia.
Qed.

Lemma hmac_sha256_length (key msg : list ascii) :
  length (hmac.MAC sha256.New key msg) = 32%nat.
Proof. unfold hmac.MAC. simpl. unfold sha256.Sum256. by rewrite sha2_Sum_length. Qed.

Lemma hmac_sha512_length (key msg : list ascii) :
  length (hmac.MAC sha512.New key msg) = 64%nat.
Proof. unfold hmac.MAC. simpl. unfold sha512.Sum512. by rewrite sha2_Sum_length. Qed.

(** ** Verification of the platform's own signature *)

Lemma VerifySignature_prefixed (payload : list ascii) (received secret : string) :
  webhooks.VerifySignature payload ("sha256=" +:+ received) secret
  = Some (bool_decide (received = expected_signature payload secret)).
Proof.
  unfold webhooks.VerifySignature.
  rewrite (proj2 (HasPrefix_iff _ _)) by eauto. simpl negb. cbv iota.
  change 7%nat with (String.length "sha256=").
  rewrite slice_from_app. f_equal.
  fold (expected_signature payload secret).
  apply eq_true_iff_eq. rewrite hmac_Equal_iff, bool_decide_eq_true.
  split; [apply bytes_of_string_inj | by intros ->].
Qed.

Lemma VerifySignature_unprefixed (payload : list ascii) (signature secret : string) :
  strings.HasPrefix signature "sha256=" = false ->
  webhooks.VerifySignature payload signature secret = Some false.
Proof. unfold webhooks.VerifySignature. by intros ->. Qed.

(** C1.  [VerifySignature] answers true exactly on the header made of the
    literal prefix [sha256=] followed by the lowercase hexadecimal
    HMAC-SHA256 of the body under the secret.  A header without the
    prefix, and a prefixed header whose remainder differs from the
    expected digest in any way (its length included), give [false]; the
    function never panics. *)
Theorem VerifySignature_iff (body : list ascii) (header secret : string) :
  (webhooks.VerifySignature body header secret = Some true
     <-> header = "sha256=" +:+ expected_signature body secret)
  /\ (strings.HasPrefix header "sha256=" = false ->
      webhooks.VerifySignature body header secret = Some false)
  /\ (forall received : string,
        header = "sha256=" +:+ received ->
        received <> expected_signature body secret ->
        webhooks.VerifySignature body header secret = Some false)
  /\ webhooks.VerifySignature body header secret <> None.
Proof.
  split; [| split; [| split]].
  - destruct (strings.HasPrefix header "sha256=") eqn:Hp.
    + apply HasPrefix_iff in Hp as [r ->].
      rewrite VerifySignature_prefixed. split.
      * intros [= H%bool_decide_eq_true]. by rewrite H.
      * intros H%string_app_inv_head. by rewrite bool_decide_eq_true_2.
    + rewrite VerifySignature_unprefixed by done. split; [done |].
      intros ->. rewrite (proj2 (HasPrefix_iff _ _)) in Hp by eauto. done.
  - apply VerifySignature_unprefixed.
  - intros received -> Hne. rewrite VerifySignature_prefixed.
    by rewrite bool_decide_eq_false_2.
  - destruct (strings.HasPrefix header "sha256=") eqn:Hp.
    + apply HasPrefix_iff in Hp as [r ->]. by rewrite VerifySignature_prefixed.
    + by rewrite VerifySignature_unprefixed.
Qed.

(** C5, as stated, fails: signing trims the secret and verification does
    not, so a secret with surrounding white space signs a body with one
    key and verifies it with another. *)
Lemma sign_verify_untrimmed_secret_fails :
  body_foo_bar <> []
  /\ strings.TrimSpace " secret " <> ""
  /\ webhooks.VerifySignature body_foo_bar
       ("sha256=" +:+ webhooks.SignPolar body_foo_bar " secret ") " secret "
     = Some false
  /\ webhooks.VerifySignature body_foo_bar
       ("sha256=" +:+ webhooks.SignHubtel body_foo_bar " secret ") " secret "
     = Some false.
Proof. vm_compute. repeat split; discriminate. Qed.

(** C5, amended.  For a non-empty body and a secret that is not blank,
    the header [sha256=] followed by the SHA-256 signature of the engine
    ([SignPolar], [SignHubtel]) verifies against the same body and the
    trimmed secret; against the secret as given it does when the secret
    has no surrounding white space. *)
Theorem sign_verify_trimmed_secret (body : list ascii) (secret : string) :
  body <> [] ->
  strings.TrimSpace secret <> "" ->
  webhooks.VerifySignature body
    ("sha256=" +:+ webhooks.SignPolar body secret) (strings.TrimSpace secret)
  = Some true
  /\ webhooks.VerifySignature body
       ("sha256=" +:+ webhooks.SignHubtel body secret) (strings.TrimSpace secret)
     = Some true
  /\ (strings.TrimSpace secret = secret ->
      webhooks.VerifySignature body
        ("sha256=" +:+ webhooks.SignPolar body secret) secret = Some true
      /\ webhooks.VerifySignature body
           ("sha256=" +:+ webhooks.SignHubtel body secret) secret = Some true).
Proof.
  intros Hb Hs.
  assert (webhooks.signHex body secret sha256.New
          = expected_signature body (strings.TrimSpace secret)) as Hsig.
  { unfold webhooks.signHex. destruct body; [done |]. simpl orb.
    destruct (String.eqb_spec (strings.TrimSpace secret) ""); done. }
  unfold webhooks.SignPolar, webhooks.SignHubtel. rewrite Hsig.
  assert (webhooks.VerifySignature body
            ("sha256=" +:+ expected_signature body (strings.TrimSpace secret))
            (strings.TrimSpace secret) = Some true) as Hv.
  { rewrite VerifySignature_prefixed. by rewrite bool_decide_eq_true_2. }
  split; [exact Hv | split; [exact Hv |]].
  intros Heq. rewrite Heq in Hv. rewrite Heq. by split.
Qed.

Lemma sign_verify_trimmed_secret_witness :
  body_foo_bar <> []
  /\ strings.TrimSpace " secret " <> ""
  /\ webhooks.VerifySignature body_foo_bar
       ("sha256=" +:+ webhooks.SignPolar body_foo_bar " secret ")
       (strings.TrimSpace " secret ") = Some true
  /\ webhooks.VerifySignature body_foo_bar
       ("sha256=" +:+ webhooks.SignHubtel body_foo_bar " secret ")
       (strings.TrimSpace " secret ") = Some true.
Proof.
  assert (body_foo_bar <> []) as Hb by (vm_compute; discriminate).
  assert (strings.TrimSpace " secret " <> "") as Hs by (vm_compute; discriminate).
  split; [exact Hb | split; [exact Hs |]].
  pose proof (sign_verify_trimmed_secret body_foo_bar " secret " Hb Hs) as (H1 & H2 & _).
  exact (conj H1 H2).
Defined.

(** C6.  Signing an empty body, or signing with a secret that is blank
    after trimming, returns the empty string, for each of the three
    signing functions. *)
Theorem sign_empty_sentinel (body : list ascii) (secret : string) :
  body = [] \/ strings.TrimSpace secret = "" ->
  webhooks.SignPaystack body secret = ""
  /\ webhooks.SignHubtel body secret = ""
  /\ webhooks.SignPolar body secret = "".
Proof.
  intros H.
  assert (forall h, webhooks.signHex body secret h = "") as Hsig.
  { intros h. unfold webhooks.signHex. destruct H as [-> | ->]; [done |].
    by rewrite orb_true_r. }
  unfold webhooks.SignPaystack, webhooks.SignHubtel, webhooks.SignPolar.
  by rewrite !Hsig.
Qed.

Lemma sign_empty_sentinel_witness :
  (body_foo_bar = [] \/ strings.TrimSpace (String "009" "  ") = "")
  /\ webhooks.SignPaystack body_foo_bar (String "009" "  ") = ""
  /\ webhooks.SignHubtel body_foo_bar (String "009" "  ") = ""
  /\ webhooks.SignPolar body_foo_bar (String "009" "  ") = "".
Proof.
  split; [right; vm_compute; reflexivity |].
  apply (sign_empty_sentinel body_foo_bar (String "009" "  ")).
  right. vm_compute. reflexivity.
Defined.

(** C7, as stated, fails: the SHA-512 scheme returns 128 characters. *)
Lemma paystack_signature_not_64 :
  webhooks.SignPaystack body_foo_bar "secret" <> ""
  /\ String.length (webhooks.SignPaystack body_foo_bar "secret") = 128%nat
  /\ String.length (webhooks.SignPaystack body_foo_bar "secret") <> 64%nat.
Proof. vm_compute. repeat split; try discriminate. Qed.

Lemma signHex_length (body : list ascii) (secret : string) (h : Hash) (n : nat) :
  (forall key msg, length (hmac.MAC h key msg) = n) ->
  webhooks.signHex body secret h = ""
  \/ String.length (webhooks.signHex body secret h) = (2 * n)%nat.
Proof.
  intros Hn. unfold webhooks.signHex.
  destruct ((length body =? 0)%nat || String.eqb (strings.TrimSpace secret) "");
    [by left | right].
  by rewrite hex_EncodeToString_length, Hn.
Qed.

(** C7, amended.  A signature is either the empty sentinel or has the
    full length of its scheme: 64 characters for the SHA-256 schemes
    [SignHubtel] and [SignPolar], 128 characters for the SHA-512 scheme
    [SignPaystack].  The sentinel is told from a signature by its
    length in every scheme. *)
Theorem signature_length (body : list ascii) (secret : string) :
  (webhooks.SignHubtel body secret = ""
   \/ String.length (webhooks.SignHubtel body secret) = 64%nat)
  /\ (webhooks.SignPolar body secret = ""
      \/ String.length (webhooks.SignPolar body secret) = 64%nat)
  /\ (webhooks.SignPaystack body secret = ""
      \/ String.length (webhooks.SignPaystack body secret) = 128%nat).
Proof.
  repeat split.
  - apply (signHex_length body secret sha256.New 32), hmac_sha256_length.
  - apply (signHex_length body secret sha256.New 32), hmac_sha256_length.
  - apply (signHex_length body secret sha512.New 64), hmac_sha512_length.
Qed.

(** C8.  The known vectors of the test suite. *)
Theorem known_vectors :
  webhooks.SignPaystack body_foo_bar "secret"
  = "f519630fca75a1fc5d62fd2547858feccd17a564fcc45c8e209b66cf1d7711b7ceec3e299961e6ae4b5c5f130dcacbe0fdb552bd2f9e9d9ecc06cc783681faa0"
  /\ webhooks.SignHubtel body_foo_bar "secret"
     = "3f3ab3986b656abb17af3eb1443ed6c08ef8fff9fea83915909d1b421aec89be"
  /\ webhooks.SignPolar body_foo_bar "secret"
     = "3f3ab3986b656abb17af3eb1443ed6c08ef8fff9fea83915909d1b421aec89be"
  /\ webhooks.FlutterwaveHash " secret-hash " = "secret-hash".
Proof. vm_compute. repeat split. Qed.

(** C10.  Verification neither checks for emptiness nor trims: whatever
    the body and the secret, the header [sha256=] followed by the
    hexadecimal HMAC-SHA256 of that body under that secret verifies.
    This includes the empty body and the empty or blank secret, for which
    signing returns the empty sentinel. *)
Theorem VerifySignature_no_trim (body : list ascii) (secret : string) :
  webhooks.VerifySignature body
    ("sha256=" +:+ hex.EncodeToString
                     (hmac.MAC sha256.New (bytes_of_string secret) body))
    secret = Some true
  /\ (webhooks.SignPolar [] secret = ""
      /\ webhooks.VerifySignature []
           ("sha256=" +:+ hex.EncodeToString
                            (hmac.MAC sha256.New (bytes_of_string secret) []))
           secret = Some true)
  /\ (webhooks.SignPolar body "" = ""
      /\ webhooks.VerifySignature body
           ("sha256=" +:+ hex.EncodeToString
                            (hmac.MAC sha256.New (bytes_of_string "") body))
           "" = Some true)
  /\ (webhooks.SignPolar body "  " = ""
      /\ webhooks.VerifySignature body
           ("sha256=" +:+ hex.EncodeToString
                            (hmac.MAC sha256.New (bytes_of_string "  ") body))
           "  " = Some true).
Proof.
  assert (forall b s, webhooks.VerifySignature b
            ("sha256=" +:+ expected_signature b s) s = Some true) as Hv.
  { intros b s. rewrite VerifySignature_prefixed. by rewrite bool_decide_eq_true_2. }
  assert (forall b s, strings.TrimSpace s = "" -> webhooks.SignPolar b s = "") as Hs.
  { intros b s Ht. unfold webhooks.SignPolar, webhooks.signHex. rewrite Ht.
    by rewrite orb_true_r. }
  split; [exact (Hv body secret) |].
  split; [split; [reflexivity | exact (Hv [] secret)] |].
  split; (split; [apply Hs; vm_compute; reflexivity |]).
  - exact (Hv body "").
  - exact (Hv body "  ").
Qed.

(** ** The metadata map *)

(** C9.  The map built by [BuildMetadata] holds the key of an identifier
    exactly when that identifier is not blank after trimming, and then
    with the trimmed value; it holds no other key.  With the three
    identifiers [org_1], [conn_1], [pay_1] all three keys are populated,
    and with three empty strings the map has no entry. *)
Theorem BuildMetadata_keys (orgID connectionID paymentID : string) :
  let meta := webhooks.BuildMetadata orgID connectionID paymentID in
  (is_Some (meta !! "org_id") <-> strings.TrimSpace orgID <> "")
  /\ (is_Some (meta !! "connection_id") <-> strings.TrimSpace connectionID <> "")
  /\ (is_Some (meta !! "payment_id") <-> strings.TrimSpace paymentID <> "")
  /\ (forall k v, meta !! k = Some v ->
        (k = "org_id" /\ v = strings.TrimSpace orgID)
        \/ (k = "connection_id" /\ v = strings.TrimSpace connectionID)
        \/ (k = "payment_id" /\ v = strings.TrimSpace paymentID))
  /\ webhooks.BuildMetadata "org_1" "conn_1" "pay_1"
     = {[ "org_id" := "org_1"; "connection_id" := "conn_1";
          "payment_id" := "pay_1" ]}
  /\ webhooks.BuildMetadata "" "" "" = ∅
  /\ size (webhooks.BuildMetadata "" "" "") = 0%nat.
Proof.
  cbv zeta. unfold webhooks.BuildMetadata, webhooks.MetadataOrgID,
    webhooks.MetadataConnectionID, webhooks.MetadataPaymentID.
  split; [| split; [| split; [| split; [| split]]]].
  1-4: destruct (String.eqb_spec (strings.TrimSpace orgID) "") as [-> | Ho];
       destruct (String.eqb_spec (strings.TrimSpace connectionID) "") as [-> | Hc];
       destruct (String.eqb_spec (strings.TrimSpace paymentID) "") as [-> | Hp];
       simpl.
  1-24: try (split; [intros [v Hv]; by simplify_map_eq | intros H; by simplify_map_eq]).
  1-8: intros k v Hv;
       repeat match type of Hv with
              | <[ ?i := _ ]> _ !! ?k = Some _ =>
                  destruct (decide (i = k)) as [<- | ?];
                  [ rewrite lookup_insert_eq in Hv | rewrite lookup_insert_ne in Hv by done ]
              end; simplify_eq; try (rewrite lookup_empty in Hv; done); auto.
  - vm_compute. reflexivity.
  - vm_compute. split; reflexivity.
Qed.

(** ** The byte order on strings *)

Lemma compare_as_OT (a b : string) :
  String.compare a b = OrdersEx.String_as_OT.compare a b.
Proof.
  revert b. induction a as [|c a IH]; intros [|d b]; simpl; rewrite ?IH; done.
Qed.

Lemma string_lt_compare (a b : string) :
  Spec.string_lt a b <-> String.compare a b = Lt.
Proof.
  unfold Spec.string_lt, String.ltb. destruct (String.compare a b); intuition congruence.
Qed.

Lemma string_le_compare (a b : string) :
  string_le a b <-> String.compare a b <> Gt.
Proof.
  unfold string_le, String.leb. destruct (String.compare a b); intuition congruence.
Qed.

#[global] Instance string_lt_strict : StrictOrder Spec.string_lt.
Proof.
  destruct OrdersEx.String_as_OT.lt_strorder as [Hirr Htr]. split.
  - intros a Ha%string_lt_compare. rewrite compare_as_OT in Ha. by apply (Hirr a).
  - intros a b c Hab%string_lt_compare Hbc%string_lt_compare.
    apply string_lt_compare. rewrite compare_as_OT in *. by apply (Htr a b c).
Qed.

Lemma string_le_lt_eq (a b : string) :
  string_le a b <-> Spec.string_lt a b \/ a = b.
Proof.
  rewrite string_le_compare, string_lt_compare.
  destruct (String.compare a b) eqn:Hc.
  - apply String.compare_eq_iff in Hc. intuition congruence.
  - intuition congruence.
  - split; [done |]. intros [? | ->]; [done |].
    pose proof (String.compare_antisym b b) as Ha. rewrite Hc in Ha. done.
Qed.

#[global] Instance string_le_total : Total string_le.
Proof. intros a b. apply String.leb_total. Qed.

#[global] Instance string_le_trans : Transitive string_le.
Proof.
  intros a b c [Hab | ->]%string_le_lt_eq [Hbc | ->]%string_le_lt_eq;
    apply string_le_lt_eq; auto.
  left. by transitivity b.
Qed.

#[global] Instance string_lt_antisym : AntiSymm (=) Spec.string_lt.
Proof.
  intros a b Hab Hba. destruct (irreflexivity Spec.string_lt a). by transitivity b.
Qed.

Lemma Sorted_lt_NoDup (l : list string) : Sorted Spec.string_lt l -> NoDup l.
Proof.
  intros Hs%(Sorted_StronglySorted _). induction Hs as [|x l Hs IH Hall].
  - constructor.
  - constructor; [| done]. intros Hin.
    rewrite Forall_forall in Hall. by destruct (irreflexivity Spec.string_lt x); auto.
Qed.

Lemma StronglySorted_le_lt (l : list string) :
  NoDup l -> StronglySorted string_le l -> Sorted Spec.string_lt l.
Proof.
  intros Hnd Hs. apply StronglySorted_Sorted.
  induction Hs as [|x l Hs IH Hall].
  - constructor.
  - apply NoDup_cons in Hnd as [Hx Hnd]. constructor; [auto |].
    rewrite Forall_forall in *. intros y Hy.
    destruct (proj1 (string_le_lt_eq x y) (Hall y Hy)) as [? | ->]; done.
Qed.

(** The sorted keys are determined by the set of keys. *)
Lemma sorted_keys_unique (l1 l2 : list string) :
  Sorted Spec.string_lt l1 -> Sorted Spec.string_lt l2 ->
  (forall k, k ∈ l1 <-> k ∈ l2) -> l1 = l2.
Proof.
  intros H1 H2 Hiff. apply (Sorted_unique Spec.string_lt); [done | done |].
  apply NoDup_Permutation; auto using Sorted_lt_NoDup.
Qed.

Lemma sort_Strings_sorted (keys : list string) :
  NoDup keys -> Sorted Spec.string_lt (sort.Strings keys).
Proof.
  intros Hnd. apply StronglySorted_le_lt.
  - unfold sort.Strings. by rewrite merge_sort_Permutation.
  - apply (StronglySorted_merge_sort string_le).
Qed.

Lemma sort_Strings_elem (keys : list string) (k : string) :
  k ∈ sort.Strings keys <-> k ∈ keys.
Proof. unfold sort.Strings. by rewrite merge_sort_Permutation. Qed.

(** ** The canonical encoding *)

Lemma collect_keys_id (order : list string) : reevit.collect_keys order = order.
Proof.
  unfold reevit.collect_keys.
  assert (forall init, fold_left (fun keys key => keys ++ [key]) order init
                       = init ++ order) as H.
  { induction order as [|k order IH]; intros init; simpl.
    - by rewrite app_nil_r.
    - rewrite IH, <- app_assoc. done. }
  apply H.
Qed.

Lemma join_cons (sep x : list ascii) (rest : list (list ascii)) :
  json.join sep (x :: rest) = x ++ concat (map (app sep) rest).
Proof.
  revert x. induction rest as [|y rest IH]; intros x.
  - simpl. by rewrite app_nil_r.
  - change (json.join sep (x :: y :: rest)) with (x ++ sep ++ json.join sep (y :: rest)).
    rewrite IH. simpl. by rewrite <- app_assoc.
Qed.

Lemma write_entries_later (params : gmap string json.any) (i : nat)
    (keys : list string) (builder : list ascii) :
  reevit.write_entries params (S i) keys builder
  = builder ++ concat (map (fun k => bytes_of_string "|" ++ entry_of params k) keys).
Proof.
  revert i builder. induction keys as [|k keys IH]; intros i builder; simpl.
  - by rewrite app_nil_r.
  - rewrite IH. unfold entry_of, Spec.entry. simpl. by rewrite <- !app_assoc.
Qed.

Lemma write_entries_join (params : gmap string json.any) (keys : list string) :
  reevit.write_entries params 0 keys []
  = json.join (bytes_of_string "|") (map (entry_of params) keys).
Proof.
  destruct keys as [|k keys]; [done |].
  rewrite map_cons, join_cons. simpl. rewrite write_entries_later.
  rewrite map_map. unfold entry_of, Spec.entry. simpl. by rewrite <- !app_assoc.
Qed.

Lemma range_order_elem (params : gmap string json.any) (order : list string) (k : string) :
  reevit.range_order params order -> k ∈ order <-> is_Some (params !! k).
Proof.
  unfold reevit.range_order. intros ->. rewrite list_elem_of_fmap. split.
  - intros [[k' v] [-> Hin%elem_of_map_to_list]]. eauto.
  - intros [v Hv]. exists (k, v). split; [done |]. by apply elem_of_map_to_list.
Qed.

Lemma range_order_NoDup (params : gmap string json.any) (order : list string) :
  reevit.range_order params order -> NoDup order.
Proof. unfold reevit.range_order. intros ->. apply NoDup_fst_map_to_list. Qed.

(** The entries of a parameter set are determined by their keys. *)
Lemma entries_of_keys (params : gmap string json.any)
    (entries : list (string * json.any)) :
  (forall k v, (k, v) ∈ entries -> params !! k = Some v) ->
  map Spec.entry entries = map (entry_of params) entries.*1.
Proof.
  induction entries as [|[k v] entries IH]; intros H; [done |].
  simpl. rewrite IH.
  - f_equal. unfold entry_of, reevit.index.
    by rewrite (H k v) by (by left).
  - intros k' v' Hin. apply H. by right.
Qed.

Lemma canonical_encoding_keys (params : gmap string json.any) (order : list string) :
  reevit.canonical_encoding order params
  = string_of_bytes
      (json.join (bytes_of_string "|")
         (map (entry_of params) (sort.Strings order))).
Proof.
  unfold reevit.canonical_encoding. by rewrite collect_keys_id, write_entries_join.
Qed.

Lemma is_canonical_encoding_keys (params : gmap string json.any) (enc : string) :
  Spec.is_canonical_encoding params enc <->
  exists keys : list string,
    (forall k, k ∈ keys <-> is_Some (params !! k))
    /\ Sorted Spec.string_lt keys
    /\ enc = string_of_bytes
               (json.join (bytes_of_string "|") (map (entry_of params) keys)).
Proof.
  split.
  - intros (entries & Hall & Hsorted & ->). exists entries.*1. split; [| split].
    + intros k. rewrite list_elem_of_fmap. split.
      * intros [[k' v] [-> Hin]]. exists v. by apply Hall.
      * intros [v Hv]. exists (k, v). split; [done |]. by apply Hall.
    + done.
    + rewrite (entries_of_keys params); [done |]. intros k v. apply Hall.
  - intros (keys & Hall & Hsorted & ->).
    exists (map (fun k => (k, reevit.index params k)) keys).
    assert ((map (fun k => (k, reevit.index params k)) keys).*1 = keys) as Hfst.
    { clear. induction keys as [|k keys IH]; [done | simpl; by f_equal]. }
    split; [| split].
    + intros k v. rewrite list_elem_of_fmap. split.
      * intros [k' [[= -> ->] Hin]]. apply Hall in Hin as [v Hv].
        unfold reevit.index. by rewrite Hv.
      * intros Hv. exists k. unfold reevit.index. rewrite Hv. split; [done |].
        apply Hall. eauto.
    + by rewrite Hfst.
    + by rewrite map_map.
Qed.

Lemma sort_Strings_range_order (params : gmap string json.any)
    (order order' : list string) :
  reevit.range_order params order -> reevit.range_order params order' ->
  sort.Strings order' = sort.Strings order.
Proof.
  intros Hord Hord'. apply sorted_keys_unique.
  - by apply sort_Strings_sorted, (range_order_NoDup params).
  - by apply sort_Strings_sorted, (range_order_NoDup params).
  - intros k. rewrite !sort_Strings_elem.
    by rewrite (range_order_elem params order k Hord),
               (range_order_elem params order' k Hord').
Qed.

(** The iteration order does not show in the encoding. *)
Lemma canonical_encoding_order (params : gmap string json.any)
    (order order' : list string) :
  reevit.range_order params order -> reevit.range_order params order' ->
  reevit.canonical_encoding order' params = reevit.canonical_encoding order params.
Proof.
  intros Hord Hord'. rewrite !canonical_encoding_keys.
  by rewrite (sort_Strings_range_order params order order').
Qed.

Lemma canonical_encoding_canonical (params : gmap string json.any)
    (order : list string) :
  reevit.range_order params order ->
  Spec.is_canonical_encoding params (reevit.canonical_encoding order params).
Proof.
  intros Hord. apply is_canonical_encoding_keys. exists (sort.Strings order).
  split; [| split].
  - intros k. by rewrite sort_Strings_elem, (range_order_elem params order k Hord).
  - by apply sort_Strings_sorted, (range_order_NoDup params).
  - apply canonical_encoding_keys.
Qed.

Lemma canonical_encoding_unique (params : gmap string json.any)
    (order : list string) (enc : string) :
  reevit.range_order params order ->
  Spec.is_canonical_encoding params enc ->
  enc = reevit.canonical_encoding order params.
Proof.
  intros Hord (keys & Hall & Hsorted & ->)%is_canonical_encoding_keys.
  rewrite canonical_encoding_keys. do 3 f_equal.
  apply sorted_keys_unique; [done | |].
  - by apply sort_Strings_sorted, (range_order_NoDup params).
  - intros k. by rewrite sort_Strings_elem, (range_order_elem params order k Hord), Hall.
Qed.

(** C2.  Whatever order the run time iterates the map in, the encoding
    built by [GenerateIdempotencyKey] is the canonical encoding of the
    specification, and no other string is.  The encoding is therefore the
    same for every iteration order and for every order in which the
    caller inserted the entries. *)
Theorem canonical_encoding_refines (params : gmap string json.any)
    (order : list string) :
  reevit.range_order params order ->
  Spec.is_canonical_encoding params (reevit.canonical_encoding order params)
  /\ (forall enc, Spec.is_canonical_encoding params enc ->
        enc = reevit.canonical_encoding order params)
  /\ (forall order', reevit.range_order params order' ->
        reevit.canonical_encoding order' params
        = reevit.canonical_encoding order params)
  /\ (forall (inserted inserted' : list (string * json.any)) order',
        NoDup inserted.*1 -> inserted ≡ₚ inserted' ->
        params = list_to_map inserted ->
        reevit.range_order (list_to_map inserted') order' ->
        reevit.canonical_encoding order' (list_to_map inserted')
        = reevit.canonical_encoding order params).
Proof.
  intros Hord. split; [| split; [| split]].
  - by apply canonical_encoding_canonical.
  - intros enc. by apply canonical_encoding_unique.
  - intros order'. by apply canonical_encoding_order.
  - intros inserted inserted' order' Hnd Hperm -> Hord'.
    rewrite <- (list_to_map_proper inserted inserted') in * by done.
    by apply canonical_encoding_order.
Qed.

Lemma canonical_encoding_refines_witness :
  reevit.range_order params_payment order_payment
  /\ Spec.is_canonical_encoding params_payment
       (reevit.canonical_encoding order_payment params_payment)
  /\ (forall enc, Spec.is_canonical_encoding params_payment enc ->
        enc = reevit.canonical_encoding order_payment params_payment)
  /\ (forall order', reevit.range_order params_payment order' ->
        reevit.canonical_encoding order' params_payment
        = reevit.canonical_encoding order_payment params_payment)
  /\ (forall (inserted inserted' : list (string * json.any)) order',
        NoDup inserted.*1 -> inserted ≡ₚ inserted' ->
        params_payment = list_to_map inserted ->
        reevit.range_order (list_to_map inserted') order' ->
        reevit.canonical_encoding order' (list_to_map inserted')
        = reevit.canonical_encoding order_payment params_payment).
Proof.
  assert (reevit.range_order params_payment order_payment) as H
    by (vm_compute; reflexivity).
  split; [exact H |].
  exact (canonical_encoding_refines params_payment order_payment H).
Defined.

Example canonical_encoding_payment :
  reevit.canonical_encoding order_payment params_payment
  = "amount:5000|currency:" +:+ quoted "GHS" +:+ "|meta:{"
      +:+ quoted "retry" +:+ ":false," +:+ quoted "tags" +:+ ":[null,-3]}"
  /\ reevit.canonical_encoding (rev order_payment) params_payment
     = reevit.canonical_encoding order_payment params_payment.
Proof. vm_compute. split; reflexivity. Qed.

(** ** The idempotency key *)

Lemma FormatInt_inj (a b : Z) :
  strconv.FormatInt a = strconv.FormatInt b -> a = b.
Proof.
  unfold strconv.FormatInt. intros H.
  assert (forall z, NilZero.int_of_string (NilZero.string_of_int (Z.to_int z))
                    = Some (Z.to_int z)) as Hr.
  { intros z. apply NilZero.isi.
    - destruct z as [|p|p]; simpl; try discriminate.
      intros [= Hp]. by apply (DecimalPos.Unsigned.to_uint_nonnil p).
    - destruct z as [|p|p]; simpl; try discriminate.
      intros [= Hp]. by apply (DecimalPos.Unsigned.to_uint_nonnil p). }
  apply DecimalZ.to_int_inj.
  apply (f_equal NilZero.int_of_string) in H. rewrite !Hr in H. congruence.
Qed.

Lemma hex_digit_lower (n : Z) : is_lower_hex (hex.digit n) = true.
Proof.
  unfold hex.digit. generalize (Z.to_nat n). intros k.
  do 16 (destruct k as [|k]; [reflexivity |]).
  reflexivity.
Qed.

Lemma hex_EncodeToString_lower (b : list ascii) :
  forallb is_lower_hex (bytes_of_string (hex.EncodeToString b)) = true.
Proof.
  induction b as [|a b IH]; [done |].
  change (hex.EncodeToString (a :: b))
    with (String (hex.digit (Z.shiftr (Z_of_byte a) 4))
            (String (hex.digit (Z.land (Z_of_byte a) 15)) (hex.EncodeToString b))).
  cbn [bytes_of_string list_ascii_of_string forallb].
  fold (bytes_of_string (hex.EncodeToString b)).
  by rewrite !hex_digit_lower, IH.
Qed.

Lemma sha256_Sum256_length (data : list ascii) :
  length (sha256.Sum256 data) = 32%nat.
Proof. unfold sha256.Sum256. by rewrite sha2_Sum_length. Qed.

Lemma GenerateIdempotencyKey_eq (t : Z) (order : list string)
    (params : gmap string json.any) :
  0 <= t ->
  reevit.GenerateIdempotencyKey t order params
  = "reevit_" +:+ strconv.FormatInt (t / 300) +:+ "_" +:+ key_digest order params.
Proof.
  intros Ht. unfold reevit.GenerateIdempotencyKey, fmt.verb_d, fmt.verb_x.
  change (5 * 60) with 300. by rewrite Z.quot_div_nonneg by lia.
Qed.

(** C3.  At a call time [t >= 0] the key is [reevit_], the decimal time
    bucket [t / 300], an underscore, and the 64 lowercase hexadecimal
    digits of the SHA-256 digest of the canonical encoding.  Two calls on
    the same parameter set return the same key when their times fall in
    the same bucket and different keys otherwise. *)
Theorem GenerateIdempotencyKey_format (params : gmap string json.any)
    (order : list string) (t : Z) :
  0 <= t ->
  reevit.range_order params order ->
  (forall enc, Spec.is_canonical_encoding params enc ->
     reevit.GenerateIdempotencyKey t order params
     = "reevit_" +:+ strconv.FormatInt (t / 300) +:+ "_"
         +:+ hex.EncodeToString (sha256.Sum256 (bytes_of_string enc)))
  /\ String.length (key_digest order params) = 64%nat
  /\ forallb is_lower_hex (bytes_of_string (key_digest order params)) = true
  /\ (forall t' order', 0 <= t' -> reevit.range_order params order' ->
        (t' / 300 = t / 300 ->
         reevit.GenerateIdempotencyKey t' order' params
         = reevit.GenerateIdempotencyKey t order params)
        /\ (t' / 300 <> t / 300 ->
            reevit.GenerateIdempotencyKey t' order' params
            <> reevit.GenerateIdempotencyKey t order params)).
Proof.
  intros Ht Hord. split; [| split; [| split]].
  - intros enc Henc. rewrite GenerateIdempotencyKey_eq by done.
    unfold key_digest. by rewrite (canonical_encoding_unique params order enc).
  - unfold key_digest. by rewrite hex_EncodeToString_length, sha256_Sum256_length.
  - apply hex_EncodeToString_lower.
  - intros t' order' Ht' Hord'. rewrite !GenerateIdempotencyKey_eq by done.
    assert (key_digest order' params = key_digest order params) as ->.
    { unfold key_digest. by rewrite (canonical_encoding_order params order order'). }
    split.
    + by intros ->.
    + intros Hne Heq. apply Hne.
      apply string_app_inv_head in Heq.
      apply string_app_inv_tail in Heq.
      by apply FormatInt_inj.
Qed.

Lemma GenerateIdempotencyKey_format_witness :
  0 <= 1700000000
  /\ reevit.range_order params_payment order_payment
  /\ (forall enc, Spec.is_canonical_encoding params_payment enc ->
        reevit.GenerateIdempotencyKey 1700000000 order_payment params_payment
        = "reevit_" +:+ strconv.FormatInt (1700000000 / 300) +:+ "_"
            +:+ hex.EncodeToString (sha256.Sum256 (bytes_of_string enc)))
  /\ String.length (key_digest order_payment params_payment) = 64%nat
  /\ forallb is_lower_hex
       (bytes_of_string (key_digest order_payment params_payment)) = true
  /\ (forall t' order', 0 <= t' -> reevit.range_order params_payment order' ->
        (t' / 300 = 1700000000 / 300 ->
         reevit.GenerateIdempotencyKey t' order' params_payment
         = reevit.GenerateIdempotencyKey 1700000000 order_payment params_payment)
        /\ (t' / 300 <> 1700000000 / 300 ->
            reevit.GenerateIdempotencyKey t' order' params_payment
            <> reevit.GenerateIdempotencyKey 1700000000 order_payment
                 params_payment)).
Proof.
  assert (reevit.range_order params_payment order_payment) as H
    by (vm_compute; reflexivity).
  split; [lia | split; [exact H |]].
  exact (GenerateIdempotencyKey_format params_payment order_payment
           1700000000 ltac:(lia) H).
Defined.

Example GenerateIdempotencyKey_payment :
  reevit.GenerateIdempotencyKey 1700000000 order_payment params_payment
  = "reevit_5666666_" +:+ key_digest order_payment params_payment
  /\ reevit.GenerateIdempotencyKey 1700000099 (rev order_payment) params_payment
     = reevit.GenerateIdempotencyKey 1700000000 order_payment params_payment
  /\ reevit.GenerateIdempotencyKey 1700000100 order_payment params_payment
     = "reevit_5666667_" +:+ key_digest order_payment params_payment.
Proof. vm_compute. repeat split. Qed.

(** ** Reading the canonical encoding back *)

(* arithmetic of disjoint or *)
Lemma land_shiftl_low (a b k : Z) :
  0 <= k -> 0 <= b < 2 ^ k -> Z.land (Z.shiftl a k) b = 0.
Proof.
  intros Hk Hb. apply Z.bits_inj'. intros n Hn.
  rewrite Z.land_spec, Z.bits_0.
  destruct (Z.lt_ge_cases n k) as [Hlt | Hge].
  - by rewrite Z.shiftl_spec_low.
  - destruct (Z.eq_dec b 0) as [-> | Hb0].
    + by rewrite Z.bits_0, andb_false_r.
    + rewrite (Z.bits_above_log2 b n), andb_false_r; [done | lia |].
      apply Z.log2_lt_pow2; [lia |].
      apply Z.lt_le_trans with (2 ^ k); [lia |]. by apply Z.pow_le_mono_r.
Qed.

Lemma lor_shiftl_add (a b k : Z) :
  0 <= k -> 0 <= b < 2 ^ k -> Z.lor (Z.shiftl a k) b = a * 2 ^ k + b.
Proof.
  intros Hk Hb. rewrite <- Z.lxor_lor by (by apply land_shiftl_low).
  rewrite <- Z.add_nocarry_lxor by (by apply land_shiftl_low).
  by rewrite Z.shiftl_mul_pow2.
Qed.

Lemma Z_of_byte_range (b : ascii) : 0 <= Z_of_byte b < 256.
Proof. unfold Z_of_byte. pose proof (N_ascii_bounded b). lia. Qed.

Lemma land_mask (a : Z) (k : Z) : 0 <= k -> Z.land a (2 ^ k - 1) = a mod 2 ^ k.
Proof.
  intros. replace (2 ^ k - 1) with (Z.ones k) by (rewrite Z.ones_equiv; lia).
  by apply Z.land_ones.
Qed.

Lemma lor_shiftl_6 (a b : Z) : 0 <= b < 64 -> Z.lor (Z.shiftl a 6) b = a * 64 + b.
Proof. intros. by rewrite lor_shiftl_add. Qed.

Lemma rune2_eq s0 s1 :
  Z.lor (Z.shiftl (Z.land s0 0x1F) 6) (Z.land s1 0x3F) = rune2 s0 s1.
Proof.
  change 0x1F with (2 ^ 5 - 1). change 0x3F with (2 ^ 6 - 1).
  rewrite (land_mask s0 5), (land_mask s1 6) by lia. change (2 ^ 5) with 32. change (2 ^ 6) with 64.
  rewrite lor_shiftl_6; [done |]. by apply Z.mod_pos_bound.
Qed.

Lemma rune3_eq s0 s1 s2 :
  Z.lor (Z.lor (Z.shiftl (Z.land s0 0x0F) 12) (Z.shiftl (Z.land s1 0x3F) 6))
        (Z.land s2 0x3F) = rune3 s0 s1 s2.
Proof.
  change 0x0F with (2 ^ 4 - 1). change 0x3F with (2 ^ 6 - 1).
  rewrite (land_mask s0 4), (land_mask s1 6), (land_mask s2 6) by lia.
  unfold rune3. change (2 ^ 4) with 16. change (2 ^ 6) with 64.
  assert (0 <= s1 mod 64 < 64) by (by apply Z.mod_pos_bound).
  assert (0 <= s2 mod 64 < 64) by (by apply Z.mod_pos_bound).
  generalize dependent (s0 mod 16). generalize dependent (s1 mod 64).
  generalize dependent (s2 mod 64). intros c Hc b Hb a.
  replace (Z.shiftl a 12) with (Z.shiftl (Z.shiftl a 6) 6)
    by (by rewrite Z.shiftl_shiftl by lia).
  rewrite <- Z.shiftl_lor, !lor_shiftl_6 by lia. lia.
Qed.

Lemma rune4_eq s0 s1 s2 s3 :
  Z.lor (Z.lor (Z.lor (Z.shiftl (Z.land s0 0x07) 18) (Z.shiftl (Z.land s1 0x3F) 12))
               (Z.shiftl (Z.land s2 0x3F) 6))
        (Z.land s3 0x3F) = rune4 s0 s1 s2 s3.
Proof.
  change 0x07 with (2 ^ 3 - 1). change 0x3F with (2 ^ 6 - 1).
  rewrite (land_mask s0 3), (land_mask s1 6), (land_mask s2 6), (land_mask s3 6) by lia.
  unfold rune4. change (2 ^ 3) with 8. change (2 ^ 6) with 64.
  assert (0 <= s1 mod 64 < 64) by (by apply Z.mod_pos_bound).
  assert (0 <= s2 mod 64 < 64) by (by apply Z.mod_pos_bound).
  assert (0 <= s3 mod 64 < 64) by (by apply Z.mod_pos_bound).
  generalize dependent (s0 mod 8). generalize dependent (s1 mod 64).
  generalize dependent (s2 mod 64). generalize dependent (s3 mod 64).
  intros d Hd c Hc b Hb a.
  replace (Z.shiftl a 18) with (Z.shiftl (Z.shiftl (Z.shiftl a 6) 6) 6)
    by (by rewrite !Z.shiftl_shiftl by lia).
  replace (Z.shiftl b 12) with (Z.shiftl (Z.shiftl b 6) 6)
    by (by rewrite Z.shiftl_shiftl by lia).
  rewrite <- !Z.shiftl_lor, !lor_shiftl_6 by lia. lia.
Qed.

Ltac zcase :=
  repeat match goal with
    | |- context [Z.ltb ?a ?b] => destruct (Z.ltb_spec a b)
    | |- context [Z.eqb ?a ?b] => destruct (Z.eqb_spec a b)
    end.

Lemma decode_multibyte (b0 : ascii) (rest : list ascii) :
  0x80 <= Z_of_byte b0 ->
  decoded (b0 :: rest) (utf8.DecodeRuneInString (firstn 4 (b0 :: rest))).1
          (utf8.DecodeRuneInString (firstn 4 (b0 :: rest))).2.
Proof.
  intros H0.
  destruct rest as [|b1 [|b2 [|b3 r]]];
    unfold utf8.DecodeRuneInString, utf8.at_; cbn [firstn nth length];
    unfold utf8.first; zcase; try lia;
    cbn [Nat.ltb Nat.leb orb fst snd]; try apply dec_err;
    zcase; cbn [Nat.ltb Nat.leb orb fst snd negb]; try apply dec_err.
  all: try (rewrite rune2_eq; eapply dec_2; [reflexivity | lia..]).
  all: try (rewrite rune3_eq; eapply dec_3; [reflexivity | lia..]).
  all: try (rewrite rune4_eq; eapply dec_4; [reflexivity | lia..]).
Qed.

Lemma forall_byte (P : ascii -> bool) :
  forallb P all_bytes = true -> forall b, P b = true.
Proof.
  intros H b. rewrite forallb_forall in H. apply H.
  rewrite <- (ascii_nat_embedding b). apply in_map, in_seq.
  pose proof (nat_ascii_bounded b). lia.
Qed.

Lemma app_eq_comparable (l l' T T' : list ascii) :
  l ++ T = l' ++ T' -> comparable l l' = true.
Proof.
  revert l'. induction l as [|a l IH]; intros [|b l'] H; try done.
  simpl in *. injection H as -> H. rewrite Ascii.eqb_refl. eauto.
Qed.

Lemma code_prefix_free_check :
  forallb (fun b => forallb (fun b' =>
      implb (is_ascii b && is_ascii b' && comparable (code b) (code b'))
            (Ascii.eqb b b')) all_bytes) all_bytes = true.
Proof. vm_compute. reflexivity. Qed.

Lemma code_prefix_free (b b' : ascii) :
  is_ascii b = true -> is_ascii b' = true ->
  comparable (code b) (code b') = true -> b = b'.
Proof.
  intros Hb Hb' Hc.
  pose proof (forall_byte _ (forall_byte _ code_prefix_free_check b) b') as H.
  simpl in H. rewrite Hb, Hb', Hc in H. by apply Ascii.eqb_eq.
Qed.

Lemma code_head_check :
  forallb (fun b => implb (is_ascii b)
     (head_ok (code b)
      && negb (comparable (code b) (sep_code 0x2028))
      && negb (comparable (code b) (sep_code 0x2029)))) all_bytes = true.
Proof. vm_compute. reflexivity. Qed.

Lemma code_head (b : ascii) :
  is_ascii b = true ->
  head_ok (code b) = true
  /\ comparable (code b) (sep_code 0x2028) = false
  /\ comparable (code b) (sep_code 0x2029) = false.
Proof.
  intros Hb. pose proof (forall_byte _ code_head_check b) as H.
  simpl in H. rewrite Hb in H. simpl in H.
  apply andb_true_iff in H as [[H1 H2]%andb_true_iff H3].
  by rewrite negb_true_iff in H2, H3.
Qed.

Lemma decode_ascii (b : ascii) (rest : list ascii) :
  is_ascii b = true ->
  utf8.DecodeRuneInString (firstn 4 (b :: rest)) = (Z_of_byte b, 1%nat).
Proof.
  unfold is_ascii, utf8.RuneSelf. intros H%Z.ltb_lt.
  unfold utf8.DecodeRuneInString, utf8.at_. cbn [firstn nth].
  unfold utf8.first. by rewrite (proj2 (Z.ltb_lt _ _) H).
Qed.

Lemma byte_of_value (b : ascii) (n : Z) :
  Z_of_byte b = n -> b = byte_of_Z n.
Proof.
  intros <-. unfold byte_of_Z, Z_of_byte.
  pose proof (N_ascii_bounded b).
  rewrite Z.mod_small by lia. by rewrite N2Z.id, ascii_N_embedding.
Qed.

Lemma decoded_sep (s : list ascii) (c : Z) (size : nat) :
  decoded s c size -> c = 0x2028 \/ c = 0x2029 ->
  exists r, s = sep_bytes c ++ r /\ size = 3%nat.
Proof.
  intros Hd Hc.
  inversion Hd as [E|b0 b1 r -> H0 H1 E|b0 b1 b2 r -> H0 H1 H2 E
                  |b0 b1 b2 b3 r -> H0 H1 H10 H2 H3 E].
  - unfold utf8.RuneError in E. lia.
  - exfalso. clear Hd. unfold rune2 in *. Z.div_mod_to_equations. lia.
  - exists r. split; [| done]. clear Hd. unfold rune3 in *.
    assert (Z_of_byte b0 = 0xE2 /\ Z_of_byte b1 = 0x80
            /\ Z_of_byte b2 = (if c =? 0x2028 then 0xA8 else 0xA9)) as (E0 & E1 & E2).
    { destruct Hc as [Hc | Hc]; rewrite Hc in E; subst c; simpl;
        Z.div_mod_to_equations; lia. }
    apply byte_of_value in E0 as ->, E1 as ->. apply byte_of_value in E2 as ->.
    unfold sep_bytes. destruct Hc as [Hc | Hc]; rewrite Hc in E; subst c; reflexivity.
  - exfalso. clear Hd. unfold rune4 in *. Z.div_mod_to_equations. lia.
Qed.

Lemma escape_unfold (n : nat) (b : ascii) (rest : list ascii) :
  utf8.valid_runes (S n) (b :: rest) = true ->
  exists pre out s1,
    b :: rest = pre ++ s1 /\ step pre out
    /\ json.escape (S n) (b :: rest) = out ++ json.escape n s1
    /\ utf8.valid_runes n s1 = true /\ (length s1 <= length rest)%nat.
Proof.
  intros Hv. cbn [utf8.valid_runes json.escape] in *.
  destruct (is_ascii b) eqn:Hb.
  - rewrite decode_ascii in Hv by done. apply andb_true_iff in Hv as [_ Hv].
    exists [b], (code b), rest. unfold is_ascii in Hb. rewrite Hb.
    repeat split; try done. by constructor.
  - pose proof Hb as Hb'. unfold is_ascii in Hb'. rewrite Hb'.
    assert (0x80 <= Z_of_byte b) as Hge
      by (unfold utf8.RuneSelf in Hb'; apply Z.ltb_ge in Hb'; lia).
    pose proof (decode_multibyte b rest Hge) as Hd.
    destruct (utf8.DecodeRuneInString (firstn 4 (b :: rest))) as [c size].
    simpl in Hd. apply andb_true_iff in Hv as [Hne Hv].
    apply negb_true_iff in Hne. rewrite Hne.
    destruct ((c =? 0x2028) || (c =? 0x2029)) eqn:Hsep.
    + assert (c = 0x2028 \/ c = 0x2029) as Hc.
      { apply orb_true_iff in Hsep as [?%Z.eqb_eq | ?%Z.eqb_eq]; auto. }
      destruct (decoded_sep _ _ _ Hd Hc) as (r & Hs & ->).
      exists (sep_bytes c), (sep_code c), r.
      rewrite Hs in Hv |- *. change (skipn 3 (sep_bytes c ++ r)) with r in *.
      split; [done |]. split; [by constructor |].
      split; [unfold sep_code; by rewrite <- !app_assoc |].
      split; [done |].
      simpl in Hs. injection Hs as _ ->. simpl. lia.
    + exists (firstn size (b :: rest)), (firstn size (b :: rest)), (skipn size (b :: rest)).
      assert (match firstn size (b :: rest) with
              | b0 :: pre => b0 = b /\ length (b0 :: pre) = lead_size (Z_of_byte b)
              | [] => False end /\ (1 <= size)%nat) as [Hpre Hsize].
      { unfold lead_size. clear Hv.
        inversion Hd as [E1 E2|b0 b1 r Hs H0 H1 E1 E2
                        |b0 b1 b2 r Hs H0 H1 H2 E1 E2
                        |b0 b1 b2 b3 r Hs H0 H1 H10 H2 H3 E1 E2].
        - subst c size. rewrite Z.eqb_refl in Hne. done.
        - injection Hs as <- ->. simpl. split; [| lia]. split; [done |].
          by rewrite (proj2 (Z.ltb_lt _ _)) by lia.
        - injection Hs as <- ->. simpl. split; [| lia]. split; [done |].
          rewrite (proj2 (Z.ltb_ge _ _)) by lia.
          by rewrite (proj2 (Z.ltb_lt _ _)) by lia.
        - injection Hs as <- ->. simpl. split; [| lia]. split; [done |].
          by rewrite !(proj2 (Z.ltb_ge _ _)) by lia. }
      repeat split; try done.
      * by rewrite firstn_skipn.
      * destruct (firstn size (b :: rest)) as [|b0 pre]; [done |].
        destruct Hpre as [-> Hlen]. by constructor.
      * rewrite length_skipn. simpl. lia.
Qed.

Lemma head_ok_cons (l T : list ascii) (c : ascii) (T' : list ascii) :
  head_ok l = true -> l ++ T = c :: T' ->
  is_ascii c = true /\ c <> json.quote.
Proof.
  destruct l as [|a l]; [done |]. simpl. intros [Ha Hq]%andb_true_iff [= -> _].
  split; [done |]. intros ->. by rewrite Ascii.eqb_refl in Hq.
Qed.

Lemma sep_code_head (c : Z) : head_ok (sep_code c) = true.
Proof. reflexivity. Qed.

(** What a step writes never begins with a quotation mark. *)
Lemma step_head (pre out T T' : list ascii) (c : ascii) :
  step pre out -> out ++ T = c :: T' -> c <> json.quote.
Proof.
  intros Hs Heq. destruct Hs as [b Hb|b0 pre Hb0 Hlen|z Hz].
  - by destruct (head_ok_cons _ _ _ _ (proj1 (code_head b Hb)) Heq).
  - injection Heq as -> _. intros ->. done.
  - by destruct (head_ok_cons _ _ _ _ (sep_code_head z) Heq).
Qed.

Lemma sep_code_inj (c c' : Z) (T T' : list ascii) :
  c = 0x2028 \/ c = 0x2029 -> c' = 0x2028 \/ c' = 0x2029 ->
  sep_code c ++ T = sep_code c' ++ T' -> c = c' /\ T = T'.
Proof. intros [-> | ->] [-> | ->] [=]; done. Qed.

(** The steps are uniquely decodable. *)
Lemma step_inj (pre out pre' out' T T' : list ascii) :
  step pre out -> step pre' out' -> out ++ T = out' ++ T' ->
  pre = pre' /\ T = T'.
Proof.
  intros Hs Hs' Heq.
  destruct Hs as [b Hb|b0 pre Hb0 Hlen|z Hz];
    destruct Hs' as [b' Hb'|b0' pre' Hb0' Hlen'|z' Hz'].
  - pose proof (code_prefix_free b b' Hb Hb' (app_eq_comparable _ _ _ _ Heq)) as ->.
    by apply app_inv_head in Heq.
  - destruct (head_ok_cons _ _ _ _ (proj1 (code_head b Hb)) Heq) as [Ha _]. congruence.
  - apply app_eq_comparable in Heq.
    destruct (code_head b Hb) as (_ & H1 & H2). destruct Hz' as [-> | ->]; congruence.
  - symmetry in Heq.
    destruct (head_ok_cons _ _ _ _ (proj1 (code_head b' Hb')) Heq) as [Ha _]. congruence.
  - assert (b0 = b0') as <- by (by injection Heq).
    apply app_inj_1 in Heq as [-> ->]; [done | congruence].
  - symmetry in Heq.
    destruct (head_ok_cons _ _ _ _ (sep_code_head z') Heq) as [Ha _]. congruence.
  - apply app_eq_comparable in Heq.
    destruct (code_head b' Hb') as (_ & H1 & H2).
    assert (forall l l', comparable l l' = comparable l' l) as Hsym.
    { induction l as [|x l IH]; intros [|y l']; simpl; try done.
      by rewrite IH, Ascii.eqb_sym. }
    rewrite Hsym in Heq. destruct Hz as [-> | ->]; congruence.
  - destruct (head_ok_cons _ _ _ _ (sep_code_head z) Heq) as [Ha _]. congruence.
  - by destruct (sep_code_inj z z' T T' Hz Hz' Heq) as [-> ->].
Qed.

Lemma escape_nil (n : nat) : json.escape n [] = [].
Proof. by destruct n. Qed.

(** The escaped form of a valid string, closed by its quotation mark,
    determines the string and what follows. *)
Lemma escape_inj (n : nat) :
  forall (s s' r r' : list ascii) (n' : nat),
    utf8.valid_runes n s = true -> utf8.valid_runes n' s' = true ->
    json.escape n s ++ json.quote :: r = json.escape n' s' ++ json.quote :: r' ->
    s = s' /\ r = r'.
Proof.
  induction n as [|n IH]; intros s s' r r' n' Hv Hv' Heq.
  - destruct s as [|b s]; [| done]. rewrite escape_nil in Heq.
    destruct s' as [|b' s'].
    + rewrite escape_nil in Heq. by injection Heq as ->.
    + destruct n' as [|n']; [done |].
      destruct (escape_unfold n' b' s' Hv') as (pre & out & s1 & _ & Hst & He & _).
      rewrite He, <- app_assoc in Heq. symmetry in Heq.
      by destruct (step_head _ _ _ _ _ Hst Heq).
  - destruct s as [|b s].
    + rewrite escape_nil in Heq. destruct s' as [|b' s'].
      * rewrite escape_nil in Heq. by injection Heq as ->.
      * destruct n' as [|n']; [done |].
        destruct (escape_unfold n' b' s' Hv') as (pre & out & s1 & _ & Hst & He & _).
        rewrite He, <- app_assoc in Heq. symmetry in Heq.
        by destruct (step_head _ _ _ _ _ Hst Heq).
    + destruct (escape_unfold n b s Hv) as (pre & out & s1 & Hs & Hst & He & Hv1 & _).
      destruct s' as [|b' s'].
      * rewrite escape_nil, He, <- app_assoc in Heq.
        by destruct (step_head _ _ _ _ _ Hst Heq).
      * destruct n' as [|n']; [done |].
        destruct (escape_unfold n' b' s' Hv')
          as (pre' & out' & s1' & Hs' & Hst' & He' & Hv1' & _).
        rewrite He, He', <- !app_assoc in Heq.
        destruct (step_inj _ _ _ _ _ _ Hst Hst' Heq) as [-> Heq'].
        destruct (IH _ _ _ _ _ Hv1 Hv1' Heq') as [-> ->].
        by rewrite Hs, Hs'.
Qed.

Lemma appendString_inj (s s' : string) (r r' : list ascii) :
  utf8.ValidString s = true -> utf8.ValidString s' = true ->
  json.appendString s ++ r = json.appendString s' ++ r' ->
  s = s' /\ r = r'.
Proof.
  unfold utf8.ValidString, json.appendString. intros Hv Hv' Heq.
  assert (forall t, String.length t = length (bytes_of_string t)) as Hlen.
  { induction t as [|c t IH]; simpl; [done | by rewrite IH]. }
  rewrite !Hlen in *.
  simpl in Heq. injection Heq as Heq. rewrite <- !app_assoc in Heq. simpl in Heq.
  destruct (escape_inj _ _ _ _ _ _ Hv Hv' Heq) as [Hs ->].
  split; [| done]. by apply bytes_of_string_inj.
Qed.

Lemma uint_digits_inj (d d' : Decimal.uint) (r r' : list ascii) :
  tail_ok r -> tail_ok r' ->
  bytes_of_string (NilEmpty.string_of_uint d) ++ r
  = bytes_of_string (NilEmpty.string_of_uint d') ++ r' ->
  d = d' /\ r = r'.
Proof.
  intros Hr Hr'. revert d'.
  induction d as [|d IH|d IH|d IH|d IH|d IH|d IH|d IH|d IH|d IH|d IH];
    intros [|d'|d'|d'|d'|d'|d'|d'|d'|d'|d']; simpl; intros Heq;
    try (injection Heq as Heq; destruct (IH _ Heq) as [-> ->]; done);
    try discriminate; try done.
  all: try (subst r; simpl in Hr; discriminate).
  all: try (subst r'; simpl in Hr'; discriminate).
Qed.

Lemma uint_digits_head (d : Decimal.uint) :
  d <> Decimal.Nil ->
  exists c s, NilEmpty.string_of_uint d = String c s /\ is_digit c = true.
Proof. destruct d; try done; intros _; simpl; eauto. Qed.

Lemma string_of_to_int (n : Z) :
  exists d, d <> Decimal.Nil
    /\ (strconv.FormatInt n = NilEmpty.string_of_uint d /\ Z.to_int n = Decimal.Pos d
        \/ strconv.FormatInt n = String "-" (NilEmpty.string_of_uint d)
           /\ Z.to_int n = Decimal.Neg d).
Proof.
  unfold strconv.FormatInt. destruct n as [|p|p]; simpl.
  - exists (Decimal.D0 Decimal.Nil). split; [done |]. by left.
  - exists (Pos.to_uint p). pose proof (DecimalPos.Unsigned.to_uint_nonnil p).
    split; [done |]. left. by destruct (Pos.to_uint p).
  - exists (Pos.to_uint p). pose proof (DecimalPos.Unsigned.to_uint_nonnil p).
    split; [done |]. right. by destruct (Pos.to_uint p).
Qed.

Lemma FormatInt_sd (n n' : Z) (r r' : list ascii) :
  tail_ok r -> tail_ok r' ->
  bytes_of_string (strconv.FormatInt n) ++ r
  = bytes_of_string (strconv.FormatInt n') ++ r' ->
  n = n' /\ r = r'.
Proof.
  intros Hr Hr' Heq.
  destruct (string_of_to_int n) as (d & Hd & [[Hs Hi] | [Hs Hi]]);
    destruct (string_of_to_int n') as (d' & Hd' & [[Hs' Hi'] | [Hs' Hi']]);
    rewrite Hs, Hs' in Heq.
  - destruct (uint_digits_inj _ _ _ _ Hr Hr' Heq) as [-> ->].
    split; [| done]. apply DecimalZ.to_int_inj. congruence.
  - destruct (uint_digits_head d Hd) as (c & s & Hc & Hdig).
    rewrite Hc in Heq. by injection Heq as -> _.
  - destruct (uint_digits_head d' Hd') as (c & s & Hc & Hdig).
    rewrite Hc in Heq. by injection Heq as <- _.
  - injection Heq as Heq.
    destruct (uint_digits_inj _ _ _ _ Hr Hr' Heq) as [-> ->].
    split; [| done]. apply DecimalZ.to_int_inj. congruence.
Qed.

(** Lists of encoded elements joined by a separator byte [sep] and
    followed by [E]: the end of the input, or a byte that neither begins
    an element nor is the separator. *)
Section separated.
Context {A : Type} (enc : A -> list ascii) (P : A -> Prop).
Context (sep : ascii) (nostart : ascii -> Prop).
Hypothesis sep_not_digit : is_digit sep = false.

Definition end_ok (E : list ascii) : Prop :=
  match E with
  | [] => True
  | t :: _ => nostart t /\ t <> sep /\ is_digit t = false
  end.

Definition elem_sd (a : A) : Prop :=
  forall a' T T', P a' -> tail_ok T -> tail_ok T' ->
    enc a ++ T = enc a' ++ T' -> a = a' /\ T = T'.

Definition later (l : list A) : list ascii :=
  concat (map (fun a => sep :: enc a) l).

Lemma later_tail_ok (l : list A) (E : list ascii) :
  end_ok E -> tail_ok (later l ++ E).
Proof.
  destruct l as [|a l]; simpl.
  - destruct E as [|t E]; [done |]. by intros (_ & _ & ?).
  - done.
Qed.

Lemma later_inj (l l' : list A) (E E' : list ascii) :
  Forall elem_sd l -> Forall P l' -> end_ok E -> end_ok E' ->
  later l ++ E = later l' ++ E' -> l = l' /\ E = E'.
Proof.
  intros Hl. revert l'. induction Hl as [|a l Ha Hl IH];
    intros [|a' l'] Hl' HE HE' Heq.
  - done.
  - simpl in Heq. subst E. simpl in HE. by destruct HE as (_ & ? & _).
  - simpl in Heq. subst E'. simpl in HE'. by destruct HE' as (_ & ? & _).
  - apply Forall_cons in Hl' as [Ha' Hl'].
    unfold later in Heq. simpl in Heq. injection Heq as Heq.
    rewrite <- !app_assoc in Heq. fold (later l) (later l') in Heq.
    destruct (Ha a' _ _ Ha' (later_tail_ok l E HE) (later_tail_ok l' E' HE') Heq)
      as [-> Heq'].
    destruct (IH l' Hl' HE HE' Heq') as [-> ->]. done.
Qed.

Hypothesis enc_head :
  forall a, P a -> exists h t, enc a = h :: t /\ ~ nostart h.

Lemma join_inj (l l' : list A) (E E' : list ascii) :
  Forall elem_sd l -> Forall P l -> Forall P l' -> end_ok E -> end_ok E' ->
  json.join [sep] (map enc l) ++ E = json.join [sep] (map enc l') ++ E' ->
  l = l' /\ E = E'.
Proof.
  intros Hsd Hl Hl' HE HE' Heq.
  destruct l as [|a l]; destruct l' as [|a' l'].
  - done.
  - apply Forall_cons in Hl' as [Ha' _].
    destruct (enc_head a' Ha') as (h & t & Hh & Hns).
    rewrite map_cons, join_cons, Hh in Heq. simpl in Heq. subst E.
    simpl in HE. by destruct HE as (? & _).
  - apply Forall_cons in Hl as [Ha _].
    destruct (enc_head a Ha) as (h & t & Hh & Hns).
    rewrite map_cons, join_cons, Hh in Heq. simpl in Heq. subst E'.
    simpl in HE'. by destruct HE' as (? & _).
  - apply Forall_cons in Hsd as [Ha Hsd]. apply Forall_cons in Hl' as [Ha' Hl'].
    rewrite !map_cons, !join_cons, !map_map, <- !app_assoc in Heq.
    change (concat (map (fun x => [sep] ++ enc x) l)) with (later l) in Heq.
    change (concat (map (fun x => [sep] ++ enc x) l')) with (later l') in Heq.
    destruct (Ha a' _ _ Ha' (later_tail_ok l E HE) (later_tail_ok l' E' HE') Heq)
      as [-> Heq'].
    destruct (later_inj l l' E E' Hsd Hl' HE HE' Heq') as [-> ->]. done.
Qed.
End separated.

Lemma list_sum_elem (l : list nat) (x : nat) : x ∈ l -> (x <= list_sum l)%nat.
Proof.
  induction 1 as [|x y l Hin IH]; simpl; lia.
Qed.

Lemma size_slice (l : list any) (x : any) :
  x ∈ l -> (any_size x < any_size (ASlice l))%nat.
Proof.
  intros Hin. simpl. apply Nat.lt_succ_r, list_sum_elem.
  apply list_elem_of_In, in_map, list_elem_of_In, Hin.
Qed.

Lemma size_map (m : gmap string any) (k : string) (x : any) :
  m !! k = Some x -> (any_size x < any_size (AMap m))%nat.
Proof.
  intros Hk. simpl. apply Nat.lt_succ_r, list_sum_elem.
  rewrite map_to_list_fmap. apply list_elem_of_In.
  rewrite map_map. apply (in_map (fun kv => any_size kv.2) _ (k, x)).
  apply list_elem_of_In. by apply elem_of_map_to_list.
Qed.

Lemma any_ind_nested (P : any -> Prop) :
  P ANil -> (forall b, P (ABool b)) -> (forall n, P (AInt n)) ->
  (forall s, P (AString s)) ->
  (forall l, Forall P l -> P (ASlice l)) ->
  (forall m, map_Forall (fun _ => P) m -> P (AMap m)) ->
  forall v, P v.
Proof.
  intros Hnil Hbool Hint Hstr Hslice Hmap v.
  remember (any_size v) as n eqn:Hn. revert v Hn.
  induction n as [n IH] using lt_wf_ind. intros v ->.
  destruct v as [|b|z|s|l|m]; auto.
  - apply Hslice, Forall_forall. intros x Hx.
    apply (IH (any_size x)); [by apply size_slice | done].
  - apply Hmap. intros k x Hk. apply (IH (any_size x)); [by apply (size_map m k) | done].
Qed.

Lemma wf_slice (l : list any) : Spec.well_formed (ASlice l) = true <-> Forall (fun x => Spec.well_formed x = true) l.
Proof. simpl. rewrite forallb_forall, Forall_forall. by setoid_rewrite list_elem_of_In. Qed.

Lemma wf_map (m : gmap string any) :
  Spec.well_formed (AMap m) = true <->
  forall k x, m !! k = Some x -> utf8.ValidString k = true /\ Spec.well_formed x = true.
Proof.
  simpl. rewrite forallb_forall, map_to_list_fmap. split.
  - intros H k x Hk. apply andb_true_iff.
    apply (H (k, Spec.well_formed x)). apply list_elem_of_In, list_elem_of_fmap.
    exists (k, x). split; [done |]. by apply elem_of_map_to_list.
  - intros H [k b] Hin%list_elem_of_In%list_elem_of_fmap.
    destruct Hin as ([k' x] & [= -> ->] & Hin%elem_of_map_to_list).
    apply andb_true_iff. by apply H.
Qed.

(** ** Sorted entries of a map *)

#[global] Instance key_le_total {A} : Total (@key_le A).
Proof. intros x y. apply string_le_total. Qed.

#[global] Instance key_le_trans {A} : Transitive (@key_le A).
Proof. intros x y z. apply string_le_trans. Qed.

Lemma map_fmap {A B} (f : A -> B) (l : list A) : map f l = f <$> l.
Proof. induction l as [|x l IH]; simpl; [done | by rewrite IH]. Qed.

Lemma elem_of_sorted_entries {A} (m : gmap string A) (k : string) (a : A) :
  (k, a) ∈ sorted_entries m <-> m !! k = Some a.
Proof.
  unfold sorted_entries. by rewrite merge_sort_Permutation, elem_of_map_to_list.
Qed.

Lemma sorted_entries_fmap {A B} (f : A -> B) (m : gmap string A) :
  sorted_entries (f <$> m) = prod_map id f <$> sorted_entries m.
Proof.
  apply (Sorted_unique_strong key_le).
  - intros [k b] [k' b'] H1 H2 Hle Hge.
    assert (k = k') as <- by (by apply String.leb_antisym).
    apply elem_of_sorted_entries in H1.
    apply list_elem_of_fmap in H2 as ([k2 a] & [= -> ->] & H2%elem_of_sorted_entries).
    rewrite lookup_fmap, H2 in H1. by injection H1 as ->.
  - apply Sorted_merge_sort, _.
  - apply (Sorted_fmap _ key_le); [by intros [] [] |].
    apply Sorted_merge_sort, _.
  - unfold sorted_entries. rewrite !merge_sort_Permutation.
    by rewrite map_to_list_fmap.
Qed.

Lemma sorted_entries_inj {A} (m m' : gmap string A) :
  sorted_entries m = sorted_entries m' -> m = m'.
Proof.
  intros H. apply map_to_list_inj.
  rewrite <- (merge_sort_Permutation key_le (map_to_list m)).
  rewrite <- (merge_sort_Permutation key_le (map_to_list m')).
  unfold sorted_entries in H. by rewrite H.
Qed.

(** ** Encoded values are self-delimiting *)

Lemma encode_kind_head (v : any) :
  exists h t, encode v = h :: t /\ kind_head v h.
Proof.
  destruct v as [|[]|z|s|l|m]; simpl; eauto.
  destruct (string_of_to_int z) as (d & Hd & [[-> _] | [-> _]]).
  - destruct (uint_digits_head d Hd) as (c & s & -> & Hc). simpl. eauto.
  - simpl. eauto.
Qed.

Lemma kind_head_open (v : any) (h : ascii) : kind_head v h -> is_open h = true.
Proof.
  destruct v as [|[]|z|s|l|m]; simpl; try (intros ->; reflexivity).
  intros [H | ->]; [| reflexivity]. unfold is_open. by rewrite H.
Qed.

Lemma encode_head_open (v : any) :
  exists h t, encode v = h :: t /\ ~ is_open h = false.
Proof.
  destruct (encode_kind_head v) as (h & t & He & Hk).
  exists h, t. split; [done |]. by rewrite (kind_head_open v h Hk).
Qed.

#[global] Arguments json.appendString : simpl never.

Lemma encode_map (m : gmap string any) :
  encode (AMap m)
  = bytes_of_string "{"
      ++ join [","%char] (map member_of (sorted_entries m)) ++ bytes_of_string "}".
Proof.
  simpl. do 2 f_equal.
  change (merge_sort key_le (map_to_list (encode <$> m)))
    with (sorted_entries (encode <$> m)).
  rewrite sorted_entries_fmap, <- (map_fmap (prod_map id encode)), map_map.
  done.
Qed.

Lemma kind_mismatch (v v' : any) (h : ascii) (t t' T T' : list ascii) :
  encode v = h :: t -> kind_head v h ->
  encode v ++ T = encode v' ++ T' ->
  kind_head v' h.
Proof.
  intros He Hk Heq. destruct (encode_kind_head v') as (h' & t'' & He' & Hk').
  rewrite He, He' in Heq. by injection Heq as -> _.
Qed.

Lemma member_sd (kv : string * any) :
  value_sd kv.2 -> utf8.ValidString kv.1 = true ->
  elem_sd member_of member_wf kv.
Proof.
  intros Hv Hk [k' v'] T T' [Hk' Hv'] HT HT' Heq. destruct kv as [k v].
  unfold member_of in Heq. cbn [fst snd] in *. rewrite <- !app_assoc in Heq.
  destruct (appendString_inj _ _ _ _ Hk Hk' Heq) as [-> Heq'].
  injection Heq' as Heq'.
  destruct (Hv v' T T' Hv' HT HT' Heq') as [-> ->]. done.
Qed.

(** An encoded value, followed by the end of the input or by a byte
    that is not a digit, determines the value and what follows. *)
Lemma encode_sd (v : any) : Spec.well_formed v = true -> value_sd v.
Proof.
  induction v as [|b|z|s|l IH|m IH] using any_ind_nested;
    intros Hwf v' T T' Hwf' HT HT' Heq.
  - destruct (encode_kind_head ANil) as (h & t & He & Hk).
    pose proof (kind_mismatch _ _ _ _ t T T' He Hk Heq) as Hk'.
    simpl in Hk. subst h.
    destruct v' as [|b'|z'|s'|l'|m']; simpl in Hk';
      try discriminate; try (by destruct b'); try (by destruct Hk').
    simpl in Heq. by injection Heq as ->.
  - destruct (encode_kind_head (ABool b)) as (h & t & He & Hk).
    pose proof (kind_mismatch _ _ _ _ t T T' He Hk Heq) as Hk'.
    simpl in Hk. subst h.
    destruct v' as [|b'|z'|s'|l'|m']; simpl in Hk';
      try (destruct b; discriminate);
      try (destruct b, Hk'; discriminate).
    destruct b, b'; try discriminate; simpl in Heq; by injection Heq as ->.
  - destruct (encode_kind_head (AInt z)) as (h & t & He & Hk).
    pose proof (kind_mismatch _ _ _ _ t T T' He Hk Heq) as Hk'.
    simpl in Hk.
    destruct v' as [|b'|z'|s'|l'|m']; simpl in Hk';
      try (subst h; destruct Hk; discriminate);
      try (destruct b'; subst h; destruct Hk; discriminate).
    simpl in Heq. by destruct (FormatInt_sd _ _ _ _ HT HT' Heq) as [-> ->].
  - destruct (encode_kind_head (AString s)) as (h & t & He & Hk).
    pose proof (kind_mismatch _ _ _ _ t T T' He Hk Heq) as Hk'.
    simpl in Hk. subst h.
    destruct v' as [|b'|z'|s'|l'|m']; simpl in Hk';
      try discriminate; try (by destruct b'); try (by destruct Hk').
    simpl in Heq, Hwf, Hwf'.
    by destruct (appendString_inj _ _ _ _ Hwf Hwf' Heq) as [-> ->].
  - destruct (encode_kind_head (ASlice l)) as (h & t & He & Hk).
    pose proof (kind_mismatch _ _ _ _ t T T' He Hk Heq) as Hk'.
    simpl in Hk. subst h.
    destruct v' as [|b'|z'|s'|l'|m']; simpl in Hk';
      try discriminate; try (by destruct b'); try (by destruct Hk').
    apply wf_slice in Hwf, Hwf'.
    cbn [encode] in Heq. rewrite <- !app_assoc in Heq. injection Heq as Heq.
    destruct (join_inj encode (fun x => Spec.well_formed x = true) ","%char
                (fun c => is_open c = false) eq_refl
                (fun a _ => encode_head_open a) l l'
                (bytes_of_string "]" ++ T) (bytes_of_string "]" ++ T')) as [-> HE];
      try done.
    + rewrite Forall_forall in IH, Hwf |- *. intros x Hx. by apply IH, Hwf.
    + by injection HE as ->.
  - destruct (encode_kind_head (AMap m)) as (h & t & He & Hk).
    pose proof (kind_mismatch _ _ _ _ t T T' He Hk Heq) as Hk'.
    simpl in Hk. subst h.
    destruct v' as [|b'|z'|s'|l'|m']; simpl in Hk';
      try discriminate; try (by destruct b'); try (by destruct Hk').
    rewrite wf_map in Hwf, Hwf'.
    rewrite !encode_map, <- !app_assoc in Heq. injection Heq as Heq.
    assert (forall kv, member_wf kv ->
              exists h t, member_of kv = h :: t /\ ~ is_open h = false) as Hhead.
    { intros [k x] _. unfold member_of, appendString. simpl. eauto. }
    destruct (join_inj member_of member_wf ","%char
                (fun c => is_open c = false) eq_refl Hhead
                (sorted_entries m) (sorted_entries m')
                (bytes_of_string "}" ++ T) (bytes_of_string "}" ++ T')) as [Hm HE];
      try done.
    + apply Forall_forall. intros [k x] Hin%elem_of_sorted_entries.
      destruct (Hwf k x Hin) as [Hk Hx].
      apply member_sd; [| done]. by apply (IH k x Hin).
    + apply Forall_forall. intros [k x] Hin%elem_of_sorted_entries. by apply Hwf.
    + apply Forall_forall. intros [k x] Hin%elem_of_sorted_entries. by apply Hwf'.
    + apply sorted_entries_inj in Hm as ->. by injection HE as ->.
Qed.

Lemma readable_lookup (params : gmap string any) (k : string) (v : any) :
  Spec.readable params = true -> params !! k = Some v ->
  Spec.no_colon k = true /\ Spec.well_formed v = true.
Proof.
  unfold Spec.readable. rewrite forallb_forall, map_to_list_fmap. intros H Hk.
  apply andb_true_iff. apply (H (k, Spec.well_formed v)).
  apply list_elem_of_In, list_elem_of_fmap. exists (k, v). split; [done |].
  by apply elem_of_map_to_list.
Qed.

Lemma no_colon_not_elem (k : string) :
  Spec.no_colon k = true -> ":"%char ∉ bytes_of_string k.
Proof.
  unfold Spec.no_colon. rewrite forallb_forall. intros H Hin%list_elem_of_In.
  specialize (H _ Hin). by rewrite Ascii.eqb_refl in H.
Qed.

Lemma entry_sd (kv : string * any) :
  entry_wf kv -> elem_sd Spec.entry entry_wf kv.
Proof.
  intros [Hk Hv] [k' v'] T T' [Hk' Hv'] HT HT' Heq. destruct kv as [k v].
  unfold Spec.entry in Heq. cbn [fst snd Marshal] in *. rewrite <- !app_assoc in Heq.
  apply not_elem_of_app_cons_inv_l in Heq as (Hkk & _ & Heq);
    [| by apply no_colon_not_elem..].
  apply bytes_of_string_inj in Hkk as ->.
  destruct (encode_sd v Hv v' T T' Hv' HT HT' Heq) as [-> ->]. done.
Qed.

Lemma entry_head (kv : string * any) :
  entry_wf kv -> exists h t, Spec.entry kv = h :: t /\ ~ False.
Proof.
  intros _. destruct kv as [[|c k] v]; unfold Spec.entry; simpl; eauto.
Qed.

Lemma canonical_encoding_entries (params : gmap string any) (order : list string) :
  reevit.canonical_encoding order params
  = string_of_bytes
      (join (bytes_of_string "|")
         (map Spec.entry (entries_of params (sort.Strings order)))).
Proof.
  rewrite canonical_encoding_keys. unfold entries_of. by rewrite map_map.
Qed.

Lemma entries_of_wf (params : gmap string any) (order : list string) :
  reevit.range_order params order -> Spec.readable params = true ->
  Forall entry_wf (entries_of params (sort.Strings order)).
Proof.
  intros Hord Hr. apply Forall_forall. intros [k v] Hin.
  apply list_elem_of_In, in_map_iff in Hin as (k' & [= -> <-] & Hin%list_elem_of_In).
  apply sort_Strings_elem, (range_order_elem params order k Hord) in Hin as [v Hv].
  unfold reevit.index. rewrite Hv. by apply (readable_lookup params k v).
Qed.

Lemma entries_of_perm (params : gmap string any) (order : list string) :
  reevit.range_order params order ->
  entries_of params (sort.Strings order) ≡ₚ map_to_list params.
Proof.
  intros Hord. apply NoDup_Permutation.
  - unfold entries_of. rewrite map_fmap. apply NoDup_fmap_2.
    + by intros k k' [= ->].
    + unfold sort.Strings. rewrite merge_sort_Permutation.
      by apply (range_order_NoDup params).
  - apply NoDup_map_to_list.
  - intros [k v]. rewrite elem_of_map_to_list. unfold entries_of.
    rewrite map_fmap, list_elem_of_fmap. split.
    + intros (k' & [= -> ->] & Hin).
      apply sort_Strings_elem, (range_order_elem params order k' Hord) in Hin as [v Hv].
      unfold reevit.index. by rewrite Hv.
    + intros Hv. exists k. unfold reevit.index. rewrite Hv. split; [done |].
      apply sort_Strings_elem, (range_order_elem params order k Hord). eauto.
Qed.

Lemma entries_of_inj (P Q : gmap string any) (oP oQ : list string) :
  reevit.range_order P oP -> reevit.range_order Q oQ ->
  entries_of P (sort.Strings oP) = entries_of Q (sort.Strings oQ) -> P = Q.
Proof.
  intros HP HQ Heq. apply map_to_list_inj.
  by rewrite <- (entries_of_perm P oP), <- (entries_of_perm Q oQ), Heq.
Qed.

(** On Spec.readable parameter sets the canonical encoding is injective. *)
Lemma canonical_encoding_inj (P Q : gmap string any) (oP oQ : list string) :
  reevit.range_order P oP -> reevit.range_order Q oQ ->
  Spec.readable P = true -> Spec.readable Q = true ->
  reevit.canonical_encoding oP P = reevit.canonical_encoding oQ Q -> P = Q.
Proof.
  intros HP HQ HrP HrQ Heq. rewrite !canonical_encoding_entries in Heq.
  apply (f_equal bytes_of_string) in Heq. rewrite !bytes_of_string_of_bytes in Heq.
  apply (entries_of_inj P Q oP oQ HP HQ).
  pose proof (entries_of_wf P oP HP HrP) as HwP.
  pose proof (entries_of_wf Q oQ HQ HrQ) as HwQ.
  destruct (join_inj Spec.entry entry_wf "|"%char (fun _ => False) eq_refl entry_head
              (entries_of P (sort.Strings oP)) (entries_of Q (sort.Strings oQ)) [] [])
    as [H _]; try done.
  - eapply Forall_impl; [exact HwP |]. apply entry_sd.
  - by rewrite !app_nil_r.
Qed.

Lemma hex_pair_check :
  forallb (fun b => forallb (fun b' =>
      implb (Ascii.eqb (hex.digit (Z.shiftr (Z_of_byte b) 4))
                       (hex.digit (Z.shiftr (Z_of_byte b') 4))
             && Ascii.eqb (hex.digit (Z.land (Z_of_byte b) 15))
                          (hex.digit (Z.land (Z_of_byte b') 15)))
            (Ascii.eqb b b')) all_bytes) all_bytes = true.
Proof. vm_compute. reflexivity. Qed.

Lemma hex_EncodeToString_inj (x y : list ascii) :
  hex.EncodeToString x = hex.EncodeToString y -> x = y.
Proof.
  revert y. induction x as [|a x IH]; intros [|b y]; try done.
  change (hex.EncodeToString (?c :: ?l))
    with (String (hex.digit (Z.shiftr (Z_of_byte c) 4))
            (String (hex.digit (Z.land (Z_of_byte c) 15)) (hex.EncodeToString l))).
  intros [= H1 H2 H3].
  pose proof (forall_byte _ (forall_byte _ hex_pair_check a) b) as H.
  simpl in H. rewrite H1, H2, !Ascii.eqb_refl in H. apply Ascii.eqb_eq in H as ->.
  f_equal. by apply IH.
Qed.

(** C4, as stated, fails: keys are written as they are, so a key that
    holds a colon and a vertical bar can imitate two entries.  The two
    parameter sets differ, their encodings are the same string, and so
    are their idempotency keys. *)
Lemma canonical_encoding_not_injective :
  params_ab <> params_colon
  /\ reevit.range_order params_ab order_ab
  /\ reevit.range_order params_colon order_colon
  /\ reevit.canonical_encoding order_ab params_ab = "a:1|b:2"
  /\ reevit.canonical_encoding order_colon params_colon = "a:1|b:2"
  /\ reevit.GenerateIdempotencyKey 1700000000 order_ab params_ab
     = reevit.GenerateIdempotencyKey 1700000000 order_colon params_colon.
Proof.
  split.
  - intros H. apply (f_equal (fun m => m !! "b")) in H. vm_compute in H. discriminate.
  - vm_compute. repeat split; reflexivity.
Qed.

Lemma GenerateIdempotencyKey_digest (t t' : Z) (oP oQ : list string)
    (P Q : gmap string json.any) :
  Z.quot t (5 * 60) = Z.quot t' (5 * 60) ->
  reevit.GenerateIdempotencyKey t oP P = reevit.GenerateIdempotencyKey t' oQ Q ->
  sha256.Sum256 (bytes_of_string (reevit.canonical_encoding oP P))
  = sha256.Sum256 (bytes_of_string (reevit.canonical_encoding oQ Q)).
Proof.
  unfold reevit.GenerateIdempotencyKey, fmt.verb_x. intros -> Heq.
  do 3 apply string_app_inv_head in Heq. by apply hex_EncodeToString_inj.
Qed.

(** C4, amended.  On parameter sets whose keys hold no colon and whose
    values are null, booleans, integers, valid UTF-8 strings, and arrays
    and string-keyed objects of these in which the keys of every nested
    object, at any depth, are valid UTF-8 as well, the canonical
    encoding is injective: two such sets that differ have different
    encodings, and within one time bucket their keys are equal only if
    the SHA-256 digests of the two different encodings coincide. *)
Theorem canonical_encoding_injective (P Q : gmap string json.any)
    (oP oQ : list string) :
  reevit.range_order P oP -> reevit.range_order Q oQ ->
  Spec.readable P = true -> Spec.readable Q = true ->
  P <> Q ->
  reevit.canonical_encoding oP P <> reevit.canonical_encoding oQ Q
  /\ (forall t t', Z.quot t (5 * 60) = Z.quot t' (5 * 60) ->
        reevit.GenerateIdempotencyKey t oP P
        = reevit.GenerateIdempotencyKey t' oQ Q ->
        sha256.Sum256 (bytes_of_string (reevit.canonical_encoding oP P))
        = sha256.Sum256 (bytes_of_string (reevit.canonical_encoding oQ Q))).
Proof.
  intros HP HQ HrP HrQ Hne. split.
  - intros Heq. apply Hne. by apply (canonical_encoding_inj P Q oP oQ).
  - intros t t'. apply GenerateIdempotencyKey_digest.
Qed.

Lemma canonical_encoding_injective_witness :
  reevit.range_order params_payment order_payment
  /\ reevit.range_order params_other order_other
  /\ Spec.readable params_payment = true
  /\ Spec.readable params_other = true
  /\ params_payment <> params_other
  /\ reevit.canonical_encoding order_payment params_payment
     <> reevit.canonical_encoding order_other params_other
  /\ (forall t t', Z.quot t (5 * 60) = Z.quot t' (5 * 60) ->
        reevit.GenerateIdempotencyKey t order_payment params_payment
        = reevit.GenerateIdempotencyKey t' order_other params_other ->
        sha256.Sum256
          (bytes_of_string (reevit.canonical_encoding order_payment params_payment))
        = sha256.Sum256
            (bytes_of_string (reevit.canonical_encoding order_other params_other))).
Proof.
  assert (reevit.range_order params_payment order_payment) as H1
    by (vm_compute; reflexivity).
  assert (reevit.range_order params_other order_other) as H2
    by (vm_compute; reflexivity).
  assert (Spec.readable params_payment = true) as H3 by (vm_compute; reflexivity).
  assert (Spec.readable params_other = true) as H4 by (vm_compute; reflexivity).
  assert (params_payment <> params_other) as H5.
  { intros H. apply (f_equal (fun m => m !! "amount")) in H.
    vm_compute in H. discriminate. }
  repeat (split; [assumption |]).
  exact (canonical_encoding_injective params_payment params_other
           order_payment order_other H1 H2 H3 H4 H5).
Defined.

(** The restrictions of the amended claim are all needed: invalid
    UTF-8 is replaced by the same escape whatever the offending byte,
    in a string and in the key of a nested object alike. *)
Example invalid_utf8_collides :
  json.encode (json.AString (String "255" ""))
  = json.encode (json.AString (String "254" ""))
  /\ Spec.well_formed (json.AString (String "255" "")) = false.
Proof. vm_compute. split; reflexivity. Qed.

Example invalid_nested_key_collides :
  params_nested_ff <> params_nested_fe
  /\ reevit.range_order params_nested_ff ["m"]
  /\ reevit.range_order params_nested_fe ["m"]
  /\ Spec.no_colon "m" = true
  /\ reevit.canonical_encoding ["m"] params_nested_ff
     = reevit.canonical_encoding ["m"] params_nested_fe
  /\ reevit.GenerateIdempotencyKey 1700000000 ["m"] params_nested_ff
     = reevit.GenerateIdempotencyKey 1700000000 ["m"] params_nested_fe
  /\ Spec.readable params_nested_ff = false
  /\ Spec.readable params_nested_fe = false.
Proof.
  split.
  - intros H. apply (f_equal (fun m => m !! "m")) in H. vm_compute in H.
    discriminate.
  - vm_compute. repeat split; reflexivity.
Qed.

(** ** The client, the services and the webhook handler *)

Lemma length_bytes_of_string (s : string) :
  length (bytes_of_string s) = String.length s.
Proof. induction s as [|c s IH]; simpl; [done | by rewrite IH]. Qed.

Lemma trimRightByte_app (r t : list ascii) (k : nat) (c : ascii) :
  last r <> Some c ->
  strings.trimRightByte (r ++ repeat c k ++ t) (length r + k) c = r.
Proof.
  intros Hr. revert t. induction k as [|k IH]; intros t.
  - rewrite Nat.add_0_r. simpl.
    destruct r as [|x r _] using rev_ind; [done |].
    rewrite last_snoc in Hr.
    rewrite length_app. simpl length. rewrite Nat.add_1_r.
    rewrite <- app_assoc. simpl.
    rewrite app_nth2, Nat.sub_diag by lia. simpl.
    destruct (Ascii.eqb_spec x c) as [-> | _]; [done |].
    change (x :: t) with ([x] ++ t). rewrite app_assoc.
    apply take_app_length'. rewrite length_app. simpl. lia.
  - replace (repeat c (S k)) with (repeat c k ++ [c])
      by (by rewrite <- repeat_cons).
    rewrite Nat.add_succ_r. cbn [strings.trimRightByte].
    rewrite <- !app_assoc.
    rewrite app_nth2 by lia.
    rewrite app_nth2 by (rewrite repeat_length; lia).
    rewrite repeat_length.
    replace (length r + k - length r - k)%nat with 0%nat by lia. simpl.
    rewrite Ascii.eqb_refl. apply IH.
Qed.

Lemma trailing_decompose (s : list ascii) (c : ascii) :
  exists r n, s = r ++ repeat c n /\ last r <> Some c.
Proof.
  induction s as [|x s IH] using rev_ind.
  - by exists [], 0%nat.
  - destruct (decide (x = c)) as [-> | Hx].
    + destruct IH as (r & n & -> & Hr). exists r, (S n). split; [| done].
      by rewrite <- app_assoc, <- repeat_cons.
    + exists (s ++ [x]), 0%nat. rewrite app_nil_r, last_snoc.
      split; [done | congruence].
Qed.

Lemma TrimRight_bytes (s : string) (c : ascii) :
  strings.TrimRight s c
  = string_of_bytes
      (strings.trimRightByte (bytes_of_string s) (String.length s) c).
Proof. unfold strings.TrimRight. by destruct s. Qed.

Lemma TrimRight_iff (s r : string) (c : ascii) :
  strings.TrimRight s c = r
  <-> (exists n, s = r +:+ string_of_bytes (repeat c n))
      /\ last (bytes_of_string r) <> Some c.
Proof.
  rewrite TrimRight_bytes, <- length_bytes_of_string.
  assert (forall r' n, last r' <> Some c ->
            strings.trimRightByte (r' ++ repeat c n) (length (r' ++ repeat c n)) c
            = r') as Htrim.
  { intros r' n Hr'. rewrite length_app, repeat_length.
    rewrite <- (app_nil_r (repeat c n)). by apply trimRightByte_app. }
  split.
  - intros <-.
    destruct (trailing_decompose (bytes_of_string s) c) as (r' & n & Hs & Hr').
    rewrite Hs, Htrim, bytes_of_string_of_bytes by done. split; [| done].
    exists n. apply bytes_of_string_inj.
    by rewrite bytes_of_string_app, !bytes_of_string_of_bytes.
  - intros [[n ->] Hr].
    rewrite bytes_of_string_app, bytes_of_string_of_bytes, Htrim by done.
    apply string_of_bytes_of_string.
Qed.

(** X1.  [WithBaseURL] stores the URL without its trailing slashes, and
    nothing else of it is changed: the stored base is the one string
    that does not end in a slash and gives the URL back when slashes are
    appended.  The other fields of the client are kept. *)
Theorem WithBaseURL_strips_slashes `{Platform} (url r : string)
    (c : client.Client) :
  (client.baseURL (client.WithBaseURL url c) = r
   <-> (exists n, url = r +:+ slashes n)
       /\ last (bytes_of_string r) <> Some "/"%char)
  /\ client.apiKey (client.WithBaseURL url c) = client.apiKey c
  /\ client.orgID (client.WithBaseURL url c) = client.orgID c
  /\ client.httpClient (client.WithBaseURL url c) = client.httpClient c.
Proof. split; [apply TrimRight_iff | done]. Qed.

Lemma NewClient_snoc `{Platform} (k o : string) (opts : list client.Option)
    (opt : client.Option) :
  client.NewClient k o (opts ++ [opt]) = opt (client.NewClient k o opts).
Proof. unfold client.NewClient. by rewrite fold_left_app. Qed.

Lemma NewClient_fields `{Platform} (k o : string) (specs : list option_spec) :
  client.apiKey (client.NewClient k o (map option_of specs)) = k
  /\ client.orgID (client.NewClient k o (map option_of specs)) = o
  /\ client.baseURL (client.NewClient k o (map option_of specs))
     = match last_base specs with
       | Some url => strings.TrimRight url "/"
       | None =>
           if strings.HasPrefix k "pk_test_" || strings.HasPrefix k "pk_sandbox_"
           then "https://sandbox-api.reevit.io"
           else "https://api.reevit.io"
       end
  /\ client.httpClient (client.NewClient k o (map option_of specs))
     = match last_client specs with
       | Some h => h
       | None => Some (http_Client 10000000000)
       end.
Proof.
  induction specs as [|s specs IH] using rev_ind.
  - unfold client.NewClient. simpl.
    by destruct (strings.HasPrefix k "pk_test_" || strings.HasPrefix k "pk_sandbox_").
  - destruct IH as (Hk & Ho & Hb & Hh).
    rewrite map_app. simpl map. rewrite NewClient_snoc.
    unfold last_base, last_client in *. rewrite !omap_app.
    destruct s as [url | h]; simpl; rewrite ?app_nil_r, ?last_snoc; done.
Qed.

(** X2.  [NewClient] with the options a caller can build: the key and
    the organisation are the ones given; the base URL is that of the
    last [WithBaseURL], without its trailing slashes, and otherwise the
    sandbox for keys that begin with [pk_test_] or [pk_sandbox_] and
    production for all others; the HTTP client is that of the last
    [WithHTTPClient], and otherwise one with a timeout of ten seconds.
    In every case the base URL does not end in a slash. *)
Theorem NewClient_options `{Platform} (k o : string) (specs : list option_spec) :
  let c := client.NewClient k o (map option_of specs) in
  client.apiKey c = k
  /\ client.orgID c = o
  /\ client.baseURL c
     = match last_base specs with
       | Some url => strings.TrimRight url "/"
       | None =>
           if strings.HasPrefix k "pk_test_" || strings.HasPrefix k "pk_sandbox_"
           then "https://sandbox-api.reevit.io"
           else "https://api.reevit.io"
       end
  /\ client.httpClient c
     = match last_client specs with
       | Some h => h
       | None => Some (http_Client 10000000000)
       end
  /\ last (bytes_of_string (client.baseURL c)) <> Some "/"%char.
Proof.
  cbv zeta. destruct (NewClient_fields k o specs) as (Hk & Ho & Hb & Hh).
  repeat apply conj; try done.
  rewrite Hb. destruct (last_base specs) as [url|].
  - by apply (TrimRight_iff url (strings.TrimRight url "/") "/").
  - by destruct (strings.HasPrefix k "pk_test_" || strings.HasPrefix k "pk_sandbox_").
Qed.

Lemma TrimPrefix_app (p r : string) : strings.TrimPrefix (p +:+ r) p = r.
Proof.
  unfold strings.TrimPrefix.
  destruct (strings.HasPrefix (p +:+ r) p) eqn:E.
  - apply substring_suffix.
  - assert (strings.HasPrefix (p +:+ r) p = true) as E'
      by (apply HasPrefix_iff; eauto).
    congruence.
Qed.

Lemma TrimPrefix_none (s p : string) :
  strings.HasPrefix s p = false -> strings.TrimPrefix s p = s.
Proof. unfold strings.TrimPrefix. by intros ->. Qed.

(** X3.  The leading slash of a path is optional: [newRequest] builds
    the same request for [/p] and for [p] when [p] does not itself
    begin with a slash. *)
Theorem newRequest_leading_slash `{Platform} (c : client.Client)
    (method path : string) (body : client.iface) :
  strings.HasPrefix path "/" = false ->
  client.newRequest c method ("/" +:+ path) body
  = client.newRequest c method path body.
Proof.
  intros Hp. unfold client.newRequest.
  by rewrite TrimPrefix_app, (TrimPrefix_none path) by done.
Qed.

Lemma newRequest_leading_slash_witness :
  strings.HasPrefix "v1/subscriptions" "/" = false
  /\ client.newRequest (H := example_platform)
       (client.NewClient "pk_test_1" "org_1" []) "GET"
       ("/" +:+ "v1/subscriptions") client.Nil
     = client.newRequest (client.NewClient "pk_test_1" "org_1" []) "GET"
         "v1/subscriptions" client.Nil.
Proof.
  split; [reflexivity |].
  apply (newRequest_leading_slash (H := example_platform)). reflexivity.
Defined.

Lemma canonical_header_names :
  textproto.CanonicalMIMEHeaderKey "Content-Type" = "Content-Type"
  /\ textproto.CanonicalMIMEHeaderKey "User-Agent" = "User-Agent"
  /\ textproto.CanonicalMIMEHeaderKey "Authorization" = "Authorization"
  /\ textproto.CanonicalMIMEHeaderKey "X-Reevit-Client" = "X-Reevit-Client"
  /\ textproto.CanonicalMIMEHeaderKey "Idempotency-Key" = "Idempotency-Key"
  /\ textproto.CanonicalMIMEHeaderKey "X-Reevit-Signature" = "X-Reevit-Signature".
Proof. repeat split; vm_compute; reflexivity. Qed.

Lemma canonicalize_cons (c : ascii) (rest : list ascii) (upper : bool) :
  textproto.canonicalize (c :: rest) upper
  = canonical_byte upper c
      :: textproto.canonicalize rest (Ascii.eqb (canonical_byte upper c) "-").
Proof. reflexivity. Qed.

Lemma looks_like_key_valid (a : list ascii) (noCanon : bool) :
  forallb textproto.validHeaderFieldByte a = true ->
  textproto.looks_like_key a noCanon = Some noCanon.
Proof.
  induction a as [|c a IH]; [done |]. simpl.
  intros [-> Ha]%andb_true_iff. by apply IH.
Qed.

Lemma canonical_scan_valid (pre rest : list ascii) (upper : bool) :
  forallb textproto.validHeaderFieldByte (pre ++ rest) = true ->
  textproto.canonicalize (pre ++ rest) true
  = pre ++ textproto.canonicalize rest upper ->
  textproto.canonical_scan (pre ++ rest) rest upper
  = textproto.canonicalize (pre ++ rest) true.
Proof.
  revert pre upper. induction rest as [|c rest IH]; intros pre upper Hv Hc.
  - simpl in *. by rewrite Hc.
  - assert (textproto.canonicalMIMEHeaderKey (pre ++ c :: rest)
            = textproto.canonicalize (pre ++ c :: rest) true) as Hkey.
    { unfold textproto.canonicalMIMEHeaderKey.
      by rewrite looks_like_key_valid. }
    assert (textproto.validHeaderFieldByte c = true) as Hvc.
    { rewrite forallb_app in Hv. apply andb_true_iff in Hv as [_ Hv].
      simpl in Hv. by apply andb_true_iff in Hv as [-> _]. }
    cbn [textproto.canonical_scan]. rewrite Hvc. simpl negb. cbv iota.
    rewrite canonicalize_cons in Hc. unfold canonical_byte in Hc.
    destruct (upper && textproto.is_lower c); [done |].
    destruct (negb upper && textproto.is_upper c); [done |].
    change (pre ++ c :: rest) with (pre ++ [c] ++ rest) in *.
    rewrite app_assoc in *. apply IH; [done |].
    rewrite Hc. by rewrite <- app_assoc.
Qed.

Lemma CanonicalMIMEHeaderKey_valid (s : string) :
  forallb textproto.validHeaderFieldByte (bytes_of_string s) = true ->
  textproto.CanonicalMIMEHeaderKey s
  = string_of_bytes (textproto.canonicalize (bytes_of_string s) true).
Proof.
  intros Hv. unfold textproto.CanonicalMIMEHeaderKey. f_equal.
  by apply (canonical_scan_valid [] (bytes_of_string s) true).
Qed.

Lemma fold_case_byte (x y : ascii) :
  fold_case x = fold_case y ->
  textproto.validHeaderFieldByte y = true ->
  textproto.validHeaderFieldByte x = true
  /\ forall upper, canonical_byte upper x = canonical_byte upper y.
Proof.
  intros Hf Hy.
  assert (forallb
            (fun y =>
               implb (Ascii.eqb (fold_case x) (fold_case y)
                      && textproto.validHeaderFieldByte y)
                     (textproto.validHeaderFieldByte x
                      && Ascii.eqb (canonical_byte true x) (canonical_byte true y)
                      && Ascii.eqb (canonical_byte false x) (canonical_byte false y)))
            all_bytes = true) as Hall.
  { revert x Hf. intros x _. revert x. apply forall_byte. vm_compute. reflexivity. }
  pose proof (forall_byte _ Hall y) as Hxy. cbv beta in Hxy.
  rewrite Hf, Ascii.eqb_refl, Hy in Hxy. simpl in Hxy.
  apply andb_true_iff in Hxy as [[Hx Ht]%andb_true_iff Hfalse].
  apply Ascii.eqb_eq in Ht, Hfalse. split; [done |]. by intros [].
Qed.

Lemma canonicalize_fold_case (a b : list ascii) (upper : bool) :
  map fold_case a = map fold_case b ->
  forallb textproto.validHeaderFieldByte b = true ->
  forallb textproto.validHeaderFieldByte a = true
  /\ textproto.canonicalize a upper = textproto.canonicalize b upper.
Proof.
  revert b upper. induction a as [|x a IH]; intros [|y b] upper Hm Hv; try done.
  simpl in Hm, Hv. injection Hm as Hxy Hm.
  apply andb_true_iff in Hv as [Hy Hv].
  destruct (fold_case_byte x y Hxy Hy) as [Hx Hstep].
  rewrite !canonicalize_cons, Hstep.
  destruct (IH b (Ascii.eqb (canonical_byte upper y) "-") Hm Hv) as [Ha ->].
  split; [| done]. simpl. by rewrite Hx, Ha.
Qed.

(** Header names that differ in the case of their letters only have
    the same canonical form. *)
Lemma CanonicalMIMEHeaderKey_same_name (name canon : string) :
  same_name name canon = true ->
  forallb textproto.validHeaderFieldByte (bytes_of_string canon) = true ->
  textproto.CanonicalMIMEHeaderKey name = textproto.CanonicalMIMEHeaderKey canon.
Proof.
  unfold same_name, to_lower. intros Hs Hv. apply String.eqb_eq in Hs.
  apply (f_equal bytes_of_string) in Hs.
  rewrite !bytes_of_string_of_bytes in Hs.
  destruct (canonicalize_fold_case _ _ true Hs Hv) as [Hn Hc].
  by rewrite !CanonicalMIMEHeaderKey_valid, Hc.
Qed.

Lemma Header_Get_same_name (h : gmap string (list string)) (name canon : string) :
  same_name name canon = true ->
  forallb textproto.validHeaderFieldByte (bytes_of_string canon) = true ->
  http.Header_Get h name = http.Header_Get h canon.
Proof.
  intros Hs Hv. unfold http.Header_Get.
  by rewrite (CanonicalMIMEHeaderKey_same_name name canon).
Qed.

(** The request [newRequest] returns when it returns one. *)
Lemma newRequest_inl `{Platform} (c : client.Client) (method path : string)
    (body : client.iface) (r : http.Request) :
  client.newRequest c method path body = inl r ->
  exists buf,
    client.encode_body body = inl buf
    /\ r = {| http.Method := if String.eqb method "" then "GET" else method;
              http.URL := client.baseURL c +:+ "/" +:+ strings.TrimPrefix path "/";
              http.Header :=
                <[ "X-Reevit-Client" := ["@reevit/go"] ]>
                  (<[ "Authorization" := ["Bearer " +:+ client.apiKey c] ]>
                     (<[ "User-Agent" := ["@reevit/go"] ]>
                        (if client.is_nil body then ∅
                         else <[ "Content-Type" := ["application/json"] ]> ∅)));
              http.Body := buf |}.
Proof.
  unfold client.newRequest.
  destruct (client.encode_body body) as [buf | err]; [| done].
  unfold client.http_NewRequest.
  destruct (negb (http.validMethod _)); [done |].
  destruct (url_Parse _); [done |].
  intros [= <-]. exists buf. split; [done |].
  destruct canonical_header_names as (Hct & Hua & Hau & Hxc & _).
  unfold client.set_header, http.Header_Set, client.userAgent. simpl.
  rewrite Hua, Hau, Hxc.
  destruct (client.is_nil body); simpl; [done |]. by rewrite Hct.
Qed.

(** X4.  What every request built by [newRequest] carries: the API key
    as a bearer token, the two headers that name the SDK, a JSON content
    type exactly when a body is given, and no other header (so no
    idempotency key and nothing that names the organisation); header
    names are matched in any letter case. *)
Theorem newRequest_headers `{Platform} (c : client.Client) (method path : string)
    (body : client.iface) (r : http.Request) :
  client.newRequest c method path body = inl r ->
  http.Header_Get (http.Header r) "authorization" = "Bearer " +:+ client.apiKey c
  /\ http.Header_Get (http.Header r) "user-agent" = "@reevit/go"
  /\ http.Header_Get (http.Header r) "x-reevit-client" = "@reevit/go"
  /\ http.Header_Get (http.Header r) "content-type"
     = (if client.is_nil body then "" else "application/json")
  /\ http.Header_Get (http.Header r) "idempotency-key" = ""
  /\ (forall key, is_Some (http.Header r !! key) ->
        key ∈ ["Authorization"; "User-Agent"; "X-Reevit-Client"; "Content-Type"])
  /\ (http.Body r = None <-> client.is_nil body = true)
  /\ (forall name,
        (same_name name "Authorization" = true ->
         http.Header_Get (http.Header r) name = "Bearer " +:+ client.apiKey c)
        /\ (same_name name "User-Agent" = true ->
            http.Header_Get (http.Header r) name = "@reevit/go")
        /\ (same_name name "X-Reevit-Client" = true ->
            http.Header_Get (http.Header r) name = "@reevit/go")
        /\ (same_name name "Content-Type" = true ->
            http.Header_Get (http.Header r) name
            = (if client.is_nil body then "" else "application/json"))
        /\ (same_name name "Idempotency-Key" = true ->
            http.Header_Get (http.Header r) name = "")).
Proof.
  intros Hr.
  assert (forall name canon value,
            http.Header_Get (http.Header r) canon = value ->
            forallb textproto.validHeaderFieldByte (bytes_of_string canon) = true ->
            same_name name canon = true ->
            http.Header_Get (http.Header r) name = value) as Hcase.
  { intros name canon value <- Hv Hs. by apply Header_Get_same_name. }
  destruct (newRequest_inl _ _ _ _ _ Hr) as (buf & Hbuf & ->).
  unfold http.Header_Get. simpl.
  change (textproto.CanonicalMIMEHeaderKey "authorization") with "Authorization".
  change (textproto.CanonicalMIMEHeaderKey "user-agent") with "User-Agent".
  change (textproto.CanonicalMIMEHeaderKey "x-reevit-client") with "X-Reevit-Client".
  change (textproto.CanonicalMIMEHeaderKey "content-type") with "Content-Type".
  change (textproto.CanonicalMIMEHeaderKey "idempotency-key") with "Idempotency-Key".
  repeat split.
  - by rewrite lookup_insert_ne, lookup_insert by done.
  - by rewrite !lookup_insert_ne, lookup_insert by done.
  - by rewrite lookup_insert.
  - rewrite !lookup_insert_ne by done.
    destruct (client.is_nil body); [by rewrite lookup_empty |].
    by rewrite lookup_insert.
  - rewrite !lookup_insert_ne by done.
    destruct (client.is_nil body); [by rewrite lookup_empty |].
    by rewrite lookup_insert_ne, lookup_empty by done.
  - intros key [v Hv].
    repeat (apply lookup_insert_Some in Hv as [[<- _] | [_ Hv]];
            [set_solver |]).
    destruct (client.is_nil body).
    + by rewrite lookup_empty in Hv.
    + apply lookup_insert_Some in Hv as [[<- _] | [_ Hv]]; [set_solver |].
      by rewrite lookup_empty in Hv.
  - intros ->. destruct body; simpl in *; [done |].
    by destruct (Encode v).
  - intros Hn. destruct body; simpl in *; [congruence | done].
  - apply (Hcase name "Authorization"); [| done].
    unfold http.Header_Get. simpl.
    by rewrite lookup_insert_ne, lookup_insert by done.
  - apply (Hcase name "User-Agent"); [| done].
    unfold http.Header_Get. simpl.
    by rewrite !lookup_insert_ne, lookup_insert by done.
  - apply (Hcase name "X-Reevit-Client"); [| done].
    unfold http.Header_Get. simpl. by rewrite lookup_insert.
  - apply (Hcase name "Content-Type"); [| done].
    unfold http.Header_Get. simpl. rewrite !lookup_insert_ne by done.
    destruct (client.is_nil body); [by rewrite lookup_empty |].
    by rewrite lookup_insert.
  - apply (Hcase name "Idempotency-Key"); [| done].
    unfold http.Header_Get. simpl. rewrite !lookup_insert_ne by done.
    destruct (client.is_nil body); [by rewrite lookup_empty |].
    by rewrite lookup_insert_ne, lookup_empty by done.
Qed.

Lemma newRequest_headers_witness :
  client.newRequest example_client "GET" "/v1/payments/pay_1" client.Nil
  = inl example_request
  /\ http.Header_Get (http.Header example_request) "authorization"
     = "Bearer pk_test_1".
Proof.
  assert (client.newRequest example_client "GET" "/v1/payments/pay_1" client.Nil
          = inl example_request) as Hr by (vm_compute; reflexivity).
  split; [exact Hr |].
  exact (proj1 (newRequest_headers example_client "GET" "/v1/payments/pay_1"
                  client.Nil example_request Hr)).
Defined.

Lemma newRequest_ext `{Platform} (c c' : client.Client) (method path : string)
    (body : client.iface) :
  client.baseURL c = client.baseURL c' -> client.apiKey c = client.apiKey c' ->
  client.newRequest c method path body = client.newRequest c' method path body.
Proof. unfold client.newRequest. by intros -> ->. Qed.

Lemma do_ext `{Platform} {V} `{!JSONDecode V} (c c' : client.Client)
    (ctx : option Context) (req : http.Request) (v : option V) :
  client.httpClient c = client.httpClient c' ->
  client.do c ctx req v = client.do c' ctx req v.
Proof. unfold client.do. by intros ->. Qed.

Section Services.
Context `{Platform}.
Context {PaymentIntentRequest Payment PaymentSummary : Type}.
Context {SubscriptionRequest Subscription : Type}.
Context {ConnectionRequest Connection FraudPolicy : Type}.
Context `{!JSONEncode PaymentIntentRequest} `{!JSONEncode SubscriptionRequest}.
Context `{!JSONEncode ConnectionRequest} `{!JSONEncode FraudPolicy}.
Context `{!JSONDecode Payment} `{!JSONDecode (list PaymentSummary)}.
Context `{!JSONDecode Subscription} `{!JSONDecode (list Subscription)}.
Context `{!JSONDecode Connection} `{!JSONDecode (list Connection)}.
Context `{!JSONDecode ConnectionsService.TestResult} `{!JSONDecode FraudPolicy}.

(** X5.  The organisation given to [NewClient] is never used: two
    clients made from the same key and the same options, for different
    organisations, give the same result in every method of every
    service. *)
Theorem orgID_unused (k o1 o2 : string) (specs : list option_spec)
    (ctx : option Context) :
  let c1 := client.NewClient k o1 (map option_of specs) in
  let c2 := client.NewClient k o2 (map option_of specs) in
  (forall (req : option PaymentIntentRequest) opts,
     PaymentsService.CreateIntent (Payment := Payment) c1 ctx req opts
     = PaymentsService.CreateIntent c2 ctx req opts)
  /\ (forall limit offset,
        PaymentsService.List (PaymentSummary := PaymentSummary) c1 ctx limit offset
        = PaymentsService.List c2 ctx limit offset)
  /\ (forall id, PaymentsService.Get (Payment := Payment) c1 ctx id
                 = PaymentsService.Get c2 ctx id)
  /\ (forall id, PaymentsService.Confirm (Payment := Payment) c1 ctx id
                 = PaymentsService.Confirm c2 ctx id)
  /\ (forall id, PaymentsService.Cancel (Payment := Payment) c1 ctx id
                 = PaymentsService.Cancel c2 ctx id)
  /\ (forall req : option SubscriptionRequest,
        SubscriptionsService.Create (Subscription := Subscription) c1 ctx req
        = SubscriptionsService.Create c2 ctx req)
  /\ SubscriptionsService.List (Subscription := Subscription) c1 ctx
     = SubscriptionsService.List c2 ctx
  /\ (forall req : option ConnectionRequest,
        ConnectionsService.Create (Connection := Connection) c1 ctx req
        = ConnectionsService.Create c2 ctx req)
  /\ ConnectionsService.List (Connection := Connection) c1 ctx
     = ConnectionsService.List c2 ctx
  /\ (forall req : option ConnectionRequest,
        ConnectionsService.Test c1 ctx req = ConnectionsService.Test c2 ctx req)
  /\ FraudService.Get (FraudPolicy := FraudPolicy) c1 ctx
     = FraudService.Get c2 ctx
  /\ (forall policy : option FraudPolicy,
        FraudService.Update c1 ctx policy = FraudService.Update c2 ctx policy).
Proof.
  cbv zeta.
  destruct (NewClient_fields k o1 specs) as (Hk1 & _ & Hb1 & Hh1).
  destruct (NewClient_fields k o2 specs) as (Hk2 & _ & Hb2 & Hh2).
  set (c1 := client.NewClient k o1 (map option_of specs)) in *.
  set (c2 := client.NewClient k o2 (map option_of specs)) in *.
  assert (client.baseURL c1 = client.baseURL c2) as Hb by congruence.
  assert (client.apiKey c1 = client.apiKey c2) as Hk by congruence.
  assert (client.httpClient c1 = client.httpClient c2) as Hh by congruence.
  clearbody c1 c2.
  unfold PaymentsService.CreateIntent, PaymentsService.List, PaymentsService.Get,
    PaymentsService.Confirm, PaymentsService.Cancel, SubscriptionsService.Create,
    SubscriptionsService.List, ConnectionsService.Create, ConnectionsService.List,
    ConnectionsService.Test, FraudService.Get, FraudService.Update.
  repeat split; intros;
    rewrite (newRequest_ext c1 c2) by done;
    destruct (client.newRequest c2 _ _ _); try done;
    by rewrite (do_ext c1 c2).
Qed.

(** X6.  Idempotency keys: the option sets the header and nothing else
    of the request; the header is found under any spelling of its name;
    of two keys the last one wins, also when [CreateIntent] applies the
    options. *)
Theorem WithIdempotencyKey_last_wins (c : client.Client) (ctx : option Context)
    (req : option PaymentIntentRequest) (opts : list client.RequestOption)
    (k1 k2 : string) (r : http.Request) :
  client.WithIdempotencyKey k2 (client.WithIdempotencyKey k1 r)
  = client.WithIdempotencyKey k2 r
  /\ http.Header_Get (http.Header (client.WithIdempotencyKey k1 r))
       "idempotency-key" = k1
  /\ (forall name,
        textproto.CanonicalMIMEHeaderKey name <> "Idempotency-Key" ->
        http.Header_Get (http.Header (client.WithIdempotencyKey k1 r)) name
        = http.Header_Get (http.Header r) name)
  /\ http.Method (client.WithIdempotencyKey k1 r) = http.Method r
  /\ http.URL (client.WithIdempotencyKey k1 r) = http.URL r
  /\ http.Body (client.WithIdempotencyKey k1 r) = http.Body r
  /\ PaymentsService.CreateIntent (Payment := Payment) c ctx req
       (opts ++ [client.WithIdempotencyKey k1; client.WithIdempotencyKey k2])
     = PaymentsService.CreateIntent c ctx req
         (opts ++ [client.WithIdempotencyKey k2])
  /\ (forall name,
        same_name name "Idempotency-Key" = true ->
        http.Header_Get (http.Header (client.WithIdempotencyKey k1 r)) name = k1).
Proof.
  destruct canonical_header_names as (_ & _ & _ & _ & Hik & _).
  assert (forall r', client.WithIdempotencyKey k2 (client.WithIdempotencyKey k1 r')
                     = client.WithIdempotencyKey k2 r') as Hlast.
  { intros r'. unfold client.WithIdempotencyKey, client.set_header, http.Header_Set.
    simpl. by rewrite insert_insert. }
  repeat split; try done.
  - unfold http.Header_Get. simpl. unfold http.Header_Set.
    change (textproto.CanonicalMIMEHeaderKey "idempotency-key") with "Idempotency-Key".
    by rewrite Hik, lookup_insert.
  - intros name Hname. unfold http.Header_Get. simpl. unfold http.Header_Set.
    by rewrite Hik, lookup_insert_ne.
  - unfold PaymentsService.CreateIntent.
    destruct (client.newRequest c _ _ _) as [httpRequest | err]; [| done].
    rewrite !fold_left_app. simpl. by rewrite Hlast.
  - intros name Hs.
    rewrite (Header_Get_same_name _ name "Idempotency-Key") by done.
    unfold http.Header_Get. simpl. unfold http.Header_Set.
    by rewrite Hik, lookup_insert.
Qed.

End Services.

(** X7.  The outcomes of [do], for an HTTP client whose [Do] returns.
    It panics exactly when the context is nil or the HTTP client is
    nil.  It returns an [APIError] exactly when the server answered
    with a status of 400 or more, and the error then carries that status
    and the body of the response as it is, the decoder not being used.
    It returns without error only when the status is below 400 and,
    where a target is given, the body decoded into it. *)
Theorem do_outcomes `{Platform} {V : Type} `{!JSONDecode V} (c : client.Client)
    (ctx : option Context) (req : http.Request) (v : option V) :
  (client.do c ctx req v = None <-> ctx = None \/ client.httpClient c = None)
  /\ (forall v' e,
        client.do c ctx req v = Some (v', Some (client.ErrAPI e))
        <-> exists ctx' t resp,
              ctx = Some ctx'
              /\ client.httpClient c = Some t
              /\ t ctx' req = inl resp
              /\ 400 <= http.StatusCode resp
              /\ e = {| client.StatusCode := http.StatusCode resp;
                        client.Message := string_of_bytes (http.RespBody resp) |}
              /\ v' = v)
  /\ (forall v',
        client.do c ctx req v = Some (v', None)
        <-> exists ctx' t resp,
              ctx = Some ctx'
              /\ client.httpClient c = Some t
              /\ t ctx' req = inl resp
              /\ http.StatusCode resp < 400
              /\ match v with
                 | None => v' = None
                 | Some x =>
                     exists x', v' = Some x'
                       /\ Decode (http.RespBody resp) x = (x', None)
                 end).
Proof.
  unfold client.do. destruct ctx as [ctx'|].
  2: { split; [split; [by left | done] |].
       split; intros; (split; [done | by intros (? & ? & ? & ? & _)]). }
  destruct (client.httpClient c) as [t|].
  2: { split; [split; [by right | done] |].
       split; intros; (split; [done | by intros (? & ? & ? & _ & ? & _)]). }
  destruct (t ctx' req) as [resp | err] eqn:Ht.
  2: { split; [split; [done | by intros [? | ?]] |].
       split; intros; (split; [done |]);
         intros (ctx0 & t' & resp & [= <-] & [= <-] & ? & _); congruence. }
  destruct (Z.leb_spec 400 (http.StatusCode resp)) as [Hs | Hs].
  - split; [split; [done | by intros [? | ?]] |]. split.
    + intros v' e. split.
      * intros [= <- <-]. exists ctx', t, resp. by destruct resp.
      * intros (ctx0 & t' & resp' & [= <-] & [= <-] & Hr & _ & -> & ->).
        congruence.
    + intros v'. split; [done |].
      intros (ctx0 & t' & resp' & [= <-] & [= <-] & Hr & Hlt & _).
      assert (resp' = resp) as -> by congruence. lia.
  - split; [| split].
    + split; [| by intros [? | ?]]. destruct v as [x|]; [| done].
      by destruct (Decode (http.RespBody resp) x) as [x' [err|]].
    + intros v' e. split.
      * destruct v as [x|]; [| done].
        by destruct (Decode (http.RespBody resp) x) as [x' [err|]].
      * intros (ctx0 & t' & resp' & [= <-] & [= <-] & Hr & Hge & _).
        assert (resp' = resp) as -> by congruence. lia.
    + intros v'. split.
      * destruct v as [x|].
        -- destruct (Decode (http.RespBody resp) x) as [x' [err|]] eqn:Hd; [done |].
           intros [= <-]. exists ctx', t, resp. repeat split; try done.
           by exists x'.
        -- intros [= <-]. by exists ctx', t, resp.
      * intros (ctx0 & t' & resp' & [= <-] & [= <-] & Hr & _ & Hv).
        assert (resp' = resp) as -> by congruence.
        destruct v as [x|].
        -- by destruct Hv as (x' & -> & ->).
        -- by subst v'.
Qed.

(** X8.  [Test] reports success only on the word of the server: it
    returns true exactly when the request was built and sent, the
    answer had a status below 400 and its body decoded to a result
    whose [Success] is true; with an error it always returns false. *)
Theorem Test_true_iff `{Platform} {ConnectionRequest : Type}
    `{!JSONEncode ConnectionRequest} `{!JSONDecode ConnectionsService.TestResult}
    (c : client.Client) (ctx : option Context) (req : option ConnectionRequest) :
  (forall err,
     ConnectionsService.Test c ctx req = Some (true, err)
     <-> err = None
         /\ exists r ctx' t resp res,
              client.newRequest c "POST" "v1/connections/test" (client.Value req)
              = inl r
              /\ ctx = Some ctx'
              /\ client.httpClient c = Some t
              /\ t ctx' r = inl resp
              /\ http.StatusCode resp < 400
              /\ Decode (http.RespBody resp) zero = (res, None)
              /\ ConnectionsService.Success res = true)
  /\ (forall b err,
        ConnectionsService.Test c ctx req = Some (b, Some err) -> b = false).
Proof.
  unfold ConnectionsService.Test. change http.MethodPost with "POST".
  destruct (client.newRequest c "POST" "v1/connections/test" (client.Value req))
    as [r | e0].
  2: { split; [| by intros b err [= <- _]].
       intros err. split; [done | by intros (_ & r & ? & t & resp & res & ? & _)]. }
  unfold client.do. destruct ctx as [ctx'|].
  2: { split; [| done]. intros err. split; [done |].
       by intros (_ & r' & ? & t & resp & res & _ & ? & _). }
  destruct (client.httpClient c) as [t|].
  2: { split; [| done]. intros err. split; [done |].
       by intros (_ & r' & ? & t & resp & res & _ & _ & ? & _). }
  destruct (t ctx' r) as [resp | le] eqn:Ht.
  2: { split; [| by intros b err [= <- _]].
       intros err. split; [done |].
       intros (_ & r' & ctx0 & t' & resp & res & [= <-] & [= <-] & [= <-] & Hr & _).
       congruence. }
  destruct (Z.leb_spec 400 (http.StatusCode resp)) as [Hs | Hs].
  { split; [| by intros b err [= <- _]].
    intros err. split; [done |].
    intros (_ & r' & ctx0 & t' & resp' & res & [= <-] & [= <-] & [= <-] & Hr
            & Hlt & _).
    assert (resp' = resp) as -> by congruence. lia. }
  destruct (Decode (http.RespBody resp) zero) as [res [le|]] eqn:Hd.
  { split; [| by intros b err [= <- _]].
    intros err. split; [done |].
    intros (_ & r' & ctx0 & t' & resp' & res' & [= <-] & [= <-] & [= <-] & Hr
            & _ & Hd' & _).
    assert (resp' = resp) as -> by congruence. congruence. }
  simpl. split; [| done].
  intros err. split.
  - intros [= Hs' <-]. split; [done |]. by exists r, ctx', t, resp, res.
  - intros (-> & r' & ctx0 & t' & resp' & res' & [= <-] & [= <-] & [= <-] & Hr
            & _ & Hd' & Hs').
    assert (resp' = resp) as -> by congruence.
    assert (res' = res) as -> by congruence.
    by rewrite Hs'.
Qed.

(** X9.  A nil pointer given as the request is not left out and not
    refused: it is sent as the JSON text [null] followed by a line
    feed, with the JSON content type, whatever the type of the request.
    Building the request fails only where it fails without a body. *)
Theorem nil_request_sent_as_null `{Platform} {T : Type} `{!JSONEncode T}
    (c : client.Client) (method path : string) :
  (forall r,
     client.newRequest c method path (client.Value (@None T)) = inl r ->
     http.Body r = Some (bytes_of_string "null" ++ [byte_of_Z 10])
     /\ http.Header_Get (http.Header r) "content-type" = "application/json")
  /\ (forall e,
        client.newRequest c method path (client.Value (@None T)) = inr e ->
        client.newRequest c method path client.Nil = inr e)
  /\ (forall r,
        client.newRequest c method path client.Nil = inl r ->
        exists r',
          client.newRequest c method path (client.Value (@None T)) = inl r').
Proof.
  split; [| split].
  - intros r Hr. split.
    + destruct (newRequest_inl _ _ _ _ _ Hr) as (buf & Hbuf & ->).
      simpl in *. congruence.
    + destruct (newRequest_inl _ _ _ _ _ Hr) as (buf & _ & ->).
      unfold http.Header_Get. simpl.
      change (textproto.CanonicalMIMEHeaderKey "content-type") with "Content-Type".
      by rewrite !lookup_insert_ne, lookup_insert by done.
  - intros e. unfold client.newRequest. simpl. unfold client.http_NewRequest.
    destruct (negb (http.validMethod _)); [done |].
    by destruct (url_Parse _).
  - intros r. unfold client.newRequest. simpl. unfold client.http_NewRequest.
    destruct (negb (http.validMethod _)); [done |].
    destruct (url_Parse _); [done |]. eauto.
Qed.

(** X10.  The text of an [APIError] determines the error: the status
    and the message can be read back from it. *)
Theorem APIError_Error_inj (e e' : client.APIError) :
  client.APIError_Error e = client.APIError_Error e' -> e = e'.
Proof.
  destruct e as [st msg], e' as [st' msg']. unfold client.APIError_Error. simpl.
  intros Heq. apply string_app_inv_head in Heq.
  apply (f_equal bytes_of_string) in Heq.
  unfold fmt.verb_d in Heq. rewrite !bytes_of_string_app in Heq.
  apply FormatInt_sd in Heq as [-> Heq]; [| done | done].
  apply app_inv_head in Heq. by apply bytes_of_string_inj in Heq as ->.
Qed.

Lemma APIError_Error_inj_witness :
  client.APIError_Error {| client.StatusCode := 404; client.Message := "gone" |}
  = "reevit: request failed with status 404: gone"
  /\ {| client.StatusCode := 404; client.Message := "gone" |}
     = {| client.StatusCode := 404; client.Message := "gone" |}.
Proof.
  split; [reflexivity |]. apply APIError_Error_inj. reflexivity.
Defined.

Lemma app_last_byte (l l' t t' : list ascii) (x y : ascii) :
  l ++ t ++ [x] = l' ++ t' ++ [y] -> x = y.
Proof.
  rewrite !app_assoc. intros Heq. by apply app_inj_tail in Heq as [_ ->].
Qed.

(** X11.  The paths of the payments service.  A path determines the
    arguments it was built from: the identifier for [Get], [Confirm]
    and [Cancel], the limit and the offset for [List].  No path of
    [Confirm] is a path of [Cancel] or the path of [CreateIntent], and
    no path of [List] is a path of [Get].  Identifiers are inserted as
    they are: [Get] on an identifier that ends in [/confirm] asks for
    the path that [Confirm] posts to. *)
Theorem payments_paths (id id' : string) (limit offset limit' offset' : Z) :
  (PaymentsService.Get_path id = PaymentsService.Get_path id' -> id = id')
  /\ (PaymentsService.Confirm_path id = PaymentsService.Confirm_path id' -> id = id')
  /\ (PaymentsService.Cancel_path id = PaymentsService.Cancel_path id' -> id = id')
  /\ (PaymentsService.List_path limit offset
      = PaymentsService.List_path limit' offset' ->
      limit = limit' /\ offset = offset')
  /\ PaymentsService.Confirm_path id <> PaymentsService.Cancel_path id'
  /\ PaymentsService.Confirm_path id <> "/v1/payments/intents"
  /\ PaymentsService.Cancel_path id <> "/v1/payments/intents"
  /\ PaymentsService.List_path limit offset <> PaymentsService.Get_path id
  /\ PaymentsService.Get_path (id +:+ "/confirm") = PaymentsService.Confirm_path id
  /\ PaymentsService.Get_path "intents" = "/v1/payments/intents".
Proof.
  unfold PaymentsService.Get_path, PaymentsService.Confirm_path,
    PaymentsService.Cancel_path, PaymentsService.List_path, fmt.verb_d.
  repeat apply conj.
  - apply string_app_inv_head.
  - intros Heq. apply string_app_inv_head in Heq.
    by apply string_app_inv_tail in Heq.
  - intros Heq. apply string_app_inv_head in Heq.
    by apply string_app_inv_tail in Heq.
  - intros Heq. apply string_app_inv_head in Heq.
    apply (f_equal bytes_of_string) in Heq.
    rewrite !bytes_of_string_app in Heq.
    apply FormatInt_sd in Heq as [-> Heq]; [| done | done].
    apply app_inv_head in Heq. apply bytes_of_string_inj in Heq.
    by apply FormatInt_inj in Heq as ->.
  - intros Heq. apply string_app_inv_head in Heq.
    apply (f_equal bytes_of_string) in Heq.
    rewrite !bytes_of_string_app in Heq.
    change (bytes_of_string "/confirm")
      with (bytes_of_string "/confir" ++ ["m"%char]) in Heq.
    change (bytes_of_string "/cancel")
      with (bytes_of_string "/cance" ++ ["l"%char]) in Heq.
    by apply app_last_byte in Heq.
  - change "/v1/payments/intents" with ("/v1/payments/" +:+ "intents").
    intros Heq. apply string_app_inv_head in Heq.
    apply (f_equal bytes_of_string) in Heq.
    rewrite !bytes_of_string_app in Heq.
    change (bytes_of_string "/confirm")
      with (bytes_of_string "/confir" ++ ["m"%char]) in Heq.
    change (bytes_of_string "intents")
      with ([] ++ bytes_of_string "intent" ++ ["s"%char]) in Heq.
    by apply app_last_byte in Heq.
  - change "/v1/payments/intents" with ("/v1/payments/" +:+ "intents").
    intros Heq. apply string_app_inv_head in Heq.
    apply (f_equal bytes_of_string) in Heq.
    rewrite !bytes_of_string_app in Heq.
    change (bytes_of_string "/cancel")
      with (bytes_of_string "/cance" ++ ["l"%char]) in Heq.
    change (bytes_of_string "intents")
      with ([] ++ bytes_of_string "intent" ++ ["s"%char]) in Heq.
    by apply app_last_byte in Heq.
  - intros Heq. apply (f_equal bytes_of_string) in Heq.
    rewrite !bytes_of_string_app in Heq. simpl in Heq. congruence.
  - reflexivity.
  - reflexivity.
Qed.

Lemma hex_no_prefix (b : list ascii) :
  strings.HasPrefix (hex.EncodeToString b) "sha256=" = false.
Proof.
  destruct (strings.HasPrefix _ _) eqn:E; [| done].
  apply HasPrefix_iff in E as [r Hr].
  pose proof (hex_EncodeToString_lower b) as Hlow.
  rewrite Hr in Hlow. simpl in Hlow. discriminate.
Qed.

Lemma signHex_no_prefix (body : list ascii) (secret : string) (h : Hash) :
  strings.HasPrefix (webhooks.signHex body secret h) "sha256=" = false.
Proof.
  unfold webhooks.signHex.
  destruct ((length body =? 0)%nat || String.eqb (strings.TrimSpace secret) "");
    [done | apply hex_no_prefix].
Qed.

Lemma expected_signature_length (payload : list ascii) (secret : string) :
  String.length (expected_signature payload secret) = 64%nat.
Proof.
  unfold expected_signature.
  by rewrite hex_EncodeToString_length, hmac_sha256_length.
Qed.

(** X12.  What the signing helpers return is not a header that
    [VerifySignature] accepts: it lacks the prefix, so it is refused
    for every payload and every secret, the signing secret included.
    With the prefix put in front, a Paystack signature is still refused
    always, because it has 128 digits where 64 are expected. *)
Theorem raw_signature_rejected (body payload : list ascii) (secret secret' : string) :
  webhooks.VerifySignature payload (webhooks.SignHubtel body secret) secret'
  = Some false
  /\ webhooks.VerifySignature payload (webhooks.SignPolar body secret) secret'
     = Some false
  /\ webhooks.VerifySignature payload (webhooks.SignPaystack body secret) secret'
     = Some false
  /\ webhooks.VerifySignature payload
       ("sha256=" +:+ webhooks.SignPaystack body secret) secret'
     = Some false.
Proof.
  repeat apply conj;
    try (apply VerifySignature_unprefixed, signHex_no_prefix).
  rewrite VerifySignature_prefixed. f_equal. apply bool_decide_eq_false.
  intros Heq. pose proof (expected_signature_length payload secret') as Hlen.
  rewrite <- Heq in Hlen.
  destruct (signHex_length body secret sha512.New 64 hmac_sha512_length)
    as [Hs | Hs]; unfold webhooks.SignPaystack in Hlen; rewrite Hs in Hlen;
    simpl in Hlen; lia.
Qed.

(** X13.  When a signed header is accepted.  The header made of the
    prefix and the signature of [body] under [secret] is accepted for
    [body'] under [secret'] exactly when a signature was produced (the
    body and the trimmed secret are not empty) and the two HMACs, of
    [body] under the trimmed [secret] and of [body'] under [secret'] as
    it is, are the same bytes. *)
Theorem signed_header_accepted_iff (body body' : list ascii)
    (secret secret' : string) :
  webhooks.VerifySignature body'
    ("sha256=" +:+ webhooks.SignPolar body secret) secret' = Some true
  <-> body <> []
      /\ strings.TrimSpace secret <> ""
      /\ hmac.MAC sha256.New (bytes_of_string (strings.TrimSpace secret)) body
         = hmac.MAC sha256.New (bytes_of_string secret') body'.
Proof.
  rewrite VerifySignature_prefixed.
  unfold webhooks.SignPolar, webhooks.signHex, expected_signature.
  destruct body as [|b body]; simpl.
  { split; [| by intros [? _]].
    intros [= Hd]. apply bool_decide_eq_true in Hd.
    apply (f_equal String.length) in Hd.
    by rewrite hex_EncodeToString_length, hmac_sha256_length in Hd. }
  destruct (String.eqb_spec (strings.TrimSpace secret) "") as [He | He].
  { split; [| by intros (_ & ? & _)].
    intros [= Hd]. apply bool_decide_eq_true in Hd.
    apply (f_equal String.length) in Hd.
    by rewrite hex_EncodeToString_length, hmac_sha256_length in Hd. }
  split.
  - intros [= Hd]. apply bool_decide_eq_true in Hd.
    by apply hex_EncodeToString_inj in Hd.
  - intros (_ & _ & ->). f_equal. by apply bool_decide_eq_true.
Qed.

Lemma MAC_zero_padded (h : Hash) (key msg : list ascii) :
  (length key < BlockSize h)%nat ->
  hmac.MAC h (key ++ [byte_of_Z 0]) msg = hmac.MAC h key msg.
Proof.
  intros Hlen. unfold hmac.MAC. cbv zeta.
  assert (length (key ++ [byte_of_Z 0]) = (length key + 1)%nat) as Hl
    by (rewrite length_app; reflexivity).
  destruct (Nat.ltb_spec (BlockSize h) (length (key ++ [byte_of_Z 0]))); [lia |].
  destruct (Nat.ltb_spec (BlockSize h) (length key)); [lia |].
  rewrite <- app_assoc, Hl.
  replace (BlockSize h - length key)%nat
    with (S (BlockSize h - (length key + 1)))%nat by lia.
  reflexivity.
Qed.

Lemma MAC_long_key (h : Hash) (key msg : list ascii) :
  (BlockSize h < length key)%nat ->
  (length (Sum h key) <= BlockSize h)%nat ->
  hmac.MAC h key msg = hmac.MAC h (Sum h key) msg.
Proof.
  intros Hlong Hshort. unfold hmac.MAC.
  destruct (Nat.ltb_spec (BlockSize h) (length key)); [| lia].
  by destruct (Nat.ltb_spec (BlockSize h) (length (Sum h key))); [lia |].
Qed.

(** X14.  Keys that HMAC does not tell apart.  A secret shorter than
    the block of SHA-256 (64 bytes) and the same secret followed by a
    zero byte verify exactly the same headers; a key longer than the
    block gives the same HMAC as its SHA-256 digest used as the key. *)
Theorem hmac_equivalent_keys (payload : list ascii) (signature secret : string)
    (key msg : list ascii) :
  (String.length secret < 64)%nat ->
  (64 < length key)%nat ->
  webhooks.VerifySignature payload signature (secret +:+ String "000" "")
  = webhooks.VerifySignature payload signature secret
  /\ hmac.MAC sha256.New key msg = hmac.MAC sha256.New (sha256.Sum256 key) msg.
Proof.
  intros Hshort Hlong. split.
  - unfold webhooks.VerifySignature.
    rewrite bytes_of_string_app.
    change (bytes_of_string (String "000" "")) with [byte_of_Z 0].
    rewrite MAC_zero_padded; [done |].
    by rewrite length_bytes_of_string.
  - apply (MAC_long_key sha256.New); [done |].
    change (Sum sha256.New key) with (sha256.Sum256 key).
    rewrite sha256_Sum256_length. vm_compute. lia.
Qed.

Lemma hmac_equivalent_keys_witness :
  (String.length "secret" < 64)%nat
  /\ (64 < length (repeat "k"%char 65))%nat
  /\ webhooks.VerifySignature body_foo_bar "sha256=00"
       ("secret" +:+ String "000" "")
     = webhooks.VerifySignature body_foo_bar "sha256=00" "secret"
  /\ hmac.MAC sha256.New (repeat "k"%char 65) body_foo_bar
     = hmac.MAC sha256.New (sha256.Sum256 (repeat "k"%char 65)) body_foo_bar.
Proof.
  split; [simpl; lia |]. split; [simpl; lia |].
  apply hmac_equivalent_keys; simpl; lia.
Defined.


Lemma is_space_ascii (b : ascii) :
  is_space b = true ->
  (utf8.RuneSelf <=? Z_of_byte b) = false
  /\ strings.asciiSpace (Z_of_byte b) = true.
Proof.
  intros Hb. split; [| done]. revert Hb.
  assert (implb (is_space b) (negb (utf8.RuneSelf <=? Z_of_byte b)) = true) as Hall.
  { revert b. apply forall_byte. vm_compute. reflexivity. }
  destruct (is_space b), (utf8.RuneSelf <=? Z_of_byte b); done.
Qed.

Lemma solid_ascii (b : ascii) :
  solid b = true ->
  (utf8.RuneSelf <=? Z_of_byte b) = false
  /\ strings.asciiSpace (Z_of_byte b) = false.
Proof.
  unfold solid. intros [Hlt Hsp]%andb_true_iff.
  apply Z.ltb_lt in Hlt. apply negb_true_iff in Hsp. split; [| done].
  apply Z.leb_gt. lia.
Qed.

Lemma trim_start_blank (ws t : list ascii) :
  forallb is_space ws = true ->
  strings.trim_start (ws ++ t) = strings.trim_start t.
Proof.
  induction ws as [|b ws IH]; [done |].
  simpl. intros [Hb Hws]%andb_true_iff.
  destruct (is_space_ascii b Hb) as [-> ->]. by apply IH.
Qed.

Lemma trim_stop_blank (core ws1 ws2 : list ascii) (e : ascii) :
  last core = Some e -> solid e = true ->
  forallb is_space ws1 = true ->
  strings.trim_stop (core ++ ws1 ++ ws2) (length core + length ws1) = core.
Proof.
  intros Hlast He. revert ws2.
  induction ws1 as [|x ws1 IH] using rev_ind; intros ws2 Hws.
  - simpl. rewrite Nat.add_0_r.
    destruct core as [|e' mid _] using rev_ind; [done |].
    rewrite last_snoc in Hlast. injection Hlast as ->.
    rewrite length_app. simpl length. rewrite Nat.add_1_r.
    cbn [strings.trim_stop]. unfold utf8.at_.
    rewrite <- app_assoc. rewrite app_nth2, Nat.sub_diag by lia. simpl nth.
    destruct (solid_ascii e He) as [-> ->].
    rewrite app_assoc. apply take_app_length'.
    rewrite length_app. simpl. lia.
  - rewrite forallb_app in Hws. apply andb_true_iff in Hws as [Hws Hx].
    simpl in Hx. apply andb_true_iff in Hx as [Hx _].
    rewrite length_app. simpl length.
    replace (length core + (length ws1 + 1))%nat
      with (S (length core + length ws1)) by lia.
    cbn [strings.trim_stop]. unfold utf8.at_.
    rewrite <- !app_assoc.
    rewrite app_nth2 by lia. rewrite app_nth2 by lia.
    replace (length core + length ws1 - length core - length ws1)%nat
      with 0%nat by lia.
    simpl nth. destruct (is_space_ascii x Hx) as [-> ->].
    by apply IH.
Qed.

(** [TrimSpace] on a string with solid ends wrapped in ASCII white
    space gives the string. *)
Lemma TrimSpace_wrapped (ws s ws' : string) :
  blank ws = true -> blank ws' = true -> solid_ends s = true ->
  strings.TrimSpace (ws +:+ s +:+ ws') = s.
Proof.
  unfold blank, solid_ends, strings.TrimSpace. intros Hws Hws' Hs.
  rewrite !bytes_of_string_app, trim_start_blank by done.
  destruct (bytes_of_string s) as [|b rest] eqn:Hb; [done |].
  destruct (last (b :: rest)) as [e|] eqn:Hlast; [| done].
  apply andb_true_iff in Hs as [Hsb Hse].
  cbn [app strings.trim_start].
  destruct (solid_ascii b Hsb) as [-> ->].
  change (b :: rest ++ bytes_of_string ws')
    with ((b :: rest) ++ bytes_of_string ws').
  rewrite length_app.
  pose proof (trim_stop_blank (b :: rest) (bytes_of_string ws') [] e
                Hlast Hse Hws') as Hstop.
  rewrite app_nil_r in Hstop. rewrite Hstop.
  rewrite <- Hb. apply string_of_bytes_of_string.
Qed.

Lemma TrimSpace_blank (ws : string) :
  blank ws = true -> strings.TrimSpace ws = "".
Proof.
  unfold blank, strings.TrimSpace. intros Hws.
  rewrite <- (app_nil_r (bytes_of_string ws)).
  by rewrite trim_start_blank.
Qed.

(** X15.  White space around a secret does not count when signing: a
    secret that begins and ends with an ASCII byte other than white
    space signs as it does with ASCII white space (blanks, tabs, line
    ends) before and after it, in all three schemes; a secret of white
    space only gives the empty signature. *)
Theorem sign_ignores_surrounding_space (body : list ascii)
    (ws secret ws' : string) :
  blank ws = true -> blank ws' = true -> solid_ends secret = true ->
  webhooks.SignPaystack body (ws +:+ secret +:+ ws')
  = webhooks.SignPaystack body secret
  /\ webhooks.SignHubtel body (ws +:+ secret +:+ ws')
     = webhooks.SignHubtel body secret
  /\ webhooks.SignPolar body (ws +:+ secret +:+ ws')
     = webhooks.SignPolar body secret
  /\ webhooks.SignPaystack body ws = ""
  /\ webhooks.SignHubtel body ws = ""
  /\ webhooks.SignPolar body ws = "".
Proof.
  intros Hws Hws' Hs.
  pose proof (TrimSpace_wrapped ws secret ws' Hws Hws' Hs) as Hw.
  pose proof (TrimSpace_wrapped "" secret "" eq_refl eq_refl Hs) as Hb.
  assert ("" +:+ secret +:+ "" = secret) as Hid.
  { apply bytes_of_string_inj. rewrite !bytes_of_string_app. simpl.
    apply app_nil_r. }
  rewrite Hid in Hb.
  unfold webhooks.SignPaystack, webhooks.SignHubtel, webhooks.SignPolar,
    webhooks.signHex.
  rewrite Hw, Hb, (TrimSpace_blank ws Hws). simpl.
  rewrite !orb_true_r. done.
Qed.

Lemma sign_ignores_surrounding_space_witness :
  blank " " = true /\ blank (String "010" "") = true
  /\ solid_ends "secret" = true
  /\ webhooks.SignPolar body_foo_bar (" " +:+ "secret" +:+ String "010" "")
     = webhooks.SignPolar body_foo_bar "secret".
Proof.
  split; [reflexivity |]. split; [reflexivity |]. split; [reflexivity |].
  apply (sign_ignores_surrounding_space body_foo_bar " " "secret" (String "010" ""));
    reflexivity.
Defined.

(** X16.  [FlutterwaveHash] and [BuildMetadata] strip: a value that
    begins and ends with an ASCII byte other than white space comes
    back without the ASCII white space put around it, so the results
    hold no such padding and applying the functions to their own
    results changes nothing. *)
Theorem stripped_values (ws ws' hash org conn pay : string) :
  blank ws = true -> blank ws' = true ->
  solid_ends hash = true -> solid_ends org = true ->
  solid_ends conn = true -> solid_ends pay = true ->
  webhooks.FlutterwaveHash (ws +:+ hash +:+ ws') = hash
  /\ webhooks.FlutterwaveHash
       (webhooks.FlutterwaveHash (ws +:+ hash +:+ ws'))
     = webhooks.FlutterwaveHash (ws +:+ hash +:+ ws')
  /\ webhooks.BuildMetadata (ws +:+ org +:+ ws') (ws +:+ conn +:+ ws')
       (ws +:+ pay +:+ ws')
     = {[ "org_id" := org; "connection_id" := conn; "payment_id" := pay ]}
  /\ webhooks.BuildMetadata org conn pay
     = webhooks.BuildMetadata (ws +:+ org +:+ ws') (ws +:+ conn +:+ ws')
         (ws +:+ pay +:+ ws').
Proof.
  intros Hws Hws' Hh Ho Hc Hp.
  assert (forall s, solid_ends s = true -> strings.TrimSpace s = s) as Hfix.
  { intros s Hs.
    pose proof (TrimSpace_wrapped "" s "" eq_refl eq_refl Hs) as Hb.
    assert ("" +:+ s +:+ "" = s) as Hid.
    { apply bytes_of_string_inj. rewrite !bytes_of_string_app. simpl.
      apply app_nil_r. }
    by rewrite Hid in Hb. }
  assert (forall s, solid_ends s = true -> String.eqb s "" = false) as Hne.
  { intros s Hs. destruct s; [done | done]. }
  unfold webhooks.FlutterwaveHash, webhooks.BuildMetadata. cbv zeta.
  rewrite !TrimSpace_wrapped, !Hfix, !Hne by done. simpl.
  by repeat apply conj.
Qed.

Lemma stripped_values_witness :
  blank " " = true /\ blank (String "009" "") = true
  /\ solid_ends "secret-hash" = true /\ solid_ends "org_1" = true
  /\ solid_ends "conn_1" = true /\ solid_ends "pay_1" = true
  /\ webhooks.FlutterwaveHash (" " +:+ "secret-hash" +:+ String "009" "")
     = "secret-hash".
Proof.
  repeat (split; [reflexivity |]).
  apply (stripped_values " " (String "009" "") "secret-hash" "org_1" "conn_1"
           "pay_1"); reflexivity.
Defined.

Lemma uint_digits (d : Decimal.uint) :
  forallb is_digit (bytes_of_string (NilEmpty.string_of_uint d)) = true.
Proof. induction d; simpl; try done. Qed.

Lemma FormatInt_key_bytes (n : Z) :
  forallb key_byte (bytes_of_string (strconv.FormatInt n)) = true.
Proof.
  assert (forall l, forallb is_digit l = true -> forallb key_byte l = true)
    as Hdig.
  { intros l Hl. rewrite forallb_forall in *. intros b Hb.
    specialize (Hl b Hb). unfold key_byte. rewrite Hl.
    by rewrite orb_true_r. }
  destruct (string_of_to_int n) as (d & _ & [[-> _] | [-> _]]).
  - apply Hdig, uint_digits.
  - simpl. apply Hdig, uint_digits.
Qed.

Lemma hex_key_bytes (b : list ascii) :
  forallb key_byte (bytes_of_string (hex.EncodeToString b)) = true.
Proof.
  pose proof (hex_EncodeToString_lower b) as Hl.
  rewrite forallb_forall in *. intros c Hc. specialize (Hl c Hc). revert Hl.
  assert (implb (is_lower_hex c) (key_byte c) = true) as Hall.
  { clear Hc. revert c. apply forall_byte. vm_compute. reflexivity. }
  by destruct (is_lower_hex c), (key_byte c).
Qed.

Lemma key_byte_token (l : list ascii) :
  forallb key_byte l = true ->
  forallb textproto.validHeaderFieldByte l = true.
Proof.
  intros Hl. rewrite forallb_forall in *. intros c Hc. specialize (Hl c Hc).
  revert Hl.
  assert (implb (key_byte c) (textproto.validHeaderFieldByte c) = true) as Hall.
  { clear Hc. revert c. apply forall_byte. vm_compute. reflexivity. }
  by destruct (key_byte c), (textproto.validHeaderFieldByte c).
Qed.

(** X17.  An idempotency key is made of lower-case letters, digits,
    the underscore and the minus sign only; every such byte is a token
    byte of HTTP, so that the key can be sent as a header value as it
    is.  It has the prefix, then at least one more byte for the bucket,
    the underscore and the 64 digits of the digest. *)
Theorem GenerateIdempotencyKey_token (now : Z) (order : list string)
    (params : gmap string json.any) :
  forallb key_byte
    (bytes_of_string (reevit.GenerateIdempotencyKey now order params)) = true
  /\ forallb textproto.validHeaderFieldByte
       (bytes_of_string (reevit.GenerateIdempotencyKey now order params)) = true
  /\ strings.HasPrefix (reevit.GenerateIdempotencyKey now order params) "reevit_"
     = true
  /\ (73 <= String.length (reevit.GenerateIdempotencyKey now order params))%nat.
Proof.
  assert (forallb key_byte
            (bytes_of_string (reevit.GenerateIdempotencyKey now order params))
          = true) as Hkey.
  { unfold reevit.GenerateIdempotencyKey, fmt.verb_d, fmt.verb_x. cbv zeta.
    rewrite !bytes_of_string_app, !forallb_app.
    by rewrite FormatInt_key_bytes, hex_key_bytes. }
  split; [exact Hkey |]. split; [by apply key_byte_token |].
  unfold reevit.GenerateIdempotencyKey, fmt.verb_d, fmt.verb_x. cbv zeta.
  split.
  - apply HasPrefix_iff. eauto.
  - rewrite !string_app_length, hex_EncodeToString_length, sha256_Sum256_length.
    destruct (string_of_to_int (now ÷ (5 * 60))) as (d & Hd & [[-> _] | [-> _]]);
      destruct (uint_digits_head d Hd) as (c & s & -> & _); simpl; lia.
Qed.

Lemma range_order_empty (order : list string) :
  reevit.range_order ∅ order <-> order = [].
Proof.
  unfold reevit.range_order. rewrite map_to_list_empty. simpl. split.
  - apply Permutation_nil_r.
  - by intros ->.
Qed.

(** X18.  The empty parameter set.  The canonical encoding is the empty
    string for the empty parameter set and for no other; the key of the
    empty set is the bucket followed by the SHA-256 digest of the empty
    string, the same for every call without parameters. *)
Theorem empty_parameter_set (now : Z) (order : list string)
    (params : gmap string json.any) :
  reevit.range_order params order ->
  (reevit.canonical_encoding order params = "" <-> params = ∅)
  /\ (params = ∅ ->
      reevit.GenerateIdempotencyKey now order params
      = "reevit_" +:+ strconv.FormatInt (now ÷ 300)
          +:+ "_e3b0c44298fc1c149afbf4c8996fb92427ae41e4649b934ca495991b7852b855").
Proof.
  intros Hord.
  assert (params = ∅ -> reevit.canonical_encoding order params = "") as Hempty.
  { intros ->. apply range_order_empty in Hord as ->. reflexivity. }
  split; [split; [| done] |].
  - intros Henc. rewrite canonical_encoding_keys in Henc.
    apply (f_equal bytes_of_string) in Henc.
    rewrite bytes_of_string_of_bytes in Henc. simpl in Henc.
    destruct (sort.Strings order) as [|k keys] eqn:Hs.
    + apply map_eq. intros k. rewrite lookup_empty.
      destruct (params !! k) as [v|] eqn:Hk; [| done].
      assert (k ∈ order) as Hin
        by (apply (range_order_elem params order k Hord); eauto).
      apply sort_Strings_elem in Hin. rewrite Hs in Hin. by apply elem_of_nil in Hin.
    + simpl map in Henc. rewrite join_cons in Henc.
      unfold entry_of, Spec.entry in Henc. simpl in Henc.
      apply app_eq_nil in Henc as [Henc _].
      apply app_eq_nil in Henc as [_ Henc]. done.
  - intros Hp. unfold reevit.GenerateIdempotencyKey, fmt.verb_d, fmt.verb_x.
    cbv zeta. rewrite (Hempty Hp). change (5 * 60) with 300.
    change (bytes_of_string "") with (@nil ascii).
    pose proof sha256_empty as Hsha. rewrite Hsha.
    apply bytes_of_string_inj. rewrite !bytes_of_string_app. reflexivity.
Qed.

Lemma empty_parameter_set_witness :
  reevit.range_order ∅ []
  /\ reevit.GenerateIdempotencyKey 1700000000 [] ∅
     = "reevit_" +:+ strconv.FormatInt (1700000000 ÷ 300)
         +:+ "_e3b0c44298fc1c149afbf4c8996fb92427ae41e4649b934ca495991b7852b855".
Proof.
  assert (reevit.range_order ∅ []) as Hord by (by apply range_order_empty).
  split; [exact Hord |].
  exact (proj2 (empty_parameter_set 1700000000 [] ∅ Hord) eq_refl).
Defined.

Lemma VerifySignature_decide (payload : list ascii) (signature secret : string) :
  webhooks.VerifySignature payload signature secret
  = Some (bool_decide
            (signature = "sha256=" +:+ expected_signature payload secret)).
Proof.
  destruct (strings.HasPrefix signature "sha256=") eqn:Hp.
  - apply HasPrefix_iff in Hp as [received ->].
    rewrite VerifySignature_prefixed. f_equal. apply bool_decide_ext.
    split; [by intros -> | apply string_app_inv_head].
  - rewrite VerifySignature_unprefixed by done. f_equal. symmetry.
    apply bool_decide_eq_false. intros ->.
    assert (strings.HasPrefix
              ("sha256=" +:+ expected_signature payload secret) "sha256=" = true)
      as Hp' by (apply HasPrefix_iff; eauto).
    congruence.
Qed.

Section Handler.
Context `{Platform}.
Context `{!JSONUnmarshal handler.WebhookPayload}.
Context `{!JSONUnmarshal handler.PaymentData}.
Context `{!JSONUnmarshal handler.SubscriptionData}.

Lemma dispatch_reply (w : handler.ResponseWriter) (event : handler.WebhookPayload) :
  handler.w_Header (handler.dispatch w event) = handler.w_Header w
  /\ handler.w_status (handler.dispatch w event) = handler.w_status w
  /\ handler.w_body (handler.dispatch w event) = handler.w_body w.
Proof.
  unfold handler.dispatch, handler.with_data.
  repeat (destruct (String.eqb _ _); [try done |]); try done;
    by destruct (Unmarshal _ _) as [? []].
Qed.

(** X19.  The handler and the signature.  With a secret configured, a
    request whose body could be read is answered with 401 exactly when
    the header [X-Reevit-Signature] is not the prefix followed by the
    HMAC-SHA256 of the body under the secret; a request without that
    header is among them. *)
Theorem webhookHandler_rejects_iff (secret : string) (body : list ascii)
    (r_Header : gmap string (list string)) :
  secret <> "" ->
  exists w,
    handler.webhookHandler secret (inl body) r_Header = Some w
    /\ (handler.w_status w = 401
        <-> http.Header_Get r_Header "X-Reevit-Signature"
            <> "sha256=" +:+ expected_signature body secret)
    /\ (r_Header !! "X-Reevit-Signature" = None -> handler.w_status w = 401).
Proof.
  intros Hsecret. unfold handler.webhookHandler. cbv zeta.
  destruct (String.eqb_spec secret "") as [? | _]; [done |]. simpl negb. cbv iota.
  assert (r_Header !! "X-Reevit-Signature" = None ->
          http.Header_Get r_Header "X-Reevit-Signature"
          <> "sha256=" +:+ expected_signature body secret) as Hmissing.
  { intros Hnone. unfold http.Header_Get.
    destruct canonical_header_names as (_ & _ & _ & _ & _ & ->).
    by rewrite Hnone. }
  rewrite VerifySignature_decide. simpl option_map.
  destruct (bool_decide_reflect
              (http.Header_Get r_Header "X-Reevit-Signature"
               = "sha256=" +:+ expected_signature body secret)) as [Heq | Hne];
    simpl negb; cbv iota.
  - destruct (Unmarshal body handler.zero_WebhookPayload) as [event [err|]];
      eexists; (split; [reflexivity |]); simpl;
      (split; [split; [discriminate | done] |]);
      intros Hnone; by apply Hmissing in Hnone.
  - eexists. split; [reflexivity |]. simpl. by split.
Qed.

(** X20.  Without a secret the handler checks nothing: when the
    environment variable is empty the headers of the request have no
    effect on what the handler does, and the answer is never 401. *)
Theorem webhookHandler_open_without_secret (r_Body : list ascii + LibError)
    (r_Header : gmap string (list string)) :
  handler.webhookHandler "" r_Body r_Header = handler.webhookHandler "" r_Body ∅
  /\ (forall w, handler.webhookHandler "" r_Body r_Header = Some w ->
        handler.w_status w <> 401).
Proof.
  split; [by destruct r_Body |].
  intros w. unfold handler.webhookHandler. cbv zeta.
  destruct r_Body as [body | err]; simpl.
  - destruct (Unmarshal body handler.zero_WebhookPayload) as [event [e|]];
      intros [= <-]; simpl; discriminate.
  - intros [= <-]. simpl. discriminate.
Qed.

(** X21.  The answers of the handler.  The handler never panics and
    answers with 200, 400 or 401.  The answer is 200, with the JSON
    body that acknowledges receipt, exactly when the body was read, the
    signature was not refused and the body parsed as an event: the type
    of the event and what its data hold do not matter, so that events
    of unknown types and events whose data do not parse are
    acknowledged too.  The other answers carry their message as plain
    text. *)
Theorem webhookHandler_answers (secret : string) (r_Body : list ascii + LibError)
    (r_Header : gmap string (list string)) :
  exists w,
    handler.webhookHandler secret r_Body r_Header = Some w
    /\ (handler.w_status w = 200 /\
        handler.w_body w
        = bytes_of_string ("{" +:+ quoted "received" +:+ ":true}") ++ [byte_of_Z 10]
        /\ http.Header_Get (handler.w_Header w) "content-type" = "application/json"
        \/ (handler.w_status w = 400 \/ handler.w_status w = 401)
           /\ (handler.w_body w = bytes_of_string "Failed to read body" ++ [byte_of_Z 10]
               \/ handler.w_body w = bytes_of_string "Invalid signature" ++ [byte_of_Z 10]
               \/ handler.w_body w = bytes_of_string "Invalid JSON" ++ [byte_of_Z 10])
           /\ http.Header_Get (handler.w_Header w) "content-type"
              = "text/plain; charset=utf-8")
    /\ (handler.w_status w = 200
        <-> exists body event,
              r_Body = inl body
              /\ (secret = ""
                  \/ http.Header_Get r_Header "X-Reevit-Signature"
                     = "sha256=" +:+ expected_signature body secret)
              /\ Unmarshal body handler.zero_WebhookPayload = (event, None)).
Proof.
  unfold handler.webhookHandler. cbv zeta.
  destruct r_Body as [body | err].
  2: { eexists. split; [reflexivity |]. simpl. split.
       - right. split; [by left |]. split; [by left |]. vm_compute. reflexivity.
       - split; [discriminate | by intros (? & ? & ? & _)]. }
  assert (exists rejected,
            (if negb (String.eqb secret "")
             then option_map negb
                    (webhooks.VerifySignature body
                       (http.Header_Get r_Header "X-Reevit-Signature") secret)
             else Some false) = Some rejected
            /\ (rejected = false
                <-> secret = ""
                    \/ http.Header_Get r_Header "X-Reevit-Signature"
                       = "sha256=" +:+ expected_signature body secret))
    as (rejected & -> & Hrej).
  { destruct (String.eqb_spec secret "") as [-> | Hs]; simpl negb; cbv iota.
    - exists false. split; [done |]. split; [by left | done].
    - rewrite VerifySignature_decide. simpl. eexists. split; [reflexivity |].
      rewrite negb_false_iff, bool_decide_eq_true. split; [by right |].
      by intros [? | ?]. }
  destruct rejected.
  { eexists. split; [reflexivity |]. simpl. split.
    - right. split; [by right |]. split; [right; by left |]. vm_compute. reflexivity.
    - split; [discriminate |].
      intros (body' & event & [= <-] & Hacc & _). apply Hrej in Hacc. done. }
  destruct (Unmarshal body handler.zero_WebhookPayload) as [event [err|]] eqn:Hun.
  { eexists. split; [reflexivity |]. simpl. split.
    - right. split; [by left |]. split; [right; by right |]. vm_compute. reflexivity.
    - split; [discriminate |].
      intros (body' & event' & [= <-] & _ & Hun'). congruence. }
  eexists. split; [reflexivity |]. simpl.
  destruct (dispatch_reply
              (handler.log_Print
                 {| handler.w_Header := ∅; handler.w_status := 0;
                    handler.w_body := []; handler.w_log := [] |}
                 ("[Webhook] Received: " +:+ handler.Type_ event +:+ " (" +:+
                  handler.ID event +:+ ")")) event) as (Hh & _ & Hb).
  rewrite Hh, Hb. simpl. split.
  - left. split; [done |]. split; [done |].
    unfold http.Header_Get, http.Header_Set.
    change (textproto.CanonicalMIMEHeaderKey "content-type") with "Content-Type".
    change (textproto.CanonicalMIMEHeaderKey "Content-Type") with "Content-Type".
    by rewrite lookup_insert.
  - split; [| done]. intros _. exists body, event. repeat split; [| done].
    by apply Hrej.
Qed.

End Handler.

Lemma webhookHandler_rejects_iff_witness :
  "whsec_1" <> ""
  /\ exists w,
       handler.webhookHandler (H := example_platform)
         (JSONUnmarshal0 := example_unmarshal)
         (JSONUnmarshal1 := example_unmarshal)
         (JSONUnmarshal2 := example_unmarshal)
         "whsec_1" (inl body_foo_bar) ∅ = Some w
       /\ handler.w_status w = 401.
Proof.
  split; [discriminate |].
  destruct (webhookHandler_rejects_iff (H := example_platform)
              (JSONUnmarshal0 := example_unmarshal)
              (JSONUnmarshal1 := example_unmarshal)
              (JSONUnmarshal2 := example_unmarshal)
              "whsec_1" body_foo_bar ∅) as (w & Hw & _ & Hmissing);
    [discriminate |].
  exists w. split; [exact Hw | apply Hmissing; reflexivity].
Defined.

(** X22.  Why building a request fails.  [newRequest] never returns an
    [APIError]; it fails only when the body cannot be encoded, the
    method is not valid or the URL does not parse.  With the methods
    the services use, GET and POST, and no body it fails exactly when
    the URL does not parse, and the error is the one of the parser. *)
Theorem newRequest_errors `{Platform} (c : client.Client) (method path : string)
    (body : client.iface) (e : client.error) :
  client.newRequest c method path body = inr e ->
  (exists le,
     e = client.ErrLib le
     /\ (client.encode_body body = inr (client.ErrLib le)
         \/ (http.validMethod (if String.eqb method "" then "GET" else method)
             = false
             /\ le = invalid_method (if String.eqb method "" then "GET" else method))
         \/ url_Parse (client.baseURL c +:+ "/" +:+ strings.TrimPrefix path "/")
            = Some le))
  /\ (forall le,
        client.newRequest c "GET" path client.Nil = inr (client.ErrLib le)
        <-> url_Parse (client.baseURL c +:+ "/" +:+ strings.TrimPrefix path "/")
            = Some le)
  /\ (forall le,
        client.newRequest c "POST" path client.Nil = inr (client.ErrLib le)
        <-> url_Parse (client.baseURL c +:+ "/" +:+ strings.TrimPrefix path "/")
            = Some le).
Proof.
  intros He. split; [| split].
  - revert He. unfold client.newRequest.
    destruct (client.encode_body body) as [buf | err] eqn:Hbuf.
    2: { intros [= <-]. destruct body as [| T HT v]; simpl in Hbuf; [done |].
         destruct (Encode v) as [? | le]; [done |]. injection Hbuf as <-.
         exists le. split; [done | by left]. }
    unfold client.http_NewRequest.
    destruct (http.validMethod _) eqn:Hm; simpl.
    + destruct (url_Parse _) as [le|] eqn:Hu; [| done]. intros [= <-].
      exists le. split; [done |]. right. by right.
    + intros [= <-]. eexists. split; [done |]. right. by left.
  - intros le. unfold client.newRequest, client.http_NewRequest. simpl.
    destruct (url_Parse _); [| done]. split; by intros [= ->].
  - intros le. unfold client.newRequest, client.http_NewRequest. simpl.
    destruct (url_Parse _); [| done]. split; by intros [= ->].
Qed.

Lemma newRequest_errors_witness :
  client.newRequest strict_client "GET" "/v1/payments" client.Nil
  = inr parse_error
  /\ exists le, parse_error = client.ErrLib le
                /\ url_Parse ("https://sandbox-api.reevit.io/v1/payments") = Some le.
Proof.
  assert (client.newRequest strict_client "GET" "/v1/payments" client.Nil
          = inr parse_error) as He by reflexivity.
  split; [exact He |].
  destruct (proj1 (newRequest_errors strict_client "GET" "/v1/payments"
                     client.Nil parse_error He)) as (le & Hle & _).
  exists le. split; [exact Hle |]. injection Hle as <-. reflexivity.
Defined.

(** X23.  Times before the epoch.  The bucket is the quotient of the
    time by 300 taken towards zero, so that all the times strictly
    between -300 and 300 share the bucket 0 and, for the same
    parameters, the same key. *)
Theorem GenerateIdempotencyKey_around_epoch (t : Z) (order : list string)
    (params : gmap string json.any) :
  -300 < t < 300 ->
  reevit.GenerateIdempotencyKey t order params
  = reevit.GenerateIdempotencyKey 0 order params.
Proof.
  intros Ht. unfold reevit.GenerateIdempotencyKey. cbv zeta.
  change (5 * 60) with 300.
  replace (t ÷ 300) with 0; [done |].
  symmetry. destruct (Z.le_gt_cases 0 t).
  - apply Z.quot_small. lia.
  - rewrite <- (Z.opp_involutive t), Z.quot_opp_l by lia.
    rewrite Z.quot_small; lia.
Qed.

Lemma GenerateIdempotencyKey_around_epoch_witness :
  -300 < -299 < 300
  /\ reevit.GenerateIdempotencyKey (-299) order_payment params_payment
     = reevit.GenerateIdempotencyKey 0 order_payment params_payment.
Proof.
  split; [lia |]. apply GenerateIdempotencyKey_around_epoch. lia.
Defined.

Lemma signHex_lower (body : list ascii) (secret : string) (h : Hash) :
  forallb is_lower_hex (bytes_of_string (webhooks.signHex body secret h)) = true.
Proof.
  unfold webhooks.signHex.
  destruct ((length body =? 0)%nat || String.eqb (strings.TrimSpace secret) "");
    [done | apply hex_EncodeToString_lower].
Qed.

(** X24.  The signatures are written with the digits 0 to 9 and the
    letters a to f in lower case, and with nothing else, in all three
    schemes. *)
Theorem signature_alphabet (body : list ascii) (secret : string) :
  forallb is_lower_hex (bytes_of_string (webhooks.SignPaystack body secret)) = true
  /\ forallb is_lower_hex (bytes_of_string (webhooks.SignHubtel body secret)) = true
  /\ forallb is_lower_hex (bytes_of_string (webhooks.SignPolar body secret)) = true.
Proof. repeat apply conj; apply signHex_lower. Qed.

Lemma TrimRightFunc_take (s : list ascii) (f : Z -> bool) :
  exists k, strings.TrimRightFunc s f = take k s.
Proof.
  unfold strings.TrimRightFunc.
  destruct (strings.lastIndexFunc _ _ _ _ _) as [i|]; [| by exists 0%nat].
  destruct (utf8.RuneSelf <=? utf8.at_ s i); [| by eexists].
  destruct (utf8.DecodeRuneInString _) as [r wid]. by eexists.
Qed.

Lemma trim_stop_take (t : list ascii) (stop : nat) :
  exists k, strings.trim_stop t stop = take k t.
Proof.
  induction stop as [|stop IH]; [by exists 0%nat |].
  cbn [strings.trim_stop].
  destruct (utf8.RuneSelf <=? utf8.at_ t stop).
  - destruct (TrimRightFunc_take (take (S stop) t) unicode.IsSpace) as [k ->].
    exists (k `min` S stop)%nat. by rewrite take_take.
  - destruct (strings.asciiSpace (utf8.at_ t stop)); [done | by eexists].
Qed.

Lemma trim_start_part (s : list ascii) :
  exists i k, strings.trim_start s = take k (drop i s).
Proof.
  induction s as [|b rest IH]; [by exists 0%nat, 0%nat |].
  cbn [strings.trim_start].
  destruct (utf8.RuneSelf <=? Z_of_byte b).
  - unfold strings.TrimFunc.
    destruct (TrimRightFunc_take
                (strings.TrimLeftFunc (b :: rest) unicode.IsSpace) unicode.IsSpace)
      as [k ->].
    unfold strings.TrimLeftFunc.
    destruct (strings.indexFunc _ _ _ _ _) as [i|].
    + by exists i, k.
    + exists 0%nat, 0%nat. by rewrite take_nil.
  - destruct (strings.asciiSpace (Z_of_byte b)).
    + destruct IH as (i & k & ->). by exists (S i), k.
    + destruct (trim_stop_take (b :: rest) (length (b :: rest))) as [k ->].
      by exists 0%nat, k.
Qed.

Lemma TrimSpace_part (s : string) :
  exists pre post, s = pre +:+ strings.TrimSpace s +:+ post.
Proof.
  unfold strings.TrimSpace.
  destruct (trim_start_part (bytes_of_string s)) as (i & k & ->).
  exists (string_of_bytes (take i (bytes_of_string s))),
    (string_of_bytes (drop k (drop i (bytes_of_string s)))).
  apply bytes_of_string_inj.
  rewrite !bytes_of_string_app, !bytes_of_string_of_bytes.
  by rewrite !take_drop.
Qed.

(** X25.  Trimming only removes: what [TrimSpace] returns is a
    contiguous part of its input.  So the value [FlutterwaveHash]
    returns, and every value that [BuildMetadata] stores, is a part of
    the argument it comes from, and is never longer. *)
Theorem trimmed_is_part (secretHash orgID connectionID paymentID : string) :
  (exists pre post,
     secretHash = pre +:+ webhooks.FlutterwaveHash secretHash +:+ post)
  /\ (String.length (webhooks.FlutterwaveHash secretHash)
      <= String.length secretHash)%nat
  /\ (forall k v,
        webhooks.BuildMetadata orgID connectionID paymentID !! k = Some v ->
        exists arg pre post,
          arg ∈ [orgID; connectionID; paymentID]
          /\ arg = pre +:+ v +:+ post /\ v <> "").
Proof.
  split; [apply TrimSpace_part | split].
  - destruct (TrimSpace_part secretHash) as (pre & post & Hs).
    unfold webhooks.FlutterwaveHash. rewrite Hs at 2.
    rewrite !string_app_length. lia.
  - intros k v. unfold webhooks.BuildMetadata. cbv zeta.
    unfold webhooks.MetadataOrgID, webhooks.MetadataConnectionID,
      webhooks.MetadataPaymentID.
    destruct (String.eqb_spec (strings.TrimSpace orgID) "") as [_ | Ho];
      destruct (String.eqb_spec (strings.TrimSpace connectionID) "") as [_ | Hc];
      destruct (String.eqb_spec (strings.TrimSpace paymentID) "") as [_ | Hp];
      simpl; intros Hv;
      repeat (apply lookup_insert_Some in Hv as [[_ <-] | [_ Hv]];
              [match goal with
               | |- context [strings.TrimSpace ?a] =>
                   destruct (TrimSpace_part a) as (pre & post & Hs);
                   exists a, pre, post; split; [set_solver | by split]
               end |]);
      by rewrite lookup_empty in Hv.
Qed.

(** X26.  A payment intent from end to end.  When the request encodes
    and the URL parses, [CreateIntent] with an idempotency key and a
    context that is not nil sends one request: a POST to the base URL
    followed by [/v1/payments/intents], with the encoded request as its
    body and exactly five headers, the key among them.  An error of the
    transport is returned as it is; an answer with a status of 400 or
    more becomes an [APIError] with that status and body; any other
    answer is decoded, and the payment is returned only if decoding
    gave no error.  With the nil context the call panics. *)
Theorem CreateIntent_end_to_end `{Platform} {PaymentIntentRequest Payment : Type}
    `{!JSONEncode PaymentIntentRequest} `{!JSONDecode Payment}
    (c : client.Client) (ctx : option Context) (req : PaymentIntentRequest)
    (key : string) (buf : list ascii)
    (t : Context -> http.Request -> http.Response + LibError) :
  Encode req = inl buf ->
  url_Parse (client.baseURL c +:+ "/v1/payments/intents") = None ->
  client.httpClient c = Some t ->
  PaymentsService.CreateIntent c ctx (Some req) [client.WithIdempotencyKey key]
  = match ctx with
    | None => None
    | Some ctx' =>
        match t ctx' (intent_request c buf key) with
        | inr le => Some (inr (client.ErrLib le))
        | inl resp =>
            if 400 <=? http.StatusCode resp
            then Some (inr (client.ErrAPI
                              {| client.StatusCode := http.StatusCode resp;
                                 client.Message :=
                                   string_of_bytes (http.RespBody resp) |}))
            else
              match Decode (http.RespBody resp) (zero : Payment) with
              | (payment, None) => Some (inl payment)
              | (_, Some le) => Some (inr (client.ErrLib le))
              end
        end
    end.
Proof.
  intros Henc Hurl Ht.
  assert (client.newRequest c "POST" "/v1/payments/intents"
            (client.Value (Some req))
          = inl {| http.Method := "POST";
                   http.URL := client.baseURL c +:+ "/v1/payments/intents";
                   http.Header :=
                     {[ "Authorization" := ["Bearer " +:+ client.apiKey c];
                        "Content-Type" := ["application/json"];
                        "User-Agent" := ["@reevit/go"];
                        "X-Reevit-Client" := ["@reevit/go"] ]};
                   http.Body := Some buf |}) as Hreq.
  { unfold client.newRequest. simpl. rewrite Henc.
    change (strings.TrimPrefix "/v1/payments/intents" "/")
      with "v1/payments/intents".
    assert (client.baseURL c +:+ "/" +:+ "v1/payments/intents"
            = client.baseURL c +:+ "/v1/payments/intents") as -> by done.
    unfold client.http_NewRequest. simpl. rewrite Hurl.
    destruct canonical_header_names as (Hct & Hua & Hau & Hxc & _).
    unfold client.set_header, http.Header_Set, client.userAgent. simpl.
    by rewrite Hct, Hua, Hau, Hxc. }
  unfold PaymentsService.CreateIntent. change http.MethodPost with "POST".
  rewrite Hreq. simpl fold_left.
  assert (client.WithIdempotencyKey key
            {| http.Method := "POST";
               http.URL := client.baseURL c +:+ "/v1/payments/intents";
               http.Header :=
                 {[ "Authorization" := ["Bearer " +:+ client.apiKey c];
                    "Content-Type" := ["application/json"];
                    "User-Agent" := ["@reevit/go"];
                    "X-Reevit-Client" := ["@reevit/go"] ]};
               http.Body := Some buf |}
          = intent_request c buf key) as ->.
  { unfold client.WithIdempotencyKey, client.set_header, http.Header_Set,
      intent_request. simpl.
    by destruct canonical_header_names as (_ & _ & _ & _ & -> & _). }
  unfold client.do. destruct ctx as [ctx'|]; [| done]. rewrite Ht.
  destruct (t ctx' (intent_request c buf key)) as [resp | le]; [| done].
  destruct (400 <=? http.StatusCode resp); [done |].
  by destruct (Decode (http.RespBody resp) zero) as [payment [le|]].
Qed.

Lemma CreateIntent_end_to_end_witness :
  Encode (JSONEncode := example_encode) "GHS"
  = inl (json.appendString "GHS" ++ [byte_of_Z 10])
  /\ PaymentsService.CreateIntent (JSONEncode0 := example_encode)
       (JSONDecode0 := example_decode tt) example_client (Some tt) (Some "GHS")
       [client.WithIdempotencyKey "reevit_1_00"]
     = Some (inr (client.ErrAPI {| client.StatusCode := 500;
                                   client.Message := "oops" |})).
Proof.
  split; [reflexivity |].
  exact (CreateIntent_end_to_end (H := example_platform)
           (JSONEncode0 := example_encode) (JSONDecode0 := example_decode tt)
           example_client (Some tt) "GHS" "reevit_1_00"
           (json.appendString "GHS" ++ [byte_of_Z 10])
           (http_Client 10000000000) eq_refl eq_refl eq_refl).
Defined.
